(** * MeshMonk registration primitives: a shallow embedding

    The development follows the free functions of the registration
    namespace ([fuse_affinities], [affinity_to_correspondences],
    [rigid_transformation], [vector_block_average], the Gaussian
    interpolation and smoothing routines and [viscoelastic_transformation]).

    Scalars.  The C++ [float] is idealised: a value is either a finite real
    number, on which arithmetic is exact (no rounding, no overflow), or the
    single non-finite value [NaN], which stands for IEEE NaN and the two
    infinities alike.  A division by zero produces [NaN], every arithmetic
    operation having a [NaN] operand produces [NaN], and every ordered
    comparison with [NaN] is false.  In particular [std::exp] is the real
    exponential and is never zero, whereas the binary32 value underflows to
    zero for arguments below about -104; the properties that rest on exact
    arithmetic say so.

    Containers.  Eigen vectors and matrices with a dynamic dimension are
    lists; reading an index past the end (undefined in C++) yields [NaN],
    writing past the end leaves the container as it is.  A call of the
    source that indexes past the end has no defined result: a property
    stated for a class of calls carries as a hypothesis the size condition
    under which the code stays within its containers.

    Library calls.  The self-adjoint eigensolver of Eigen and the
    k-nearest-neighbour search of helper_functions are parameters of the
    functions that call them; what is proved of those functions holds for
    every result the calls may return.  Messages written to [cerr] are
    returned as a list. *)

From Stdlib Require Import Reals Lra List Arith Lia Bool.
Import ListNotations.

Open Scope R_scope.

(** ** Scalars *)

Inductive float : Type :=
| Fin (r : R)
| NaN.

Declare Scope float_scope.
Delimit Scope float_scope with fl.
Bind Scope float_scope with float.

Definition fadd (a b : float) : float :=
  match a, b with
  | Fin x, Fin y => Fin (x + y)
  | _, _ => NaN
  end.

Definition fsub (a b : float) : float :=
  match a, b with
  | Fin x, Fin y => Fin (x - y)
  | _, _ => NaN
  end.

Definition fmul (a b : float) : float :=
  match a, b with
  | Fin x, Fin y => Fin (x * y)
  | _, _ => NaN
  end.

Definition fdiv (a b : float) : float :=
  match a, b with
  | Fin x, Fin y => if Req_dec_T y 0 then NaN else Fin (x / y)
  | _, _ => NaN
  end.

(** [std::exp], exact: positive on every finite argument. *)
Definition fexp (a : float) : float :=
  match a with
  | Fin x => Fin (exp x)
  | NaN => NaN
  end.

(** [std::pow(x, 2.0)] *)
Definition fpow2 (a : float) : float := fmul a a.

(** [a > b] *)
Definition fgt (a b : float) : bool :=
  match a, b with
  | Fin x, Fin y => if Rlt_dec y x then true else false
  | _, _ => false
  end.

Infix "+" := fadd : float_scope.
Infix "-" := fsub : float_scope.
Infix "*" := fmul : float_scope.
Infix "/" := fdiv : float_scope.

Definition fzero : float := Fin 0.
Definition fone : float := Fin 1.

Definition is_finite (a : float) : Prop := exists r, a = Fin r.

(** ** Loops *)

(** [for (size_t i = 0 ; i < n ; i++) body] acting on the state [s]. *)
Definition for_loop {S : Type} (n : nat) (body : nat -> S -> S) (s : S) : S :=
  fold_left (fun acc i => body i acc) (seq 0 n) s.

(** [for (size_t i = 0 ; i < n ; i++) body] whose body ignores the counter. *)
Fixpoint repeat_loop {S : Type} (n : nat) (body : S -> S) (s : S) : S :=
  match n with
  | O => s
  | Datatypes.S m => repeat_loop m body (body s)
  end.

(** The sum of reals behind a floating sum of finite terms. *)
Definition rsum (f : nat -> R) (n : nat) : R :=
  for_loop n (fun j acc => acc + f j) 0.

(** The real number a finite scalar stands for. *)
Definition fval (a : float) : R :=
  match a with
  | Fin r => r
  | NaN => 0
  end.

(** Assignment to element [i] of a dynamic container. *)
Fixpoint list_set {A : Type} (l : list A) (i : nat) (v : A) : list A :=
  match l, i with
  | [], _ => []
  | _ :: t, O => v :: t
  | h :: t, Datatypes.S j => h :: list_set t j v
  end.

(** ** Fixed-size vectors and matrices *)

Record Vec3Float : Type := mkVec3 { vx : float; vy : float; vz : float }.

Record Vec4Float : Type :=
  mkVec4 { q0 : float; q1 : float; q2 : float; q3 : float }.

(** Matrices are stored by rows. *)
Record Mat3Float : Type :=
  mkMat3 { m3r0 : Vec3Float; m3r1 : Vec3Float; m3r2 : Vec3Float }.

Record Mat4Float : Type :=
  mkMat4 { m4r0 : Vec4Float; m4r1 : Vec4Float;
           m4r2 : Vec4Float; m4r3 : Vec4Float }.

Definition VecDynFloat : Type := list float.
Definition Vec3Mat : Type := list Vec3Float.

Module Vec3.

Definition Zero : Vec3Float := mkVec3 fzero fzero fzero.
Definition undef : Vec3Float := mkVec3 NaN NaN NaN.

Definition add (a b : Vec3Float) : Vec3Float :=
  mkVec3 (vx a + vx b) (vy a + vy b) (vz a + vz b).

Definition sub (a b : Vec3Float) : Vec3Float :=
  mkVec3 (vx a - vx b) (vy a - vy b) (vz a - vz b).

(** [s * v] *)
Definition scale (s : float) (v : Vec3Float) : Vec3Float :=
  mkVec3 (s * vx v) (s * vy v) (s * vz v).

(** [v / s] *)
Definition div (v : Vec3Float) (s : float) : Vec3Float :=
  mkVec3 (vx v / s) (vy v / s) (vz v / s).

(** [a.transpose() * b] *)
Definition dot (a b : Vec3Float) : float :=
  (vx a * vx b + vy a * vy b + vz a * vz b)%fl.

Definition squaredNorm (a : Vec3Float) : float := dot a a.

Definition finite (v : Vec3Float) : Prop :=
  is_finite (vx v) /\ is_finite (vy v) /\ is_finite (vz v).

End Vec3.

(** Element and row access of dynamic containers. *)
Definition at_ (v : VecDynFloat) (i : nat) : float := nth i v NaN.
Definition row3 (m : Vec3Mat) (i : nat) : Vec3Float := nth i m Vec3.undef.

(** ** Messages written to [cerr] *)

Inductive Diagnostic : Type :=
| FuseSizesWrong
| RigidInputShapeWarning
| EigenDecomposerFailed.

(** ** Sparse affinity matrices *)

(** [Eigen::SparseMatrix<float>]: a shape and a coefficient for every
    position, zero where nothing is stored. *)
Record SparseMat : Type :=
  mkSparse { rows : nat; cols : nat; coeff : nat -> nat -> float }.

Module Sparse.

Definition transpose (a : SparseMat) : SparseMat :=
  mkSparse (cols a) (rows a) (fun i j => coeff a j i).

(** [a += b]: coefficient-wise, on the shape of [a]. *)
Definition add_assign (a b : SparseMat) : SparseMat :=
  mkSparse (rows a) (cols a) (fun i j => coeff a i j + coeff b i j)%fl.

(** [s * a] *)
Definition scale (s : float) (a : SparseMat) : SparseMat :=
  mkSparse (rows a) (cols a) (fun i j => s * coeff a i j)%fl.

Definition row_sum (a : SparseMat) (i : nat) : float :=
  for_loop (cols a) (fun j acc => acc + coeff a i j)%fl fzero.

(** Two matrices of one shape with the same coefficients inside it. *)
Definition same (a b : SparseMat) : Prop :=
  rows a = rows b /\ cols a = cols b /\
  forall i j, (i < rows a)%nat -> (j < cols a)%nat -> coeff a i j = coeff b i j.

(** An affinity has finite, non-negative coefficients. *)
Definition nonneg (a : SparseMat) : Prop :=
  forall i j, exists r, coeff a i j = Fin r /\ 0 <= r.

Definition row_stochastic (a : SparseMat) (i : nat) : Prop :=
  row_sum a i = Fin 1.

(** The tolerance of the spec's row-sum property. *)
Definition row_sums_to_one_within (a : SparseMat) (i : nat) (tol : R) : Prop :=
  exists s, row_sum a i = Fin s /\ Rabs (s - 1) <= tol.

End Sparse.

(** Modelled from the spec: [normalize_sparse_matrix] belongs to
    helper_functions, which is not part of the sources at hand.  The spec
    says of the fused affinity: "re-normalize each row to sum to 1"; every
    coefficient is divided by the sum of its row. *)
Definition normalize_sparse_matrix (a : SparseMat) : SparseMat :=
  mkSparse (rows a) (cols a)
           (fun i j => coeff a i j / Sparse.row_sum a i)%fl.

(** The safety check of [fuse_affinities] on the sizes it reads. *)
Definition fuse_sizes_wrong (ioAffinity1 inAffinity2 : SparseMat) : bool :=
  let numRows1 := rows ioAffinity1 in
  let numRows2 := rows inAffinity2 in
  let numCols1 := rows ioAffinity1 in
  let numCols2 := rows inAffinity2 in
  negb (numRows1 =? numCols1)%nat || negb (numCols1 =? numRows2)%nat.

(** [fuse_affinities]: the messages written and the new [ioAffinity1]. *)
Definition fuse_affinities (ioAffinity1 inAffinity2 : SparseMat)
  : list Diagnostic * SparseMat :=
  let msgs :=
    if fuse_sizes_wrong ioAffinity1 inAffinity2 then [FuseSizesWrong] else [] in
  let summed := Sparse.add_assign ioAffinity1 (Sparse.transpose inAffinity2) in
  (msgs, normalize_sparse_matrix summed).

(** The fusion in the words of the spec:
    [A_sym = 0.5 * (A_fw + A_bw^T)], then each row re-normalised. *)
Definition fuse_affinities_spec (A_fw A_bw : SparseMat) : SparseMat :=
  normalize_sparse_matrix
    (Sparse.scale (Fin 0.5) (Sparse.add_assign A_fw (Sparse.transpose A_bw))).

(** ** Feature matrices *)

(** Modelled from the spec: [NUM_FEATURES] is declared in global.hpp, which
    is not part of the sources at hand; a feature row is
    [x, y, z, nx, ny, nz]. *)
Definition NUM_FEATURES : nat := 6.

(** One row of a [FeatureMat]: columns 0..2 and columns 3..5. *)
Record FeatureVec : Type :=
  mkFeature { position : Vec3Float; normal : Vec3Float }.

Definition FeatureMat : Type := list FeatureVec.

Module Feature.

Definition undef : FeatureVec := mkFeature Vec3.undef Vec3.undef.

Definition add (a b : FeatureVec) : FeatureVec :=
  mkFeature (Vec3.add (position a) (position b))
            (Vec3.add (normal a) (normal b)).

Definition scale (s : float) (a : FeatureVec) : FeatureVec :=
  mkFeature (Vec3.scale s (position a)) (Vec3.scale s (normal a)).

Definition Zero : FeatureVec := mkFeature Vec3.Zero Vec3.Zero.

(** [m.leftCols(3)] *)
Definition leftCols3 (m : FeatureMat) : Vec3Mat := map position m.

Definition row (m : FeatureMat) (i : nat) : FeatureVec := nth i m undef.

(** [m.block<1,3>(i,0) = p] *)
Definition set_position (m : FeatureMat) (i : nat) (p : Vec3Float)
  : FeatureMat :=
  match nth_error m i with
  | Some r => list_set m i (mkFeature p (normal r))
  | None => m
  end.

End Feature.

(** ** Correspondences from an affinity *)

(** A dense [MatDynFloat], by rows. *)
Definition MatDynFloat : Type := list (list float).

(** One row of [inAffinity * inTargetFeatures]. *)
Definition affinity_row_times_features
  (arow : list float) (inTargetFeatures : FeatureMat) : FeatureVec :=
  fold_left (fun acc p => Feature.add acc (Feature.scale (fst p) (snd p)))
            (combine arow inTargetFeatures) Feature.Zero.

(** One entry of [inAffinity * inTargetFlags], summed exactly. *)
Definition affinity_row_times_flags
  (arow : list float) (inTargetFlags : VecDynFloat) : float :=
  fold_left (fun acc p => acc + fst p * snd p)%fl
            (combine arow inTargetFlags) fzero.

(** The flag correction loop body.  The source indexes
    [outCorrespondingFlags[i]], defined for [i] below the number of rows of
    the affinity. *)
Definition round_flag (paramFlagRoundingLimit : float)
  (i : nat) (flags : VecDynFloat) : VecDynFloat :=
  if fgt (at_ flags i) paramFlagRoundingLimit
  then list_set flags i (Fin 1)
  else list_set flags i (Fin 0).

(** The default of [paramFlagRoundingLimit]. *)
Definition default_flag_rounding_limit : float := Fin 0.9.

(** [affinity_to_correspondences]: the pair
    [(outCorrespondingFeatures, outCorrespondingFlags)]. *)
Definition affinity_to_correspondences
  (inTargetFeatures : FeatureMat) (inTargetFlags : VecDynFloat)
  (inAffinity : MatDynFloat) (paramFlagRoundingLimit : float)
  : FeatureMat * VecDynFloat :=
  let numElements := length inTargetFeatures in
  let outCorrespondingFeatures :=
    map (fun arow => affinity_row_times_features arow inTargetFeatures)
        inAffinity in
  let outCorrespondingFlags :=
    map (fun arow => affinity_row_times_flags arow inTargetFlags)
        inAffinity in
  (outCorrespondingFeatures,
   for_loop numElements (round_flag paramFlagRoundingLimit)
            outCorrespondingFlags).

(** ** Block and Gaussian averages *)

(** The summation loop of [vector_block_average]:
    [(outVector, sumWeights)] before the normalisation. *)
Definition block_sums (inVectors : Vec3Mat) (inWeights : VecDynFloat)
  : Vec3Float * float :=
  let numVectors := length inVectors in
  for_loop numVectors
    (fun i '(outVector, sumWeights) =>
       (Vec3.add outVector (row3 inVectors i),
        (sumWeights + at_ inWeights i)%fl))
    (Vec3.Zero, fzero).

(** [vector_block_average]: the value left in [outVector]. *)
Definition vector_block_average (inVectors : Vec3Mat) (inWeights : VecDynFloat)
  : Vec3Float :=
  let '(outVector, sumWeights) := block_sums inVectors inWeights in
  Vec3.div outVector sumWeights.

(** The real sums the claims about averages speak of: the sum of one
    coordinate of the first [n] vectors, and of the first [n] weights. *)
Definition coordinate_sum (c : Vec3Float -> float) (vs : Vec3Mat) (n : nat)
  : R :=
  rsum (fun i => fval (c (row3 vs i))) n.

Definition weight_sum (ws : VecDynFloat) (n : nat) : R :=
  rsum (fun i => fval (at_ ws i)) n.

(** The uniform average of a vector set: its sum over its cardinal. *)
Definition uniform_average (vs : Vec3Mat) : Vec3Float :=
  let n := length vs in
  mkVec3 (Fin (coordinate_sum vx vs n / INR n))
         (Fin (coordinate_sum vy vs n / INR n))
         (Fin (coordinate_sum vz vs n / INR n)).

(** The weight a source at squared distance [distanceSquared] receives:
    [std::exp(-0.5 * distanceSquared / std::pow(paramSigma, 2.0))]. *)
Definition gaussianWeight (paramSigma distanceSquared : float) : float :=
  fexp ((Fin (-0.5) * distanceSquared) / fpow2 paramSigma)%fl.

(** The Gaussian-times-user weight of source [i]. *)
Definition combinedWeight (inQueriedPosition : Vec3Float)
  (inVectorPositions : Vec3Mat) (inVectorWeights : VecDynFloat)
  (paramSigma : float) (i : nat) : float :=
  let sourceVectorPosition := row3 inVectorPositions i in
  let distanceVector := Vec3.sub sourceVectorPosition inQueriedPosition in
  let distanceSquared := Vec3.squaredNorm distanceVector in
  (gaussianWeight paramSigma distanceSquared * at_ inVectorWeights i)%fl.

(** The accumulation loop of [gaussian_interpolate_vector_field]:
    [(outQueriedVector, sumWeights)] before the normalisation. *)
Definition gaussian_accumulate (inQueriedPosition : Vec3Float)
  (inVectors inVectorPositions : Vec3Mat) (inVectorWeights : VecDynFloat)
  (paramSigma : float) : Vec3Float * float :=
  let numVectors := length inVectors in
  for_loop numVectors
    (fun i '(outQueriedVector, sumWeights) =>
       let w := combinedWeight inQueriedPosition inVectorPositions
                               inVectorWeights paramSigma i in
       (Vec3.add outQueriedVector (Vec3.scale w (row3 inVectors i)),
        (sumWeights + w)%fl))
    (Vec3.Zero, fzero).

(** [gaussian_interpolate_vector_field]: the value left in
    [outQueriedVector]. *)
Definition gaussian_interpolate_vector_field (inQueriedPosition : Vec3Float)
  (inVectors inVectorPositions : Vec3Mat) (inVectorWeights : VecDynFloat)
  (paramSigma : float) : Vec3Float :=
  let '(outQueriedVector, sumWeights) :=
    gaussian_accumulate inQueriedPosition inVectors inVectorPositions
                        inVectorWeights paramSigma in
  Vec3.div outQueriedVector sumWeights.


(** ** Gaussian smoothing of a vector field *)

Module Field.

Definition Zero (n : nat) : Vec3Mat := repeat Vec3.Zero n.

(** [a + b] and [a - b] on matrices of one shape, row by row. *)
Definition add (a b : Vec3Mat) : Vec3Mat :=
  map (fun p => Vec3.add (fst p) (snd p)) (combine a b).

Definition sub (a b : Vec3Mat) : Vec3Mat :=
  map (fun p => Vec3.sub (fst p) (snd p)) (combine a b).

End Field.

Section Smoothing.

(** The neighbour search of helper_functions (a k-d tree query, built on
    nanoflann): for every queried point the indices of its [paramK] nearest
    source points.  Arguments: queried points, source points, [paramK],
    leaf size.  Nothing below depends on which indices it returns. *)
Variable k_nearest_neighbours :
  Vec3Mat -> Vec3Mat -> nat -> nat -> list (list nat).

(** [neighbourIndices(i,j)] *)
Definition neighbourIndex (neighbourIndices : list (list nat)) (i j : nat)
  : nat :=
  nth j (nth i neighbourIndices []) 0%nat.

(** [gaussian_smoothing_vector_field]: the new [outSmoothedVectors]. *)
Definition gaussian_smoothing_vector_field
  (inVectors inVectorPositions : Vec3Mat) (inVectorWeights : VecDynFloat)
  (outSmoothedVectors : Vec3Mat) (paramNumNeighbours : nat)
  (paramSigma : float) : Vec3Mat :=
  let numVectors := length inVectorPositions in
  let neighbourIndices :=
    k_nearest_neighbours inVectorPositions inVectorPositions
                         paramNumNeighbours 15%nat in
  for_loop numVectors
    (fun i outSmoothedVectors =>
       let position := row3 inVectorPositions i in
       let gather {A : Type} (f : nat -> A) : list A :=
         map (fun j => f (neighbourIndex neighbourIndices i j))
             (seq 0 paramNumNeighbours) in
       let neighbourPositions := gather (row3 inVectorPositions) in
       let neighbourVectors := gather (row3 inVectors) in
       let neighbourWeights := gather (at_ inVectorWeights) in
       let smoothedVector :=
         gaussian_interpolate_vector_field position neighbourVectors
           neighbourPositions neighbourWeights paramSigma in
       list_set outSmoothedVectors i smoothedVector)
    outSmoothedVectors.

(** The viscous part: the regulated force field. *)
Definition regulate_force_field
  (forceField floatingPositions : Vec3Mat) (inFloatingWeights : VecDynFloat)
  (numVertices paramNumNeighbourDisplacements : nat)
  (paramSigmaSmoothing : float) (paramNumViscousSmoothingIterations : nat)
  : Vec3Mat :=
  snd (repeat_loop paramNumViscousSmoothingIterations
         (fun '(forceField, regulatedForceField) =>
            let regulatedForceField :=
              gaussian_smoothing_vector_field forceField floatingPositions
                inFloatingWeights regulatedForceField
                paramNumNeighbourDisplacements paramSigmaSmoothing in
            (regulatedForceField, regulatedForceField))
         (forceField, Field.Zero numVertices)).

(** The elastic part: [(unregulatedDisplacementField, ioDisplacementField)]
    after the smoothing loop. *)
Definition regulate_displacement_field
  (unregulatedDisplacementField floatingPositions : Vec3Mat)
  (inFloatingWeights : VecDynFloat) (ioDisplacementField : Vec3Mat)
  (paramNumNeighbourDisplacements : nat) (paramSigmaSmoothing : float)
  (paramNumElasticSmoothingIterations : nat) : Vec3Mat * Vec3Mat :=
  repeat_loop paramNumElasticSmoothingIterations
    (fun '(unregulatedDisplacementField, ioDisplacementField) =>
       let ioDisplacementField :=
         gaussian_smoothing_vector_field unregulatedDisplacementField
           floatingPositions inFloatingWeights ioDisplacementField
           paramNumNeighbourDisplacements paramSigmaSmoothing in
       (ioDisplacementField, ioDisplacementField))
    (unregulatedDisplacementField, ioDisplacementField).

(** [ioFloatingPositions.row(i).head(3) += d] *)
Definition displace (ioFloatingPositions : FeatureMat) (i : nat)
  (d : Vec3Float) : FeatureMat :=
  Feature.set_position ioFloatingPositions i
    (Vec3.add (position (Feature.row ioFloatingPositions i)) d).

(** [viscoelastic_transformation]: the pair
    [(ioFloatingPositions, ioDisplacementField)] on return. *)
Definition viscoelastic_transformation
  (ioFloatingPositions inCorrespondingPositions : FeatureMat)
  (inFloatingWeights : VecDynFloat) (ioDisplacementField : Vec3Mat)
  (paramNumNeighbourDisplacements : nat) (paramSigmaSmoothing : float)
  (paramNumViscousSmoothingIterations : nat)
  (paramNumElasticSmoothingIterations : nat) : FeatureMat * Vec3Mat :=
  let numVertices := length ioFloatingPositions in
  let floatingPositions := Feature.leftCols3 ioFloatingPositions in
  let forceField :=
    Field.sub (Feature.leftCols3 inCorrespondingPositions)
              (Feature.leftCols3 ioFloatingPositions) in
  let regulatedForceField :=
    regulate_force_field forceField floatingPositions inFloatingWeights
      numVertices paramNumNeighbourDisplacements paramSigmaSmoothing
      paramNumViscousSmoothingIterations in
  let unregulatedDisplacementField :=
    Field.add ioDisplacementField regulatedForceField in
  let '(unregulatedDisplacementField, ioDisplacementField) :=
    regulate_displacement_field unregulatedDisplacementField
      (Feature.leftCols3 ioFloatingPositions) inFloatingWeights
      ioDisplacementField paramNumNeighbourDisplacements paramSigmaSmoothing
      paramNumElasticSmoothingIterations in
  (for_loop numVertices
     (fun i ioFloatingPositions =>
        displace ioFloatingPositions i (row3 unregulatedDisplacementField i))
     ioFloatingPositions,
   ioDisplacementField).

End Smoothing.

(** ** Small dense linear algebra *)

Module Mat3.

Definition Zero : Mat3Float := mkMat3 Vec3.Zero Vec3.Zero Vec3.Zero.

Definition Identity : Mat3Float :=
  mkMat3 (mkVec3 fone fzero fzero)
         (mkVec3 fzero fone fzero)
         (mkVec3 fzero fzero fone).

Definition add (a b : Mat3Float) : Mat3Float :=
  mkMat3 (Vec3.add (m3r0 a) (m3r0 b))
         (Vec3.add (m3r1 a) (m3r1 b))
         (Vec3.add (m3r2 a) (m3r2 b)).

Definition sub (a b : Mat3Float) : Mat3Float :=
  mkMat3 (Vec3.sub (m3r0 a) (m3r0 b))
         (Vec3.sub (m3r1 a) (m3r1 b))
         (Vec3.sub (m3r2 a) (m3r2 b)).

(** [s * a] *)
Definition scale (s : float) (a : Mat3Float) : Mat3Float :=
  mkMat3 (Vec3.scale s (m3r0 a)) (Vec3.scale s (m3r1 a))
         (Vec3.scale s (m3r2 a)).

(** [a / s] *)
Definition div (a : Mat3Float) (s : float) : Mat3Float :=
  mkMat3 (Vec3.div (m3r0 a) s) (Vec3.div (m3r1 a) s) (Vec3.div (m3r2 a) s).

Definition transpose (a : Mat3Float) : Mat3Float :=
  mkMat3 (mkVec3 (vx (m3r0 a)) (vx (m3r1 a)) (vx (m3r2 a)))
         (mkVec3 (vy (m3r0 a)) (vy (m3r1 a)) (vy (m3r2 a)))
         (mkVec3 (vz (m3r0 a)) (vz (m3r1 a)) (vz (m3r2 a))).

Definition trace (a : Mat3Float) : float :=
  (vx (m3r0 a) + vy (m3r1 a) + vz (m3r2 a))%fl.

(** [u * v.transpose()] *)
Definition outer (u v : Vec3Float) : Mat3Float :=
  mkMat3 (Vec3.scale (vx u) v) (Vec3.scale (vy u) v) (Vec3.scale (vz u) v).

(** [a * v] *)
Definition mulv (a : Mat3Float) (v : Vec3Float) : Vec3Float :=
  mkVec3 (Vec3.dot (m3r0 a) v) (Vec3.dot (m3r1 a) v) (Vec3.dot (m3r2 a) v).

Definition finite (a : Mat3Float) : Prop :=
  Vec3.finite (m3r0 a) /\ Vec3.finite (m3r1 a) /\ Vec3.finite (m3r2 a).

End Mat3.

Module Vec4.

Definition Ones : Vec4Float := mkVec4 fone fone fone fone.

Definition dot (a b : Vec4Float) : float :=
  (q0 a * q0 b + q1 a * q1 b + q2 a * q2 b + q3 a * q3 b)%fl.

(** [s * v] *)
Definition scale (s : float) (v : Vec4Float) : Vec4Float :=
  mkVec4 (s * q0 v) (s * q1 v) (s * q2 v) (s * q3 v).

(** [v[i]] *)
Definition get (v : Vec4Float) (i : nat) : float :=
  match i with
  | 0%nat => q0 v
  | 1%nat => q1 v
  | 2%nat => q2 v
  | 3%nat => q3 v
  | _ => NaN
  end.

(** [v.segment(0, 3)] and the assignment to it. *)
Definition head3 (v : Vec4Float) : Vec3Float := mkVec3 (q0 v) (q1 v) (q2 v).

Definition set_head3 (v : Vec4Float) (p : Vec3Float) : Vec4Float :=
  mkVec4 (vx p) (vy p) (vz p) (q3 v).

End Vec4.

Module Mat4.

Definition Identity : Mat4Float :=
  mkMat4 (mkVec4 fone fzero fzero fzero)
         (mkVec4 fzero fone fzero fzero)
         (mkVec4 fzero fzero fone fzero)
         (mkVec4 fzero fzero fzero fone).

(** [a.col(j)] *)
Definition col (a : Mat4Float) (j : nat) : Vec4Float :=
  mkVec4 (Vec4.get (m4r0 a) j) (Vec4.get (m4r1 a) j)
         (Vec4.get (m4r2 a) j) (Vec4.get (m4r3 a) j).

(** [a * v] *)
Definition mulv (a : Mat4Float) (v : Vec4Float) : Vec4Float :=
  mkVec4 (Vec4.dot (m4r0 a) v) (Vec4.dot (m4r1 a) v)
         (Vec4.dot (m4r2 a) v) (Vec4.dot (m4r3 a) v).

(** [a * b] *)
Definition mul (a b : Mat4Float) : Mat4Float :=
  let rowtimes r :=
    mkVec4 (Vec4.dot r (col b 0)) (Vec4.dot r (col b 1))
           (Vec4.dot r (col b 2)) (Vec4.dot r (col b 3)) in
  mkMat4 (rowtimes (m4r0 a)) (rowtimes (m4r1 a))
         (rowtimes (m4r2 a)) (rowtimes (m4r3 a)).

(** [a.block<3,1>(0,3) = t] *)
Definition set_block_0_3 (a : Mat4Float) (t : Vec3Float) : Mat4Float :=
  let put r x := mkVec4 (q0 r) (q1 r) (q2 r) x in
  mkMat4 (put (m4r0 a) (vx t)) (put (m4r1 a) (vy t))
         (put (m4r2 a) (vz t)) (m4r3 a).

(** [a.block<3,3>(0,0) = m] *)
Definition set_block_0_0 (a : Mat4Float) (m : Mat3Float) : Mat4Float :=
  let put r v := mkVec4 (vx v) (vy v) (vz v) (q3 r) in
  mkMat4 (put (m4r0 a) (m3r0 m)) (put (m4r1 a) (m3r1 m))
         (put (m4r2 a) (m3r2 m)) (m4r3 a).

End Mat4.

(** ** Rigid transformation *)

(** What a [SelfAdjointEigenSolver<Mat4Float>] holds after construction:
    whether [info()] is [Success], [eigenvalues()], and [eigenvectors()]
    (whose columns are the eigenvectors). *)
Record EigenVectorDecomposer : Type :=
  mkDecomposer { info_success : bool;
                 eigenvalues : Vec4Float;
                 eigenvectors : Mat4Float }.

Section Rigid.

(** The constructor of Eigen's self-adjoint eigensolver. *)
Variable decompose : Mat4Float -> EigenVectorDecomposer.

(** Step 0: [(transposed, floatingPositions, correspondingPositions)],
    the position matrices by columns. *)
Definition rigid_positions (ioFeatures inCorrespondingFeatures : FeatureMat)
  : bool * Vec3Mat * Vec3Mat :=
  let numVertices := length ioFeatures in
  let numFeatures := NUM_FEATURES in
  if (numFeatures <? numVertices)%nat && (numFeatures =? NUM_FEATURES)%nat
  then (true, Feature.leftCols3 ioFeatures,
        Feature.leftCols3 inCorrespondingFeatures)
  else (false, Field.Zero numVertices, Field.Zero numVertices).

(** Step 1, the accumulation:
    [(floatingCentroid, correspondingCentroid, sumWeights)] before the
    division. *)
Definition weighted_sums (floatingPositions correspondingPositions : Vec3Mat)
  (inWeights : VecDynFloat) (numVertices : nat)
  : Vec3Float * Vec3Float * float :=
  for_loop numVertices
    (fun i '(floatingCentroid, correspondingCentroid, sumWeights) =>
       (Vec3.add floatingCentroid
                 (Vec3.scale (at_ inWeights i) (row3 floatingPositions i)),
        Vec3.add correspondingCentroid
                 (Vec3.scale (at_ inWeights i) (row3 correspondingPositions i)),
        (sumWeights + at_ inWeights i)%fl))
    (Vec3.Zero, Vec3.Zero, fzero).

(** Step 2. *)
Definition cross_variance (floatingPositions correspondingPositions : Vec3Mat)
  (inWeights : VecDynFloat) (numVertices : nat)
  (floatingCentroid correspondingCentroid : Vec3Float) (sumWeights : float)
  : Mat3Float :=
  let crossVarianceMatrix :=
    for_loop numVertices
      (fun i crossVarianceMatrix =>
         Mat3.add crossVarianceMatrix
           (Mat3.outer
              (Vec3.scale (at_ inWeights i) (row3 floatingPositions i))
              (row3 correspondingPositions i)))
      Mat3.Zero in
  Mat3.sub (Mat3.div crossVarianceMatrix sumWeights)
           (Mat3.outer floatingCentroid correspondingCentroid).

(** Steps 3 to 5. *)
Definition build_Q (crossVarianceMatrix : Mat3Float) : Mat4Float :=
  let antiSymmetricMatrix :=
    Mat3.sub crossVarianceMatrix (Mat3.transpose crossVarianceMatrix) in
  let delta :=
    mkVec3 (vz (m3r1 antiSymmetricMatrix))
           (vx (m3r2 antiSymmetricMatrix))
           (vy (m3r0 antiSymmetricMatrix)) in
  let block :=
    Mat3.sub (Mat3.add crossVarianceMatrix
                       (Mat3.transpose crossVarianceMatrix))
             (Mat3.scale (Mat3.trace crossVarianceMatrix) Mat3.Identity) in
  mkMat4
    (mkVec4 (Mat3.trace crossVarianceMatrix) (vx delta) (vy delta) (vz delta))
    (mkVec4 (vx delta) (vx (m3r0 block)) (vy (m3r0 block)) (vz (m3r0 block)))
    (mkVec4 (vy delta) (vx (m3r1 block)) (vy (m3r1 block)) (vz (m3r1 block)))
    (mkVec4 (vz delta) (vx (m3r2 block)) (vy (m3r2 block)) (vz (m3r2 block))).

(** Step 6: the column of the largest eigenvalue above zero. *)
Definition select_quaternion (decomposer : EigenVectorDecomposer)
  : Vec4Float :=
  let '(indexMaxVal, maxEigenValue) :=
    for_loop 4
      (fun i '(indexMaxVal, maxEigenValue) =>
         if fgt (Vec4.get (eigenvalues decomposer) i) maxEigenValue
         then (i, Vec4.get (eigenvalues decomposer) i)
         else (indexMaxVal, maxEigenValue))
      (0%nat, fzero) in
  Mat4.col (eigenvectors decomposer) indexMaxVal.

(** Step 7. *)
Definition rotation_matrix (rotQuat : Vec4Float) : Mat3Float :=
  let a := q0 rotQuat in
  let b := q1 rotQuat in
  let c := q2 rotQuat in
  let d := q3 rotQuat in
  (mkMat3
     (mkVec3 (a * a + b * b - c * c - d * d)
             (Fin 2 * (b * c - a * d))
             (Fin 2 * (b * d + a * c)))
     (mkVec3 (Fin 2 * (b * c + a * d))
             (a * a + c * c - b * b - d * d)
             (Fin 2 * (c * d - a * b)))
     (mkVec3 (Fin 2 * (b * d - a * c))
             (Fin 2 * (c * d + a * b))
             (a * a + d * d - b * b - c * c)))%fl.

(** Step 8. *)
Definition estimate_scale (paramScaling : bool) (rotMatTemp : Mat3Float)
  (floatingPositions correspondingPositions : Vec3Mat)
  (inWeights : VecDynFloat) (numVertices : nat)
  (floatingCentroid correspondingCentroid : Vec3Float) : float :=
  if paramScaling then
    let '(numerator, denominator) :=
      for_loop numVertices
        (fun i '(numerator, denominator) =>
           let newFloatingPos :=
             Mat3.mulv rotMatTemp
               (Vec3.sub (row3 floatingPositions i) floatingCentroid) in
           let newCorrespondingPos :=
             Vec3.sub (row3 correspondingPositions i) correspondingCentroid in
           ((numerator +
             Vec3.dot (Vec3.scale (at_ inWeights i) newCorrespondingPos)
                      newFloatingPos)%fl,
            (denominator +
             Vec3.dot (Vec3.scale (at_ inWeights i) newFloatingPos)
                      newFloatingPos)%fl))
        (fzero, fzero) in
    (numerator / denominator)%fl
  else fone.

(** Step 9. *)
Definition rigid_translation (correspondingCentroid : Vec3Float)
  (scaleFactor : float) (rotMatTemp : Mat3Float)
  (floatingCentroid : Vec3Float) : Vec3Float :=
  Vec3.sub correspondingCentroid
           (Mat3.mulv (Mat3.scale scaleFactor rotMatTemp) floatingCentroid).

(** Step 10. *)
Definition transformation_matrix (scaleFactor : float)
  (rotMatTemp : Mat3Float) (translation : Vec3Float) : Mat4Float :=
  let translationMatrix := Mat4.set_block_0_3 Mat4.Identity translation in
  let rotationMatrix :=
    Mat4.set_block_0_0 Mat4.Identity (Mat3.scale scaleFactor rotMatTemp) in
  Mat4.mul rotationMatrix translationMatrix.

(** The application loop: [position4d] is declared once, before the loop,
    and carried from one vertex to the next. *)
Definition apply_transformation (transformationMatrix : Mat4Float)
  (floatingPositions : Vec3Mat) (numVertices : nat) (ioFeatures : FeatureMat)
  : FeatureMat :=
  snd (for_loop numVertices
         (fun i '(position4d, ioFeatures) =>
            let position4d :=
              Vec4.set_head3 position4d (row3 floatingPositions i) in
            let position4d := Mat4.mulv transformationMatrix position4d in
            (position4d,
             Feature.set_position ioFeatures i (Vec4.head3 position4d)))
         (Vec4.Ones, ioFeatures)).

(** What steps 0 to 9 leave behind: whether the input was transposed,
    whether the eigensolver reported success, and the quantities the
    transformation is assembled from. *)
Record RigidEstimate : Type :=
  mkEstimate { est_transposed : bool;
               est_decomposed : bool;
               est_floatingCentroid : Vec3Float;
               est_correspondingCentroid : Vec3Float;
               est_sumWeights : float;
               est_rotation : Mat3Float;
               est_scale : float;
               est_translation : Vec3Float }.

Definition rigid_estimate (ioFeatures inCorrespondingFeatures : FeatureMat)
  (inWeights : VecDynFloat) (paramScaling : bool) : RigidEstimate :=
  let numVertices := length ioFeatures in
  let '(transposed, floatingPositions, correspondingPositions) :=
    rigid_positions ioFeatures inCorrespondingFeatures in
  let '(floatingSum, correspondingSum, sumWeights) :=
    weighted_sums floatingPositions correspondingPositions inWeights
                  numVertices in
  let floatingCentroid := Vec3.div floatingSum sumWeights in
  let correspondingCentroid := Vec3.div correspondingSum sumWeights in
  let crossVarianceMatrix :=
    cross_variance floatingPositions correspondingPositions inWeights
                   numVertices floatingCentroid correspondingCentroid
                   sumWeights in
  let decomposer := decompose (build_Q crossVarianceMatrix) in
  let rotMatTemp := rotation_matrix (select_quaternion decomposer) in
  let scaleFactor :=
    estimate_scale paramScaling rotMatTemp floatingPositions
                   correspondingPositions inWeights numVertices
                   floatingCentroid correspondingCentroid in
  mkEstimate transposed (info_success decomposer)
             floatingCentroid correspondingCentroid sumWeights rotMatTemp
             scaleFactor
             (rigid_translation correspondingCentroid scaleFactor rotMatTemp
                                floatingCentroid).

(** The messages [rigid_transformation] writes to [cerr]: the warning on
    the shape of the input and the failure of the eigensolver.  Neither
    stops the function. *)
Definition rigid_messages (e : RigidEstimate) : list Diagnostic :=
  (if est_transposed e then [] else [RigidInputShapeWarning]) ++
  (if est_decomposed e then [] else [EigenDecomposerFailed]).

(** [rigid_transformation]: the messages written and the new [ioFeatures].
    No path returns early: the application loop always runs. *)
Definition rigid_transformation (ioFeatures inCorrespondingFeatures : FeatureMat)
  (inWeights : VecDynFloat) (paramScaling : bool)
  : list Diagnostic * FeatureMat :=
  let numVertices := length ioFeatures in
  let floatingPositions :=
    snd (fst (rigid_positions ioFeatures inCorrespondingFeatures)) in
  let e :=
    rigid_estimate ioFeatures inCorrespondingFeatures inWeights paramScaling in
  let transformationMatrix :=
    transformation_matrix (est_scale e) (est_rotation e) (est_translation e) in
  (rigid_messages e,
   apply_transformation transformationMatrix floatingPositions numVertices
                        ioFeatures).

End Rigid.

(** ** Notions the further properties are stated with *)

(** The transpose and the trace of a 4x4 matrix. *)
Definition transpose4 (a : Mat4Float) : Mat4Float :=
  mkMat4 (Mat4.col a 0) (Mat4.col a 1) (Mat4.col a 2) (Mat4.col a 3).

Definition trace4 (a : Mat4Float) : float :=
  (q0 (m4r0 a) + q1 (m4r1 a) + q2 (m4r2 a) + q3 (m4r3 a))%fl.

(** A vector and a quaternion of finite components. *)
Definition vec4 (a b c d : R) : Vec4Float :=
  mkVec4 (Fin a) (Fin b) (Fin c) (Fin d).

Definition vec3 (x y z : R) : Vec3Float := mkVec3 (Fin x) (Fin y) (Fin z).

(** The coordinates of a vector. *)
Definition coordinate (c : Vec3Float -> float) : Prop :=
  c = vx \/ c = vy \/ c = vz.

Section SmoothedRow.

Variable k_nearest_neighbours :
  Vec3Mat -> Vec3Mat -> nat -> nat -> list (list nat).

(** The vector one iteration of the smoothing loop computes for vertex
    [i]: the Gaussian average, at the position of [i], over the neighbours
    gathered for [i]. *)
Definition smoothed_row (inVectors inVectorPositions : Vec3Mat)
  (inVectorWeights : VecDynFloat) (paramNumNeighbours : nat)
  (paramSigma : float) (i : nat) : Vec3Float :=
  let neighbourIndices :=
    k_nearest_neighbours inVectorPositions inVectorPositions
                         paramNumNeighbours 15%nat in
  let gather {A : Type} (f : nat -> A) : list A :=
    map (fun j => f (neighbourIndex neighbourIndices i j))
        (seq 0 paramNumNeighbours) in
  gaussian_interpolate_vector_field (row3 inVectorPositions i)
    (gather (row3 inVectors)) (gather (row3 inVectorPositions))
    (gather (at_ inVectorWeights)) paramSigma.

(** The neighbour search returned, for each of the first [n] vertices,
    [k] indices below [n]. *)
Definition neighbours_in_range (positions : Vec3Mat) (k n : nat) : Prop :=
  forall i j, (i < n)%nat -> (j < k)%nat ->
    (neighbourIndex (k_nearest_neighbours positions positions k 15%nat) i j
     < n)%nat.

End SmoothedRow.

(** The mass of a row of affinities, and the part of it that falls on
    targets by the amount their flag is below one (for binary flags: the
    mass on the targets flagged zero). *)
Definition affinity_mass (arow : list R) : R := fold_left Rplus arow 0.

Definition zero_flag_mass (arow flags : list R) : R :=
  fold_left (fun acc p => acc + fst p * (1 - snd p)) (combine arow flags) 0.

(** The affinity row of [n] entries that puts all its mass on target [j]. *)
Definition one_hot (n j : nat) : list float :=
  list_set (repeat (Fin 0) n) j (Fin 1).

Definition feature_finite (f : FeatureVec) : Prop :=
  Vec3.finite (position f) /\ Vec3.finite (normal f).

(** The weights [ws'] are the weights [ws], each times [c]. *)
Definition scaled_weights (c : R) (ws ws' : VecDynFloat) : Prop :=
  forall i, at_ ws' i = fmul (Fin c) (at_ ws i).

(** ** Worked inputs *)

Module Samples.

(** A forward affinity of two floating and one target vertex, and the
    backward affinity of the transposed shape. *)
Definition affinity_fw : SparseMat := mkSparse 2 1 (fun _ _ => Fin 1).
Definition affinity_bw : SparseMat := mkSparse 1 2 (fun _ _ => Fin 1).

(** Two target vertices, the second one flagged invalid, and the affinity of
    three floating vertices to them; the third floating vertex draws half of
    its mass from each target.  Every row of the affinity sums to one. *)
Definition targetFeatures : FeatureMat :=
  [ mkFeature (mkVec3 (Fin 0) (Fin 0) (Fin 0)) (mkVec3 (Fin 0) (Fin 0) (Fin 1));
    mkFeature (mkVec3 (Fin 1) (Fin 0) (Fin 0)) (mkVec3 (Fin 0) (Fin 0) (Fin 1)) ].

Definition targetFlags : VecDynFloat := [Fin 1; Fin 0].

Definition affinity : MatDynFloat :=
  [ [Fin 1; Fin 0]; [Fin 0; Fin 1]; [Fin 0.5; Fin 0.5] ].

(** Two opposed vectors with weights 1 and 2, and two vectors with unit
    weights. *)
Definition opposedVectors : Vec3Mat :=
  [ mkVec3 (Fin 1) (Fin 0) (Fin 0); mkVec3 (Fin (-1)) (Fin 0) (Fin 0) ].

Definition opposedWeights : VecDynFloat := [Fin 1; Fin 2].

Definition twoVectors : Vec3Mat :=
  [ mkVec3 (Fin 1) (Fin 0) (Fin 0); mkVec3 (Fin 3) (Fin 0) (Fin 0) ].

Definition unitWeights : VecDynFloat := [Fin 1; Fin 1].

(** The neighbour search on a cloud of one point: every neighbour of every
    queried point is point 0. *)
Definition one_point_neighbours
  : Vec3Mat -> Vec3Mat -> nat -> nat -> list (list nat) :=
  fun queried _ paramK _ => map (fun _ => repeat 0%nat paramK) queried.

(** One vertex at the origin, its correspondence one unit along x. *)
Definition origin : Vec3Float := mkVec3 (Fin 0) (Fin 0) (Fin 0).
Definition unit_x : Vec3Float := mkVec3 (Fin 1) (Fin 0) (Fin 0).
Definition up : Vec3Float := mkVec3 (Fin 0) (Fin 0) (Fin 1).

Definition oneFloating : FeatureMat := [mkFeature origin up].
Definition oneCorresponding : FeatureMat := [mkFeature unit_x up].

(** Seven floating vertices on the coordinate axes, centred at the origin,
    and their correspondences: each floating position turned by half a turn
    about the z axis, then shifted by one unit along x.  The first floating
    normal is (2, 0, 0). *)
Definition vec (x y z : R) : Vec3Float := mkVec3 (Fin x) (Fin y) (Fin z).

Definition floating7 : FeatureMat :=
  [ mkFeature (vec 1 0 0) (vec 2 0 0);
    mkFeature (vec (-1) 0 0) up;
    mkFeature (vec 0 2 0) up;
    mkFeature (vec 0 (-2) 0) up;
    mkFeature (vec 0 0 3) up;
    mkFeature (vec 0 0 (-3)) up;
    mkFeature (vec 0 0 0) up ].

Definition corresponding7 : FeatureMat :=
  [ mkFeature (vec 0 0 0) up;
    mkFeature (vec 2 0 0) up;
    mkFeature (vec 1 (-2) 0) up;
    mkFeature (vec 1 2 0) up;
    mkFeature (vec 1 0 3) up;
    mkFeature (vec 1 0 (-3)) up;
    mkFeature (vec 1 0 0) up ].

Definition weights7 : VecDynFloat := repeat (Fin 1) 7.

(** The matrix Q of that input: diagonal, with entries 8/7, -12/7, -24/7
    and 4. *)
Definition Q7 : Mat4Float :=
  mkMat4 (mkVec4 (Fin (8 / 7)) (Fin 0) (Fin 0) (Fin 0))
         (mkVec4 (Fin 0) (Fin (-12 / 7)) (Fin 0) (Fin 0))
         (mkVec4 (Fin 0) (Fin 0) (Fin (-24 / 7)) (Fin 0))
         (mkVec4 (Fin 0) (Fin 0) (Fin 0) (Fin 4)).

(** The eigendecomposition of [Q7], eigenvalues in increasing order as
    Eigen returns them: -24/7, -12/7, 8/7, 4, with the unit eigenvectors
    e2, e1, e0, e3 as columns. *)
Definition decomposition7 : EigenVectorDecomposer :=
  mkDecomposer true
    (mkVec4 (Fin (-24 / 7)) (Fin (-12 / 7)) (Fin (8 / 7)) (Fin 4))
    (mkMat4 (mkVec4 (Fin 0) (Fin 0) (Fin 1) (Fin 0))
            (mkVec4 (Fin 0) (Fin 1) (Fin 0) (Fin 0))
            (mkVec4 (Fin 1) (Fin 0) (Fin 0) (Fin 0))
            (mkVec4 (Fin 0) (Fin 0) (Fin 0) (Fin 1))).

(** An eigensolver that is right on [Q7]. *)
Definition decompose7 : Mat4Float -> EigenVectorDecomposer :=
  fun _ => decomposition7.

(** An eigensolver that reports failure and leaves nothing finite. *)
Definition decompose_failed : Mat4Float -> EigenVectorDecomposer :=
  fun _ =>
    let nans := mkVec4 NaN NaN NaN NaN in
    mkDecomposer false nans (mkMat4 nans nans nans nans).

Definition zeroWeights7 : VecDynFloat := repeat (Fin 0) 7.

End Samples.

(** ** Further worked neighbourhoods *)

Module Neighbourhoods.

(** A neighbour search that returns, for every queried point, its own index
    [paramK] times: each vertex is its only neighbour. *)
Definition own_index_neighbours
  : Vec3Mat -> Vec3Mat -> nat -> nat -> list (list nat) :=
  fun queried _ paramK _ =>
    map (fun i => repeat i paramK) (seq 0 (length queried)).

End Neighbourhoods.

(** * Properties *)

(** ** Arithmetic of the idealised scalars *)

Lemma fdiv_fin (x y : R) : y <> 0 -> fdiv (Fin x) (Fin y) = Fin (x / y).
Proof.
  intros Hy. unfold fdiv. destruct (Req_dec_T y 0) as [E | _]; [contradiction | reflexivity].
Qed.

Lemma fdiv_zero (a : float) : fdiv a (Fin 0) = NaN.
Proof.
  destruct a as [x |]; simpl; [| reflexivity].
  destruct (Req_dec_T 0 0) as [_ | N]; [reflexivity | contradiction N; reflexivity].
Qed.

Lemma fdiv_nan_r (a : float) : fdiv a NaN = NaN.
Proof. destruct a; reflexivity. Qed.

Lemma fadd_nan_r (a : float) : fadd a NaN = NaN.
Proof. destruct a; reflexivity. Qed.

Lemma fsub_nan_r (a : float) : fsub a NaN = NaN.
Proof. destruct a; reflexivity. Qed.

Lemma fmul_nan_r (a : float) : fmul a NaN = NaN.
Proof. destruct a; reflexivity. Qed.

Lemma fgt_fin_true (x y : R) : y < x -> fgt (Fin x) (Fin y) = true.
Proof.
  intros H. unfold fgt. destruct (Rlt_dec y x); [reflexivity | contradiction].
Qed.

Lemma fgt_fin_false (x y : R) : x <= y -> fgt (Fin x) (Fin y) = false.
Proof.
  intros H. unfold fgt. destruct (Rlt_dec y x); [lra | reflexivity].
Qed.

Lemma fgt_fin_iff (x y : R) : fgt (Fin x) (Fin y) = true <-> y < x.
Proof.
  unfold fgt. destruct (Rlt_dec y x); split; intros; try assumption;
    try reflexivity; try discriminate; contradiction.
Qed.

Lemma fadd_fin_inv (a b : float) (s : R) :
  fadd a b = Fin s -> exists x y, a = Fin x /\ b = Fin y /\ s = x + y.
Proof.
  destruct a as [x |], b as [y |]; simpl; intros H; try discriminate.
  injection H as <-. exists x, y. auto.
Qed.

(** ** Loops and sums *)

Lemma for_loop_S {S : Type} (n : nat) (body : nat -> S -> S) (s : S) :
  for_loop (Datatypes.S n) body s = body n (for_loop n body s).
Proof.
  unfold for_loop. rewrite seq_S, fold_left_app. reflexivity.
Qed.

(** An invariant kept by every iteration holds when the loop ends. *)
Lemma for_loop_invariant {S : Type} (P : S -> Prop) (n : nat)
  (body : nat -> S -> S) (s : S) :
  P s -> (forall i x, (i < n)%nat -> P x -> P (body i x)) ->
  P (for_loop n body s).
Proof.
  intros H0 Hstep. induction n as [| n IH].
  - exact H0.
  - rewrite for_loop_S. apply Hstep; [lia |]. apply IH.
    intros i x Hi. apply Hstep. lia.
Qed.

Lemma rsum_S (f : nat -> R) (n : nat) : rsum f (S n) = rsum f n + f n.
Proof. unfold rsum. rewrite for_loop_S. reflexivity. Qed.

Lemma rsum_scale (f : nat -> R) (c : R) (n : nat) :
  rsum (fun j => c * f j) n = c * rsum f n.
Proof.
  induction n as [| n IH].
  - unfold rsum, for_loop. simpl. lra.
  - rewrite !rsum_S, IH. lra.
Qed.

Lemma rsum_ext (f g : nat -> R) (n : nat) :
  (forall j, (j < n)%nat -> f j = g j) -> rsum f n = rsum g n.
Proof.
  intros H. induction n as [| n IH]; [reflexivity |].
  rewrite !rsum_S, IH, H by (intros; try apply H; lia). reflexivity.
Qed.

Lemma rsum_nonneg (f : nat -> R) (n : nat) :
  (forall j, (j < n)%nat -> 0 <= f j) -> 0 <= rsum f n.
Proof.
  intros H. induction n as [| n IH].
  - unfold rsum, for_loop. simpl. lra.
  - rewrite rsum_S. specialize (H n (Nat.lt_succ_diag_r n)) as Hn.
    assert (0 <= rsum f n) by (apply IH; intros; apply H; lia). lra.
Qed.

Lemma rsum_pos (f : nat -> R) (n j : nat) :
  (forall k, (k < n)%nat -> 0 <= f k) -> (j < n)%nat -> 0 < f j ->
  0 < rsum f n.
Proof.
  intros Hnn. induction n as [| n IH]; intros Hj Hpos; [lia |].
  rewrite rsum_S.
  assert (0 <= rsum f n) by (apply rsum_nonneg; intros; apply Hnn; lia).
  assert (0 <= f n) by (apply Hnn; lia).
  destruct (Nat.eq_dec j n) as [-> | Hne]; [lra |].
  assert (0 < rsum f n) by (apply IH; [intros; apply Hnn; lia | lia | exact Hpos]).
  lra.
Qed.

(** A loop that adds finite terms computes their real sum. *)
Lemma fsum_fin (f : nat -> float) (g : nat -> R) (n : nat) :
  (forall j, (j < n)%nat -> f j = Fin (g j)) ->
  for_loop n (fun j acc => fadd acc (f j)) fzero = Fin (rsum g n).
Proof.
  intros H. induction n as [| n IH]; [reflexivity |].
  rewrite for_loop_S, rsum_S, IH, H by (intros; try apply H; lia).
  reflexivity.
Qed.

(** A floating sum is finite only if every term is. *)
Lemma fsum_fin_inv (f : nat -> float) (n : nat) (s : R) :
  for_loop n (fun j acc => fadd acc (f j)) fzero = Fin s ->
  forall j, (j < n)%nat -> is_finite (f j).
Proof.
  revert s. induction n as [| n IH]; intros s H j Hj; [lia |].
  rewrite for_loop_S in H. apply fadd_fin_inv in H as (x & y & Hx & Hy & _).
  destruct (Nat.eq_dec j n) as [-> | Hne].
  - exists y. exact Hy.
  - apply (IH x Hx). lia.
Qed.

(** ** Evaluating scalar expressions *)

(** Records the positivity of every exponential in the goal. *)
Ltac exp_positive :=
  repeat match goal with
         | |- context [exp ?x] =>
             lazymatch goal with
             | _ : 0 < exp x |- _ => fail
             | _ => pose proof (exp_pos x)
             end
         end.

(** Carries out the scalar operations whose operands are finite. *)
Ltac float_eval :=
  repeat (first [ rewrite fdiv_fin by (exp_positive; lra)
                | rewrite fgt_fin_true by lra
                | rewrite fgt_fin_false by lra
                | progress cbn [fexp fmul fadd fsub fzero fone] ]).

(** Splits an equation between structures of finite scalars into the
    equations between their real values and runs [tac] on each. *)
Ltac fin_goals tac :=
  repeat match goal with
         | |- Fin _ = Fin _ => apply (f_equal Fin); tac
         | |- @eq R _ _ => fail 1
         | |- _ => progress f_equal
         end.


(** ** Fusing affinities *)

Lemma is_finite_fval (a : float) : is_finite a -> a = Fin (fval a).
Proof. intros [r ->]. reflexivity. Qed.

Lemma row_sum_fin (a : SparseMat) (i : nat) (s : R) :
  Sparse.row_sum a i = Fin s ->
  (forall j, (j < cols a)%nat -> coeff a i j = Fin (fval (coeff a i j))) /\
  s = rsum (fun j => fval (coeff a i j)) (cols a).
Proof.
  intros H.
  assert (Hfin : forall j, (j < cols a)%nat ->
                           coeff a i j = Fin (fval (coeff a i j))).
  { intros j Hj. apply is_finite_fval.
    exact (fsum_fin_inv (coeff a i) (cols a) s H j Hj). }
  split; [exact Hfin |].
  unfold Sparse.row_sum in H.
  rewrite (fsum_fin (coeff a i) (fun j => fval (coeff a i j))) in H
    by exact Hfin.
  injection H as <-. reflexivity.
Qed.

(** Dividing a row by its finite, non-zero sum leaves a row that sums to one. *)
Lemma normalize_row_stochastic (a : SparseMat) (i : nat) (s : R) :
  Sparse.row_sum a i = Fin s -> s <> 0 ->
  Sparse.row_stochastic (normalize_sparse_matrix a) i.
Proof.
  intros Hs Hnz. destruct (row_sum_fin a i s Hs) as [Hfin Hsum].
  unfold Sparse.row_stochastic, Sparse.row_sum. simpl cols.
  rewrite (fsum_fin _ (fun j => / s * fval (coeff a i j))).
  - rewrite rsum_scale, <- Hsum. f_equal. field. exact Hnz.
  - intros j Hj. simpl. rewrite Hs, (Hfin j Hj), fdiv_fin by exact Hnz.
    cbn [fval]. f_equal. field. exact Hnz.
Qed.

(** Scaling a matrix scales each of its finite row sums. *)
Lemma row_sum_scale (a : SparseMat) (c : R) (i : nat) (s : R) :
  Sparse.row_sum a i = Fin s ->
  Sparse.row_sum (Sparse.scale (Fin c) a) i = Fin (c * s).
Proof.
  intros Hs. destruct (row_sum_fin a i s Hs) as [Hfin Hsum].
  unfold Sparse.row_sum. simpl cols.
  rewrite (fsum_fin _ (fun j => c * fval (coeff a i j))).
  - rewrite rsum_scale, <- Hsum. reflexivity.
  - intros j Hj. simpl. rewrite (Hfin j Hj). reflexivity.
Qed.

(** C9.  The size check of [fuse_affinities] reads [rows()] for all four
    sizes, so it fires exactly when the two row counts differ: a pair of
    correctly transposed shapes [N x N_t] and [N_t x N] with [N <> N_t] is
    reported, and a pair with equal row counts is never reported, whatever
    its column counts are. *)
Theorem fuse_affinities_size_check (A1 A2 : SparseMat) :
  (fuse_sizes_wrong A1 A2 = true <-> rows A1 <> rows A2) /\
  (fst (fuse_affinities A1 A2) =
     if (rows A1 =? rows A2)%nat then [] else [FuseSizesWrong]) /\
  (cols A1 = rows A2 -> cols A2 = rows A1 -> rows A1 <> cols A1 ->
   fst (fuse_affinities A1 A2) = [FuseSizesWrong]) /\
  (rows A1 = rows A2 -> fst (fuse_affinities A1 A2) = []).
Proof.
  assert (Hb : fuse_sizes_wrong A1 A2 = negb (rows A1 =? rows A2)%nat).
  { unfold fuse_sizes_wrong. rewrite Nat.eqb_refl. reflexivity. }
  assert (Hm : fst (fuse_affinities A1 A2) =
               if (rows A1 =? rows A2)%nat then [] else [FuseSizesWrong]).
  { unfold fuse_affinities. simpl fst. rewrite Hb.
    destruct (rows A1 =? rows A2)%nat; reflexivity. }
  repeat split.
  - rewrite Hb. intros H E. rewrite <- Nat.eqb_eq in E. rewrite E in H.
    discriminate.
  - rewrite Hb. intros H. apply Nat.eqb_neq in H. rewrite H. reflexivity.
  - exact Hm.
  - intros Hc _ Hne. rewrite Hm.
    destruct (Nat.eqb_spec (rows A1) (rows A2)) as [E | _]; [| reflexivity].
    congruence.
  - intros E. rewrite Hm. apply Nat.eqb_eq in E. rewrite E. reflexivity.
Qed.

(** C4.  For affinities whose summed rows have a finite, non-zero sum, the
    code's fusion (add the transposed backward affinity, then normalise the
    rows) yields the matrix of the spec's formulation (halve the sum, then
    normalise the rows), and every row of it sums to one: the factor 0.5
    cancels in the normalisation. *)
Theorem fuse_affinities_refines_spec (A_fw A_bw : SparseMat) :
  (forall i, (i < rows A_fw)%nat ->
     exists s,
       Sparse.row_sum (Sparse.add_assign A_fw (Sparse.transpose A_bw)) i
       = Fin s /\ s <> 0) ->
  Sparse.same (snd (fuse_affinities A_fw A_bw))
              (fuse_affinities_spec A_fw A_bw) /\
  forall i, (i < rows A_fw)%nat ->
    Sparse.row_stochastic (fuse_affinities_spec A_fw A_bw) i.
Proof.
  intros H. set (S := Sparse.add_assign A_fw (Sparse.transpose A_bw)) in *.
  split.
  - unfold Sparse.same, fuse_affinities, fuse_affinities_spec. fold S.
    cbn [snd normalize_sparse_matrix rows cols coeff Sparse.scale].
    repeat split. intros i j Hi Hj.
    destruct (H i Hi) as (s & Hs & Hnz).
    destruct (row_sum_fin S i s Hs) as [Hfin _].
    change (mkSparse (rows S) (cols S) (fun i0 j0 => (Fin 0.5 * coeff S i0 j0)%fl))
      with (Sparse.scale (Fin 0.5) S).
    rewrite (row_sum_scale S 0.5 i s Hs), Hs.
    rewrite (Hfin j Hj). cbn [fmul].
    rewrite !fdiv_fin by lra. f_equal. field. split; [exact Hnz | lra].
  - intros i Hi. destruct (H i Hi) as (s & Hs & Hnz).
    unfold fuse_affinities_spec. fold S.
    apply (normalize_row_stochastic _ i (0.5 * s)).
    + apply row_sum_scale. exact Hs.
    + lra.
Qed.

Lemma fuse_affinities_refines_spec_witness :
  Sparse.same (snd (fuse_affinities Samples.affinity_fw Samples.affinity_bw))
              (fuse_affinities_spec Samples.affinity_fw Samples.affinity_bw) /\
  forall i, (i < rows Samples.affinity_fw)%nat ->
    Sparse.row_stochastic
      (fuse_affinities_spec Samples.affinity_fw Samples.affinity_bw) i.
Proof.
  apply (fuse_affinities_refines_spec Samples.affinity_fw Samples.affinity_bw).
  intros i _. exists (0 + (1 + 1)). split; [reflexivity | lra].
Defined.

Lemma add_assign_nonneg (a b : SparseMat) :
  Sparse.nonneg a -> Sparse.nonneg b ->
  Sparse.nonneg (Sparse.add_assign a (Sparse.transpose b)).
Proof.
  intros Ha Hb i j. destruct (Ha i j) as (x & Hx & Hx0).
  destruct (Hb j i) as (y & Hy & Hy0). exists (x + y). simpl.
  rewrite Hx, Hy. split; [reflexivity | lra].
Qed.

(** A non-negative row with a non-zero coefficient has a positive sum. *)
Lemma nonneg_row_sum_pos (a : SparseMat) (i j : nat) :
  Sparse.nonneg a -> (j < cols a)%nat -> coeff a i j <> Fin 0 ->
  exists s, Sparse.row_sum a i = Fin s /\ 0 < s.
Proof.
  intros Ha Hj Hnz. exists (rsum (fun k => fval (coeff a i k)) (cols a)).
  split.
  - unfold Sparse.row_sum. apply (fsum_fin (coeff a i)).
    intros k _. destruct (Ha i k) as (r & -> & _). reflexivity.
  - apply (rsum_pos _ _ j).
    + intros k _. destruct (Ha i k) as (r & -> & Hr). exact Hr.
    + exact Hj.
    + destruct (Ha i j) as (r & Hr & Hr0). rewrite Hr in Hnz |- *.
      cbn [fval]. destruct (Req_dec_T r 0) as [-> | Hne]; [congruence | lra].
Qed.

(** C6.  The matrix [fuse_affinities] leaves in [ioAffinity1] is
    row-stochastic: for affinities (finite, non-negative coefficients), every
    row of the summed matrix that is not the zero row comes out with sum
    exactly one, hence within the spec's tolerance 1e-6 of one. *)
Theorem fuse_affinities_row_stochastic (A1 A2 : SparseMat) (i : nat) :
  Sparse.nonneg A1 -> Sparse.nonneg A2 ->
  (exists j, (j < cols A1)%nat /\
     coeff (Sparse.add_assign A1 (Sparse.transpose A2)) i j <> Fin 0) ->
  Sparse.row_stochastic (snd (fuse_affinities A1 A2)) i /\
  Sparse.row_sums_to_one_within (snd (fuse_affinities A1 A2)) i 1e-6.
Proof.
  intros H1 H2 (j & Hj & Hnz).
  destruct (nonneg_row_sum_pos _ i j (add_assign_nonneg A1 A2 H1 H2) Hj Hnz)
    as (s & Hs & Hpos).
  assert (Hone : Sparse.row_stochastic (snd (fuse_affinities A1 A2)) i).
  { unfold fuse_affinities. cbn [snd].
    apply (normalize_row_stochastic _ i s Hs). lra. }
  split; [exact Hone |]. exists 1. split; [exact Hone |].
  replace (1 - 1) with 0 by lra. rewrite Rabs_R0. lra.
Qed.

Lemma fuse_affinities_row_stochastic_witness :
  Sparse.row_stochastic
    (snd (fuse_affinities Samples.affinity_fw Samples.affinity_bw)) 0 /\
  Sparse.row_sums_to_one_within
    (snd (fuse_affinities Samples.affinity_fw Samples.affinity_bw)) 0 1e-6.
Proof.
  apply (fuse_affinities_row_stochastic Samples.affinity_fw Samples.affinity_bw 0).
  - intros i j. exists 1. split; [reflexivity | lra].
  - intros i j. exists 1. split; [reflexivity | lra].
  - exists 0%nat. split; [simpl; lia |].
    simpl. intros E. injection E as E. lra.
Defined.

(** ** Flag rounding *)

Lemma list_set_length {A : Type} (l : list A) (i : nat) (v : A) :
  length (list_set l i v) = length l.
Proof.
  revert i. induction l as [| h t IH]; intros [| i]; simpl; auto.
Qed.

Lemma nth_list_set_eq {A : Type} (l : list A) (i : nat) (v d : A) :
  (i < length l)%nat -> nth i (list_set l i v) d = v.
Proof.
  revert i. induction l as [| h t IH]; intros [| i] H; simpl in *;
    try lia; [reflexivity | apply IH; lia].
Qed.

Lemma nth_list_set_neq {A : Type} (l : list A) (i j : nat) (v d : A) :
  i <> j -> nth j (list_set l i v) d = nth j l d.
Proof.
  revert i j. induction l as [| h t IH]; intros [| i] [| j] H; simpl;
    try reflexivity; try congruence. apply IH. congruence.
Qed.

Lemma round_flag_length (limit : float) (i : nat) (flags : VecDynFloat) :
  length (round_flag limit i flags) = length flags.
Proof.
  unfold round_flag. destruct (fgt _ _); apply list_set_length.
Qed.

Lemma round_loop_length (limit : float) (n : nat) (flags : VecDynFloat) :
  length (for_loop n (round_flag limit) flags) = length flags.
Proof.
  apply (for_loop_invariant (fun l => length l = length flags));
    [reflexivity |].
  intros i x _ Hx. rewrite round_flag_length. exact Hx.
Qed.

Lemma round_flag_at_eq (limit : float) (n : nat) (flags : VecDynFloat) :
  (n < length flags)%nat ->
  at_ (round_flag limit n flags) n =
  if fgt (at_ flags n) limit then Fin 1 else Fin 0.
Proof.
  intros H. unfold round_flag, at_.
  destruct (fgt (nth n flags NaN) limit); apply nth_list_set_eq; exact H.
Qed.

Lemma round_flag_at_neq (limit : float) (n i : nat) (flags : VecDynFloat) :
  i <> n -> at_ (round_flag limit n flags) i = at_ flags i.
Proof.
  intros H. unfold round_flag, at_.
  destruct (fgt (nth n flags NaN) limit); apply nth_list_set_neq; congruence.
Qed.

(** The rounding loop rewrites the entries below its bound and no other. *)
Lemma round_loop_at (limit : float) (n : nat) (flags : VecDynFloat) (i : nat) :
  (i < length flags)%nat ->
  at_ (for_loop n (round_flag limit) flags) i =
  if (i <? n)%nat
  then (if fgt (at_ flags i) limit then Fin 1 else Fin 0)
  else at_ flags i.
Proof.
  intros Hi. induction n as [| n IH]; [reflexivity |].
  rewrite for_loop_S. set (cur := for_loop n (round_flag limit) flags) in *.
  assert (Hlen : length cur = length flags) by apply round_loop_length.
  destruct (Nat.eq_dec i n) as [-> | Hne].
  - rewrite Nat.ltb_irrefl in IH.
    replace (n <? S n)%nat with true by (symmetry; apply Nat.ltb_lt; lia).
    rewrite round_flag_at_eq, IH by lia. reflexivity.
  - rewrite round_flag_at_neq, IH by exact Hne.
    destruct (Nat.ltb_spec i n), (Nat.ltb_spec i (S n)); try lia; reflexivity.
Qed.

(** X1.  In a call whose rounding loop stays within the flag vector (no
    more target rows than affinity rows), a corresponding flag below the
    number of target rows comes out as 0 or 1, and as 1 exactly when its
    affinity-weighted value exceeds the rounding limit. *)
Lemma affinity_to_correspondences_flags_rounded
  (inTargetFeatures : FeatureMat) (inTargetFlags : VecDynFloat)
  (inAffinity : MatDynFloat) (limit : float) (i : nat) :
  (length inTargetFeatures <= length inAffinity)%nat ->
  (i < length inTargetFeatures)%nat ->
  let flag :=
    at_ (snd (affinity_to_correspondences inTargetFeatures inTargetFlags
                                          inAffinity limit)) i in
  let weighted :=
    affinity_row_times_flags (nth i inAffinity []) inTargetFlags in
  (flag = Fin 0 \/ flag = Fin 1) /\
  (flag = Fin 1 <-> fgt weighted limit = true).
Proof.
  intros Hrows Ht.
  assert (Hi : (i < length inAffinity)%nat) by lia.
  unfold affinity_to_correspondences. cbn [snd].
  rewrite round_loop_at by (rewrite length_map; exact Hi).
  replace (i <? length inTargetFeatures)%nat with true
    by (symmetry; apply Nat.ltb_lt; exact Ht).
  unfold at_.
  rewrite (nth_indep _ NaN (affinity_row_times_flags [] inTargetFlags))
    by (rewrite length_map; exact Hi).
  rewrite (map_nth (fun arow => affinity_row_times_flags arow inTargetFlags)).
  cbv zeta. destruct (fgt _ limit).
  - split; [right; reflexivity | split; reflexivity].
  - split; [left; reflexivity | split; intros H; [| discriminate]].
    injection H as H. lra.
Qed.

(** Beyond the number of target vertices a flag keeps its weighted value. *)
Lemma affinity_to_correspondences_flags_unrounded
  (inTargetFeatures : FeatureMat) (inTargetFlags : VecDynFloat)
  (inAffinity : MatDynFloat) (limit : float) (i : nat) :
  (i < length inAffinity)%nat -> (length inTargetFeatures <= i)%nat ->
  at_ (snd (affinity_to_correspondences inTargetFeatures inTargetFlags
                                        inAffinity limit)) i =
  affinity_row_times_flags (nth i inAffinity []) inTargetFlags.
Proof.
  intros Hi Ht. unfold affinity_to_correspondences. cbn [snd].
  rewrite round_loop_at by (rewrite length_map; exact Hi).
  replace (i <? length inTargetFeatures)%nat with false
    by (symmetry; apply Nat.ltb_ge; exact Ht).
  unfold at_.
  rewrite (nth_indep _ NaN (affinity_row_times_flags [] inTargetFlags))
    by (rewrite length_map; exact Hi).
  apply (map_nth (fun arow => affinity_row_times_flags arow inTargetFlags)).
Qed.

(** C5.  The rounding loop runs over the number of target rows, not over
    the number of corresponding flags.  With two target vertices and three
    floating vertices the third corresponding flag is never rounded: it
    leaves [affinity_to_correspondences] as 0.5, neither 0 nor 1. *)
Theorem affinity_to_correspondences_flag_left_unrounded :
  snd (affinity_to_correspondences Samples.targetFeatures Samples.targetFlags
         Samples.affinity default_flag_rounding_limit)
  = [Fin 1; Fin 0; Fin 0.5].
Proof.
  unfold affinity_to_correspondences, Samples.affinity, Samples.targetFlags,
    Samples.targetFeatures, default_flag_rounding_limit.
  cbn [snd length map affinity_row_times_flags combine fold_left fst
       fmul fadd fzero].
  unfold for_loop. cbn [seq fold_left]. unfold round_flag at 2.
  cbn [at_ nth]. rewrite fgt_fin_true by lra. cbn [list_set].
  unfold round_flag. cbn [at_ nth]. rewrite fgt_fin_false by lra.
  cbn [list_set]. repeat f_equal. lra.
Qed.

(** ** Block average *)

Lemma vec3_finite_eta (v : Vec3Float) :
  Vec3.finite v -> v = mkVec3 (Fin (fval (vx v))) (Fin (fval (vy v)))
                              (Fin (fval (vz v))).
Proof.
  destruct v as [a b c]. intros (Ha & Hb & Hc). simpl in *.
  rewrite <- !is_finite_fval by assumption. reflexivity.
Qed.

(** On finite data the summation loop holds the real partial sums. *)
Lemma block_sums_prefix (vs : Vec3Mat) (ws : VecDynFloat) (n : nat) :
  (forall i, (i < n)%nat -> Vec3.finite (row3 vs i)) ->
  (forall i, (i < n)%nat -> is_finite (at_ ws i)) ->
  for_loop n
    (fun i '(outVector, sumWeights) =>
       (Vec3.add outVector (row3 vs i), (sumWeights + at_ ws i)%fl))
    (Vec3.Zero, fzero)
  = (mkVec3 (Fin (coordinate_sum vx vs n)) (Fin (coordinate_sum vy vs n))
            (Fin (coordinate_sum vz vs n)),
     Fin (weight_sum ws n)).
Proof.
  intros Hv Hw. induction n as [| n IH]; [reflexivity |].
  rewrite for_loop_S, IH by (intros; first [apply Hv; lia | apply Hw; lia]).
  unfold coordinate_sum, weight_sum. rewrite !rsum_S.
  rewrite (vec3_finite_eta _ (Hv n (Nat.lt_succ_diag_r n))) at 1.
  rewrite (is_finite_fval _ (Hw n (Nat.lt_succ_diag_r n))) at 1.
  reflexivity.
Qed.

Lemma INR_length_nonzero {A : Type} (l : list A) : l <> [] -> INR (length l) <> 0.
Proof.
  intros H. destruct l as [| h t]; [contradiction |].
  apply not_0_INR. simpl. discriminate.
Qed.

(** C10.  On a non-empty set of finite vectors with finite weights whose sum
    is not zero, [vector_block_average] returns the unweighted sum of the
    vectors divided by the sum of the weights.  It is the uniform average
    whenever the weights sum to the number of vectors, and, for a vector set
    whose sum is not the zero vector, only then. *)
Theorem vector_block_average_sum_over_weights
  (inVectors : Vec3Mat) (inWeights : VecDynFloat) :
  let n := length inVectors in
  let X := coordinate_sum vx inVectors n in
  let Y := coordinate_sum vy inVectors n in
  let Z := coordinate_sum vz inVectors n in
  let W := weight_sum inWeights n in
  inVectors <> [] ->
  (forall i, (i < n)%nat -> Vec3.finite (row3 inVectors i)) ->
  (forall i, (i < n)%nat -> is_finite (at_ inWeights i)) ->
  W <> 0 ->
  vector_block_average inVectors inWeights
  = mkVec3 (Fin (X / W)) (Fin (Y / W)) (Fin (Z / W)) /\
  (W = INR n ->
   vector_block_average inVectors inWeights = uniform_average inVectors) /\
  (X <> 0 \/ Y <> 0 \/ Z <> 0 ->
   vector_block_average inVectors inWeights = uniform_average inVectors ->
   W = INR n).
Proof.
  intros n X Y Z W Hne Hv Hw HW.
  assert (Hn : INR n <> 0) by (apply INR_length_nonzero; exact Hne).
  assert (Hval : vector_block_average inVectors inWeights
                 = mkVec3 (Fin (X / W)) (Fin (Y / W)) (Fin (Z / W))).
  { unfold vector_block_average, block_sums. fold n.
    rewrite (block_sums_prefix inVectors inWeights n Hv Hw).
    unfold Vec3.div. cbn [vx vy vz]. fold n X Y Z W.
    rewrite !fdiv_fin by exact HW. reflexivity. }
  split; [exact Hval |]. rewrite Hval. unfold uniform_average. fold n X Y Z.
  split.
  - intros ->. reflexivity.
  - intros Hnz E. injection E as Ex Ey Ez.
    assert (Hx : X * INR n = X * W) by
      (apply (f_equal (fun t => t * W * INR n)) in Ex; field_simplify in Ex;
       lra).
    assert (Hy : Y * INR n = Y * W) by
      (apply (f_equal (fun t => t * W * INR n)) in Ey; field_simplify in Ey;
       lra).
    assert (Hz : Z * INR n = Z * W) by
      (apply (f_equal (fun t => t * W * INR n)) in Ez; field_simplify in Ez;
       lra).
    destruct Hnz as [H | [H | H]]; nra.
Qed.

Lemma vector_block_average_sum_over_weights_witness :
  let vs := Samples.twoVectors in
  let ws := Samples.unitWeights in
  let X := coordinate_sum vx vs 2 in
  let Y := coordinate_sum vy vs 2 in
  let Z := coordinate_sum vz vs 2 in
  let W := weight_sum ws 2 in
  vector_block_average vs ws
  = mkVec3 (Fin (X / W)) (Fin (Y / W)) (Fin (Z / W)) /\
  (W = INR 2 -> vector_block_average vs ws = uniform_average vs) /\
  (X <> 0 \/ Y <> 0 \/ Z <> 0 ->
   vector_block_average vs ws = uniform_average vs -> W = INR 2).
Proof.
  apply (vector_block_average_sum_over_weights
           Samples.twoVectors Samples.unitWeights).
  - discriminate.
  - intros [| [| i]] Hi; simpl in Hi; try lia;
      (repeat split; eexists; reflexivity).
  - intros [| [| i]] Hi; simpl in Hi; try lia; eexists; reflexivity.
  - unfold weight_sum, rsum, for_loop. simpl. lra.
Defined.

(** C10, the claim as first stated fails: two opposed vectors with weights 1
    and 2 have the block average (0, 0, 0), which is their uniform average,
    although the weights sum to 3 and not to the number of vectors. *)
Lemma vector_block_average_uniform_despite_weights :
  vector_block_average Samples.opposedVectors Samples.opposedWeights
  = uniform_average Samples.opposedVectors /\
  weight_sum Samples.opposedWeights (length Samples.opposedVectors) = 3 /\
  INR (length Samples.opposedVectors) = 2.
Proof.
  split; [| split].
  - unfold vector_block_average, block_sums, uniform_average, coordinate_sum,
      rsum, for_loop.
    cbn [Samples.opposedVectors Samples.opposedWeights length seq fold_left
         row3 at_ nth Vec3.add Vec3.Zero vx vy vz fadd fzero Vec3.div fval].
    unfold Vec3.div, Vec3.add, Vec3.Zero. cbn [vx vy vz fadd fzero].
    rewrite !fdiv_fin by lra. cbn [INR]. f_equal; apply (f_equal Fin); lra.
  - unfold weight_sum, rsum, for_loop. simpl. lra.
  - simpl. lra.
Qed.

(** ** Gaussian averaging *)

Lemma fdiv_by_zero_sum (a s : float) : s = NaN \/ s = Fin 0 -> fdiv a s = NaN.
Proof. intros [-> | ->]; [apply fdiv_nan_r | apply fdiv_zero]. Qed.

Lemma vec3_div_by_zero_sum (v : Vec3Float) (s : float) :
  s = NaN \/ s = Fin 0 -> Vec3.div v s = Vec3.undef.
Proof.
  intros H. unfold Vec3.div, Vec3.undef.
  rewrite !(fdiv_by_zero_sum _ s H). reflexivity.
Qed.

(** A zero user weight annihilates the Gaussian weight, whatever it is. *)
Lemma fmul_zero_weight (g w : float) :
  w = Fin 0 \/ w = NaN -> fmul g w = NaN \/ fmul g w = Fin 0.
Proof.
  intros [-> | ->]; destruct g as [x |]; simpl; auto.
  right. f_equal. lra.
Qed.

Lemma fadd_zero_sums (s w : float) :
  s = NaN \/ s = Fin 0 -> w = NaN \/ w = Fin 0 ->
  fadd s w = NaN \/ fadd s w = Fin 0.
Proof.
  intros [-> | ->] [-> | ->]; simpl; auto. right. f_equal. lra.
Qed.

(** With zero user weights the accumulated weight sum is zero or not finite. *)
Lemma gaussian_accumulate_zero_weights (q : Vec3Float)
  (inVectors inVectorPositions : Vec3Mat) (inVectorWeights : VecDynFloat)
  (paramSigma : float) :
  (forall i, at_ inVectorWeights i = Fin 0 \/ at_ inVectorWeights i = NaN) ->
  let sumWeights :=
    snd (gaussian_accumulate q inVectors inVectorPositions inVectorWeights
                             paramSigma) in
  sumWeights = NaN \/ sumWeights = Fin 0.
Proof.
  intros Hw. cbv zeta. unfold gaussian_accumulate.
  apply (for_loop_invariant
           (fun st : Vec3Float * float => snd st = NaN \/ snd st = Fin 0)).
  - right. reflexivity.
  - intros i [v s] _ Hs. cbn [snd] in *. apply fadd_zero_sums; [exact Hs |].
    unfold combinedWeight. apply fmul_zero_weight, Hw.
Qed.

(** The loop reads the weights of the sources it visits and no other. *)
Lemma gaussian_accumulate_zero_sources (q : Vec3Float)
  (inVectors inVectorPositions : Vec3Mat) (inVectorWeights : VecDynFloat)
  (paramSigma : float) :
  (forall j, (j < length inVectors)%nat -> at_ inVectorWeights j = Fin 0) ->
  let sumWeights :=
    snd (gaussian_accumulate q inVectors inVectorPositions inVectorWeights
                             paramSigma) in
  sumWeights = NaN \/ sumWeights = Fin 0.
Proof.
  intros Hw. cbv zeta. unfold gaussian_accumulate.
  apply (for_loop_invariant
           (fun st : Vec3Float * float => snd st = NaN \/ snd st = Fin 0)).
  - right. reflexivity.
  - intros i [v s] Hi Hs. cbn [snd] in *. apply fadd_zero_sums; [exact Hs |].
    unfold combinedWeight. apply fmul_zero_weight. left. apply Hw, Hi.
Qed.

Lemma gaussian_interpolate_zero_weights (q : Vec3Float)
  (inVectors inVectorPositions : Vec3Mat) (inVectorWeights : VecDynFloat)
  (paramSigma : float) :
  (forall i, at_ inVectorWeights i = Fin 0 \/ at_ inVectorWeights i = NaN) ->
  gaussian_interpolate_vector_field q inVectors inVectorPositions
                                    inVectorWeights paramSigma
  = Vec3.undef.
Proof.
  intros Hw. unfold gaussian_interpolate_vector_field.
  pose proof (gaussian_accumulate_zero_weights q inVectors inVectorPositions
                inVectorWeights paramSigma Hw) as H.
  cbv zeta in H.
  destruct (gaussian_accumulate q inVectors inVectorPositions inVectorWeights
                                paramSigma) as [v s].
  apply vec3_div_by_zero_sum. exact H.
Qed.

Lemma at_all_zero (ws : VecDynFloat) (i : nat) :
  Forall (fun w => w = Fin 0) ws -> at_ ws i = Fin 0 \/ at_ ws i = NaN.
Proof.
  intros H. unfold at_. destruct (Nat.lt_ge_cases i (length ws)) as [Hi | Hi].
  - left. rewrite Forall_forall in H. apply H, nth_In, Hi.
  - right. apply nth_overflow, Hi.
Qed.

(** What a loop that assigns row [i] in iteration [i] leaves in row [i]. *)
Lemma for_loop_rows {A : Type} (f : nat -> list A -> A) (d : A)
  (P : nat -> A -> Prop) (n : nat) (l : list A) :
  (forall i l, P i (f i l)) ->
  forall i, (i < n)%nat -> (i < length l)%nat ->
  P i (nth i (for_loop n (fun i l => list_set l i (f i l)) l) d).
Proof.
  intros Hf. induction n as [| n IH]; intros i Hi Hl; [lia |].
  rewrite for_loop_S.
  set (cur := for_loop n (fun i l => list_set l i (f i l)) l) in *.
  assert (Hlen : length cur = length l).
  { apply (for_loop_invariant (fun x => length x = length l));
      [reflexivity |].
    intros k x _ Hx. rewrite list_set_length. exact Hx. }
  destruct (Nat.eq_dec i n) as [-> | Hne].
  - rewrite nth_list_set_eq by lia. apply Hf.
  - rewrite nth_list_set_neq by congruence. apply IH; [lia | exact Hl].
Qed.

(** A loop that assigns row [i] in iteration [i], from data that do not
    depend on the rows already written, leaves that assignment in row [i]. *)
Lemma for_loop_row_at {A : Type} (f : nat -> A) (d : A) (n : nat)
  (l : list A) (i : nat) :
  (i < n)%nat -> (i < length l)%nat ->
  nth i (for_loop n (fun i l => list_set l i (f i)) l) d = f i.
Proof.
  intros Hi Hl.
  apply (for_loop_rows (fun k _ => f k) d (fun k v => v = f k) n l);
    [reflexivity | exact Hi | exact Hl].
Qed.

Section SmoothingProperties.

Variable k_nearest_neighbours :
  Vec3Mat -> Vec3Mat -> nat -> nat -> list (list nat).

(** C7, as the code has it.  The Gaussian averaging has no fallback: in
    every call it divides the accumulated vector by the weight sum, and when
    the user weights of the sources it is given are all zero that sum is
    zero (or already not finite) and the averaged vector is not finite in
    any component.  In a smoothing pass the sources of vertex [i] are the
    neighbours gathered for [i]: when the user weights of those neighbours
    are all zero, whatever the weights of the other vertices are, the row
    the pass writes for [i] is not finite in any component. *)
Theorem gaussian_smoothing_zero_weights_not_finite
  (inVectors inVectorPositions : Vec3Mat) (inVectorWeights : VecDynFloat)
  (outSmoothedVectors : Vec3Mat) (paramNumNeighbours : nat)
  (paramSigma : float) (i : nat) :
  let neighbourIndices :=
    k_nearest_neighbours inVectorPositions inVectorPositions
                         paramNumNeighbours 15%nat in
  let gathered := fun (A : Type) (f : nat -> A) =>
    map (fun j => f (neighbourIndex neighbourIndices i j))
        (seq 0 paramNumNeighbours) in
  let sumWeights :=
    snd (gaussian_accumulate (row3 inVectorPositions i)
           (gathered _ (row3 inVectors)) (gathered _ (row3 inVectorPositions))
           (gathered _ (at_ inVectorWeights)) paramSigma) in
  (i < length inVectorPositions)%nat ->
  (i < length outSmoothedVectors)%nat ->
  (forall j, (j < paramNumNeighbours)%nat ->
     at_ inVectorWeights (neighbourIndex neighbourIndices i j) = Fin 0) ->
  (forall q vs ps ws sigma,
     let accumulated := gaussian_accumulate q vs ps ws sigma in
     gaussian_interpolate_vector_field q vs ps ws sigma
     = Vec3.div (fst accumulated) (snd accumulated) /\
     ((forall j, (j < length vs)%nat -> at_ ws j = Fin 0) ->
      (snd accumulated = NaN \/ snd accumulated = Fin 0) /\
      gaussian_interpolate_vector_field q vs ps ws sigma = Vec3.undef)) /\
  (sumWeights = NaN \/ sumWeights = Fin 0) /\
  row3 (gaussian_smoothing_vector_field k_nearest_neighbours inVectors
          inVectorPositions inVectorWeights outSmoothedVectors
          paramNumNeighbours paramSigma) i
  = Vec3.undef.
Proof.
  intros neighbourIndices gathered sumWeights Hi Ho Hz.
  assert (Hgathered : forall j,
            at_ (gathered _ (at_ inVectorWeights)) j = Fin 0 \/
            at_ (gathered _ (at_ inVectorWeights)) j = NaN).
  { intros j. subst gathered. cbv beta. unfold at_ at 1 3.
    destruct (Nat.lt_ge_cases j paramNumNeighbours) as [Hj | Hj].
    - rewrite (nth_indep _ NaN (at_ inVectorWeights
                 (neighbourIndex neighbourIndices i 0)))
        by (rewrite length_map, length_seq; exact Hj).
      rewrite (map_nth (fun j0 => at_ inVectorWeights
                 (neighbourIndex neighbourIndices i j0))).
      left. apply Hz. rewrite seq_nth by exact Hj. exact Hj.
    - right. apply nth_overflow. rewrite length_map, length_seq. exact Hj. }
  split; [| split].
  - intros q vs ps ws sigma. cbv zeta. split.
    + unfold gaussian_interpolate_vector_field.
      destruct (gaussian_accumulate q vs ps ws sigma) as [v s]. reflexivity.
    + intros Hw.
      pose proof (gaussian_accumulate_zero_sources q vs ps ws sigma Hw) as H.
      split; [exact H |]. unfold gaussian_interpolate_vector_field.
      destruct (gaussian_accumulate q vs ps ws sigma) as [v s].
      apply vec3_div_by_zero_sum. exact H.
  - subst sumWeights. apply gaussian_accumulate_zero_weights. exact Hgathered.
  - unfold gaussian_smoothing_vector_field, row3. fold neighbourIndices.
    rewrite (for_loop_row_at _ Vec3.undef) by assumption.
    apply gaussian_interpolate_zero_weights. exact Hgathered.
Qed.

End SmoothingProperties.

(** Two vertices, each its own single neighbour; the first has weight one,
    the second weight zero.  The row written for the second vertex is not
    finite. *)
Lemma gaussian_smoothing_zero_weights_not_finite_witness :
  (forall q vs ps ws sigma,
     let accumulated := gaussian_accumulate q vs ps ws sigma in
     gaussian_interpolate_vector_field q vs ps ws sigma
     = Vec3.div (fst accumulated) (snd accumulated) /\
     ((forall j, (j < length vs)%nat -> at_ ws j = Fin 0) ->
      (snd accumulated = NaN \/ snd accumulated = Fin 0) /\
      gaussian_interpolate_vector_field q vs ps ws sigma = Vec3.undef)) /\
  (snd (gaussian_accumulate Samples.unit_x [Samples.unit_x] [Samples.unit_x]
          [Fin 0] (Fin 1)) = NaN \/
   snd (gaussian_accumulate Samples.unit_x [Samples.unit_x] [Samples.unit_x]
          [Fin 0] (Fin 1)) = Fin 0) /\
  row3 (gaussian_smoothing_vector_field Neighbourhoods.own_index_neighbours
          [Samples.unit_x; Samples.unit_x] [Samples.origin; Samples.unit_x]
          [Fin 1; Fin 0] [Vec3.Zero; Vec3.Zero] 1 (Fin 1)) 1
  = Vec3.undef.
Proof.
  apply (gaussian_smoothing_zero_weights_not_finite
           Neighbourhoods.own_index_neighbours
           [Samples.unit_x; Samples.unit_x] [Samples.origin; Samples.unit_x]
           [Fin 1; Fin 0] [Vec3.Zero; Vec3.Zero] 1 (Fin 1) 1).
  - simpl. lia.
  - simpl. lia.
  - intros [| j] Hj; [reflexivity | lia].
Defined.

(** C7, the claim as first stated fails: one vertex whose weight is zero,
    smoothed with sigma 1 over its single neighbour (itself).  The combined
    weight sum is the finite value 0, the averaging divides by it, and the
    row written to the smoothed field is not finite. *)
Lemma gaussian_smoothing_divides_by_zero_sum :
  snd (gaussian_accumulate Samples.origin [Samples.unit_x] [Samples.origin]
                           [Fin 0] (Fin 1)) = Fin 0 /\
  gaussian_smoothing_vector_field Samples.one_point_neighbours
    [Samples.unit_x] [Samples.origin] [Fin 0] [Vec3.Zero] 1 (Fin 1)
  = [Vec3.undef].
Proof.
  split.
  - unfold gaussian_accumulate, for_loop, combinedWeight, gaussianWeight.
    cbn [length seq fold_left snd row3 at_ nth].
    unfold Vec3.squaredNorm, Vec3.dot, Vec3.sub, Samples.origin, fpow2.
    cbn [vx vy vz fsub fmul fadd fzero].
    rewrite fdiv_fin by lra. cbn [fexp fmul fadd]. apply (f_equal Fin). lra.
  - unfold gaussian_smoothing_vector_field, for_loop.
    cbn [length seq fold_left list_set]. f_equal.
    apply gaussian_interpolate_zero_weights.
    intros [| i]; [left; reflexivity | right; destruct i; reflexivity].
Qed.

(** ** The Gaussian average on finite data *)

(** The combined weight of a finite source under a non-zero sigma: the
    Gaussian of its distance times its user weight. *)
Lemma combinedWeight_finite (q : Vec3Float) (ps : Vec3Mat) (ws : VecDynFloat)
  (sigma : R) (i : nat) :
  sigma <> 0 -> Vec3.finite q -> Vec3.finite (row3 ps i) ->
  is_finite (at_ ws i) ->
  exists g, 0 < g /\
    combinedWeight q ps ws (Fin sigma) i = Fin (g * fval (at_ ws i)).
Proof.
  intros Hs Hq Hp [w Hw]. unfold combinedWeight, gaussianWeight, fpow2.
  rewrite (vec3_finite_eta _ Hq), (vec3_finite_eta _ Hp), Hw.
  unfold Vec3.squaredNorm, Vec3.dot, Vec3.sub.
  cbn [vx vy vz fsub fmul fadd fval].
  rewrite fdiv_fin by nra. cbn [fexp fmul].
  eexists. split; [apply exp_pos | reflexivity].
Qed.

(** On finite sources the accumulation loop holds the real weighted sums. *)
Lemma gaussian_accumulate_prefix (q : Vec3Float) (vs ps : Vec3Mat)
  (ws : VecDynFloat) (sigma : float) (n : nat) :
  (forall i, (i < n)%nat -> Vec3.finite (row3 vs i)) ->
  (forall i, (i < n)%nat -> is_finite (combinedWeight q ps ws sigma i)) ->
  let c := fun i => fval (combinedWeight q ps ws sigma i) in
  for_loop n
    (fun i '(outQueriedVector, sumWeights) =>
       (Vec3.add outQueriedVector
          (Vec3.scale (combinedWeight q ps ws sigma i) (row3 vs i)),
        (sumWeights + combinedWeight q ps ws sigma i)%fl))
    (Vec3.Zero, fzero)
  = (mkVec3 (Fin (rsum (fun i => c i * fval (vx (row3 vs i))) n))
            (Fin (rsum (fun i => c i * fval (vy (row3 vs i))) n))
            (Fin (rsum (fun i => c i * fval (vz (row3 vs i))) n)),
     Fin (rsum c n)).
Proof.
  intros Hv Hc c. induction n as [| n IH]; [reflexivity |].
  rewrite for_loop_S, IH by (intros; first [apply Hv; lia | apply Hc; lia]).
  rewrite !rsum_S. subst c. cbv zeta beta.
  destruct (Hc n (Nat.lt_succ_diag_r n)) as [w Hw].
  pose proof (vec3_finite_eta _ (Hv n (Nat.lt_succ_diag_r n))) as Hvn.
  destruct (row3 vs n) as [x y z]. injection Hvn as -> -> ->.
  rewrite Hw. reflexivity.
Qed.

(** X2.  In exact arithmetic (no rounding, and a Gaussian weight that is
    never rounded down to zero, as the binary32 weight is for a source
    farther than about 14 sigma from the query): with finite sources, a
    non-zero sigma, non-negative user weights and at least one positive
    weight, the weight sum is positive and
    [gaussian_interpolate_vector_field] returns the weighted average of the
    source vectors under the combined weights. *)
Lemma gaussian_interpolate_weighted_average (q : Vec3Float) (vs ps : Vec3Mat)
  (ws : VecDynFloat) (sigma : R) (k : nat) :
  let n := length vs in
  let c := fun i => fval (combinedWeight q ps ws (Fin sigma) i) in
  sigma <> 0 -> Vec3.finite q ->
  (forall i, (i < n)%nat ->
     Vec3.finite (row3 vs i) /\ Vec3.finite (row3 ps i) /\
     exists w, at_ ws i = Fin w /\ 0 <= w) ->
  (k < n)%nat -> (exists w, at_ ws k = Fin w /\ 0 < w) ->
  0 < rsum c n /\
  gaussian_interpolate_vector_field q vs ps ws (Fin sigma)
  = mkVec3 (Fin (rsum (fun i => c i * fval (vx (row3 vs i))) n / rsum c n))
           (Fin (rsum (fun i => c i * fval (vy (row3 vs i))) n / rsum c n))
           (Fin (rsum (fun i => c i * fval (vz (row3 vs i))) n / rsum c n)).
Proof.
  intros n c Hs Hq Hall Hk (wk & Hwk & Hpos).
  assert (Hc : forall i, (i < n)%nat ->
            exists g, 0 < g /\
              combinedWeight q ps ws (Fin sigma) i = Fin (g * fval (at_ ws i))).
  { intros i Hi. destruct (Hall i Hi) as (_ & Hp & w & Hw & _).
    apply combinedWeight_finite; try assumption. exists w. exact Hw. }
  assert (Hsum : 0 < rsum c n).
  { apply (rsum_pos c n k); [| exact Hk |]; subst c; cbv beta.
    - intros i Hi. destruct (Hc i Hi) as (g & Hg & ->).
      destruct (Hall i Hi) as (_ & _ & w & -> & Hw). cbn [fval]. nra.
    - destruct (Hc k Hk) as (g & Hg & ->). rewrite Hwk. cbn [fval]. nra. }
  split; [exact Hsum |].
  unfold gaussian_interpolate_vector_field, gaussian_accumulate.
  cbv zeta. fold n.
  rewrite (gaussian_accumulate_prefix q vs ps ws (Fin sigma) n).
  - unfold Vec3.div. cbn [vx vy vz]. fold c.
    rewrite !fdiv_fin by lra. reflexivity.
  - intros i Hi. apply (Hall i Hi).
  - intros i Hi. destruct (Hc i Hi) as (g & _ & ->). eexists. reflexivity.
Qed.

(** ** Viscoelastic transformation *)

Lemma for_loop_length {A : Type} (upd : nat -> list A -> list A) (n : nat)
  (l : list A) :
  (forall i l, length (upd i l) = length l) ->
  length (for_loop n upd l) = length l.
Proof.
  intros H. apply (for_loop_invariant (fun x => length x = length l));
    [reflexivity |].
  intros i x _ Hx. rewrite H. exact Hx.
Qed.

(** A loop whose iteration [i] rewrites element [i] from its old value. *)
Lemma for_loop_pointwise {A : Type} (upd : nat -> list A -> list A)
  (g : nat -> A -> A) (d : A) :
  (forall i l, length (upd i l) = length l) ->
  (forall i l, (i < length l)%nat -> nth i (upd i l) d = g i (nth i l d)) ->
  (forall i j l, i <> j -> nth j (upd i l) d = nth j l d) ->
  forall n l i, (i < length l)%nat ->
    nth i (for_loop n upd l) d =
    if (i <? n)%nat then g i (nth i l d) else nth i l d.
Proof.
  intros Hlen Heq Hneq n l i Hi. induction n as [| n IH]; [reflexivity |].
  rewrite for_loop_S.
  assert (Hcur : length (for_loop n upd l) = length l)
    by (apply for_loop_length, Hlen).
  destruct (Nat.eq_dec i n) as [-> | Hne].
  - rewrite Nat.ltb_irrefl in IH.
    replace (n <? S n)%nat with true by (symmetry; apply Nat.ltb_lt; lia).
    rewrite Heq, IH by lia. reflexivity.
  - rewrite Hneq, IH by congruence.
    destruct (Nat.ltb_spec i n), (Nat.ltb_spec i (S n)); try lia; reflexivity.
Qed.

Lemma set_position_length (m : FeatureMat) (i : nat) (p : Vec3Float) :
  length (Feature.set_position m i p) = length m.
Proof.
  unfold Feature.set_position. destruct (nth_error m i);
    [apply list_set_length | reflexivity].
Qed.

Lemma set_position_row_eq (m : FeatureMat) (i : nat) (p : Vec3Float) :
  (i < length m)%nat ->
  Feature.row (Feature.set_position m i p) i
  = mkFeature p (normal (Feature.row m i)).
Proof.
  intros Hi. unfold Feature.set_position, Feature.row.
  destruct (nth_error m i) as [r |] eqn:E.
  - rewrite nth_list_set_eq by exact Hi.
    rewrite (nth_error_nth _ _ _ E). reflexivity.
  - apply nth_error_None in E. lia.
Qed.

Lemma set_position_row_neq (m : FeatureMat) (i j : nat) (p : Vec3Float) :
  i <> j -> Feature.row (Feature.set_position m i p) j = Feature.row m j.
Proof.
  intros H. unfold Feature.set_position, Feature.row.
  destruct (nth_error m i); [apply nth_list_set_neq, H | reflexivity].
Qed.

Lemma set_position_normals (m : FeatureMat) (i : nat) (p : Vec3Float) :
  map normal (Feature.set_position m i p) = map normal m.
Proof.
  unfold Feature.set_position. destruct (nth_error m i) as [r |] eqn:E;
    [| reflexivity].
  revert i E. induction m as [| h t IH]; intros [| i] E; simpl in *;
    try discriminate.
  - injection E as ->. reflexivity.
  - f_equal. apply IH, E.
Qed.

(** After at least one pass, a loop that stores its result in both
    components of its state leaves them equal. *)
Lemma repeat_loop_diagonal {A : Type} (g : A -> A -> A) (n : nat) (s : A * A) :
  (1 <= n)%nat ->
  let r := repeat_loop n (fun '(a, b) => (g a b, g a b)) s in
  fst r = snd r.
Proof.
  intros Hn. cbv zeta.
  assert (Hinv : forall m (t : A * A), fst t = snd t ->
            fst (repeat_loop m (fun '(a, b) => (g a b, g a b)) t)
            = snd (repeat_loop m (fun '(a, b) => (g a b, g a b)) t)).
  { induction m as [| m IH]; intros t Ht; [exact Ht |].
    simpl. apply IH. destruct t. reflexivity. }
  destruct n as [| n]; [lia |]. simpl. apply Hinv. destruct s. reflexivity.
Qed.

Section ViscoelasticProperties.

Variable k_nearest_neighbours :
  Vec3Mat -> Vec3Mat -> nat -> nat -> list (list nat).

(** The displacement loop adds row [i] of the field to position [i]. *)
Lemma displace_loop_row (field : Vec3Mat) (n : nat) (m : FeatureMat) (i : nat) :
  (i < length m)%nat ->
  Feature.row
    (for_loop n (fun i m => displace m i (row3 field i)) m) i
  = if (i <? n)%nat
    then mkFeature (Vec3.add (position (Feature.row m i)) (row3 field i))
                   (normal (Feature.row m i))
    else Feature.row m i.
Proof.
  intros Hi. unfold Feature.row.
  apply (for_loop_pointwise
           (fun i m => displace m i (row3 field i))
           (fun i r => mkFeature (Vec3.add (position r) (row3 field i))
                                 (normal r))); [| | | exact Hi].
  - intros k l. apply set_position_length.
  - intros k l Hk. apply set_position_row_eq, Hk.
  - intros k j l Hkj. apply set_position_row_neq, Hkj.
Qed.

(** X3.  With at least one elastic smoothing pass, the positions returned
    are the positions received plus the displacement field returned. *)
Lemma viscoelastic_positions_follow_field
  (ioFloatingPositions inCorrespondingPositions : FeatureMat)
  (inFloatingWeights : VecDynFloat) (ioDisplacementField : Vec3Mat)
  (k : nat) (sigma : float) (numViscous numElastic : nat) (i : nat) :
  (1 <= numElastic)%nat -> (i < length ioFloatingPositions)%nat ->
  let out :=
    viscoelastic_transformation k_nearest_neighbours ioFloatingPositions
      inCorrespondingPositions inFloatingWeights ioDisplacementField k sigma
      numViscous numElastic in
  position (Feature.row (fst out) i)
  = Vec3.add (position (Feature.row ioFloatingPositions i))
             (row3 (snd out) i).
Proof.
  intros HE Hi. cbv zeta. unfold viscoelastic_transformation.
  match goal with
  | |- context [regulate_displacement_field ?knn ?u ?p ?w ?d ?kk ?s ?e] =>
      pose proof (repeat_loop_diagonal
                    (fun u0 d0 => gaussian_smoothing_vector_field
                                    knn u0 p w d0 kk s) e (u, d) HE) as Hd;
      cbv zeta in Hd;
      change (repeat_loop e _ (u, d))
        with (regulate_displacement_field knn u p w d kk s e) in Hd;
      destruct (regulate_displacement_field knn u p w d kk s e) as [U D]
  end.
  cbn [fst snd] in *. subst D.
  rewrite displace_loop_row by exact Hi.
  replace (i <? length ioFloatingPositions)%nat with true
    by (symmetry; apply Nat.ltb_lt; exact Hi).
  reflexivity.
Qed.

End ViscoelasticProperties.

(** C1, where the code departs from it.  With no elastic smoothing pass the
    displacement field is never written back: one vertex at the origin whose
    correspondence lies one unit along x, unit weight, a zero displacement
    field, one viscous pass and no elastic pass.  The vertex is moved to
    (1, 0, 0) while the displacement field returned is still zero, so the
    returned position is not the reference position plus the returned
    displacement. *)
Theorem viscoelastic_transformation_without_elastic_pass :
  viscoelastic_transformation Samples.one_point_neighbours
    Samples.oneFloating Samples.oneCorresponding [Fin 1] [Vec3.Zero]
    1 (Fin 1) 1 0
  = ([mkFeature Samples.unit_x Samples.up], [Vec3.Zero]).
Proof.
  unfold viscoelastic_transformation, regulate_force_field,
    regulate_displacement_field, gaussian_smoothing_vector_field,
    Samples.one_point_neighbours, Samples.oneFloating,
    Samples.oneCorresponding, Feature.leftCols3, Field.sub, Field.add,
    Field.Zero, for_loop, neighbourIndex.
  cbn [repeat_loop length map combine seq fold_left fst snd position repeat
       nth row3 list_set at_].
  unfold gaussian_interpolate_vector_field, gaussian_accumulate, for_loop,
    combinedWeight, gaussianWeight, fpow2.
  cbn [length seq fold_left row3 at_ nth].
  unfold Vec3.squaredNorm, Vec3.dot, Vec3.sub, Vec3.add, Vec3.scale, Vec3.div,
    Vec3.Zero, Samples.origin, Samples.unit_x.
  cbn [vx vy vz]. float_eval.
  unfold displace, Feature.set_position, Feature.row, Vec3.add.
  cbn [nth_error nth list_set position normal vx vy vz]. float_eval.
  exp_positive.
  repeat match goal with |- context [exp ?x] => generalize dependent (exp x); intros end.
  do 4 f_equal; apply (f_equal Fin); field; lra.
Qed.

(** ** Rigid transformation *)

Lemma apply_transformation_state_length (T : Mat4Float) (FP : Vec3Mat)
  (n : nat) (feats : FeatureMat) (st : Vec4Float * FeatureMat) :
  st = for_loop n
         (fun i '(position4d, ioFeatures) =>
            let position4d := Vec4.set_head3 position4d (row3 FP i) in
            let position4d := Mat4.mulv T position4d in
            (position4d,
             Feature.set_position ioFeatures i (Vec4.head3 position4d)))
         (Vec4.Ones, feats) ->
  length (snd st) = length feats /\ map normal (snd st) = map normal feats.
Proof.
  intros ->.
  apply (for_loop_invariant
           (fun st : Vec4Float * FeatureMat =>
              length (snd st) = length feats /\
              map normal (snd st) = map normal feats)).
  - split; reflexivity.
  - intros i [p4 fs] _ [Hl Hn]. cbn [snd] in *.
    rewrite set_position_length, set_position_normals. split; assumption.
Qed.

(** The application loop writes positions only. *)
Lemma apply_transformation_normals (T : Mat4Float) (FP : Vec3Mat) (n : nat)
  (feats : FeatureMat) :
  length (apply_transformation T FP n feats) = length feats /\
  map normal (apply_transformation T FP n feats) = map normal feats.
Proof.
  unfold apply_transformation.
  apply (apply_transformation_state_length T FP n feats). reflexivity.
Qed.

(** A property of every vector the matrix can produce holds of every
    position the loop has written. *)
Lemma apply_transformation_rows (T : Mat4Float) (FP : Vec3Mat)
  (P : Vec3Float -> Prop) (n : nat) (feats : FeatureMat) :
  (forall p4, P (Vec4.head3 (Mat4.mulv T p4))) ->
  forall i, (i < n)%nat -> (i < length feats)%nat ->
    P (position (Feature.row (apply_transformation T FP n feats) i)).
Proof.
  intros HP. unfold apply_transformation.
  induction n as [| n IH]; intros i Hi Hl; [lia |].
  rewrite for_loop_S.
  match goal with
  | |- context [for_loop n ?b ?s] =>
      pose proof (apply_transformation_state_length T FP n feats
                    (for_loop n b s) eq_refl) as [Hlen _];
      specialize (IH i); destruct (for_loop n b s) as [p4 fs]
  end.
  cbn [snd] in *.
  destruct (Nat.eq_dec i n) as [-> | Hne].
  - rewrite set_position_row_eq by lia. cbn [position]. apply HP.
  - rewrite set_position_row_neq by congruence. apply IH; [lia | exact Hl].
Qed.

Lemma vec4_dot_nan_last (r p : Vec4Float) :
  q3 r = NaN -> Vec4.dot r p = NaN.
Proof.
  intros H. unfold Vec4.dot. rewrite H. cbn [fmul]. apply fadd_nan_r.
Qed.

(** A translation that is not finite makes the last column of the
    transformation matrix not finite, whatever the rotation and scale. *)
Lemma transformation_matrix_undef (s : float) (R : Mat3Float) :
  let T := transformation_matrix s R Vec3.undef in
  q3 (m4r0 T) = NaN /\ q3 (m4r1 T) = NaN /\ q3 (m4r2 T) = NaN.
Proof.
  cbv zeta.
  unfold transformation_matrix, Mat4.mul, Mat4.set_block_0_3, Mat4.col,
    Vec3.undef.
  cbn [m4r0 m4r1 m4r2 m4r3 q3 vx vy vz Vec4.get Mat4.Identity].
  unfold Vec4.dot. cbn [q0 q1 q2 q3].
  rewrite !fmul_nan_r. cbn [fadd]. repeat split; reflexivity.
Qed.

Lemma mulv_undef (T : Mat4Float) (p4 : Vec4Float) :
  q3 (m4r0 T) = NaN -> q3 (m4r1 T) = NaN -> q3 (m4r2 T) = NaN ->
  Vec4.head3 (Mat4.mulv T p4) = Vec3.undef.
Proof.
  intros H0 H1 H2. unfold Vec4.head3, Mat4.mulv. cbn [q0 q1 q2].
  rewrite !vec4_dot_nan_last by assumption. reflexivity.
Qed.

Section RigidProperties.

Variable decompose : Mat4Float -> EigenVectorDecomposer.

(** The normals leave [rigid_transformation] as they entered it. *)
Lemma rigid_transformation_normals (ioFeatures inCorrespondingFeatures : FeatureMat)
  (inWeights : VecDynFloat) (paramScaling : bool) :
  let out :=
    snd (rigid_transformation decompose ioFeatures inCorrespondingFeatures
                              inWeights paramScaling) in
  length out = length ioFeatures /\ map normal out = map normal ioFeatures.
Proof.
  cbv zeta. unfold rigid_transformation. cbn [snd].
  apply apply_transformation_normals.
Qed.

(** With zero weights the weight sum is zero, or not finite. *)
Lemma weighted_sums_zero_weights (FP CP : Vec3Mat) (inWeights : VecDynFloat)
  (n : nat) :
  Forall (fun w => w = Fin 0) inWeights ->
  let sumWeights := snd (weighted_sums FP CP inWeights n) in
  sumWeights = NaN \/ sumWeights = Fin 0.
Proof.
  intros Hz. cbv zeta. unfold weighted_sums.
  apply (for_loop_invariant
           (fun st : Vec3Float * Vec3Float * float =>
              snd st = NaN \/ snd st = Fin 0)).
  - right. reflexivity.
  - intros i [[a b] s] _ Hs. cbn [snd] in *.
    apply fadd_zero_sums; [exact Hs |].
    destruct (at_all_zero inWeights i Hz) as [-> | ->]; auto.
Qed.

Lemma rigid_estimate_zero_weights
  (ioFeatures inCorrespondingFeatures : FeatureMat)
  (inWeights : VecDynFloat) (paramScaling : bool) :
  Forall (fun w => w = Fin 0) inWeights ->
  let e := rigid_estimate decompose ioFeatures inCorrespondingFeatures
                          inWeights paramScaling in
  (est_sumWeights e = NaN \/ est_sumWeights e = Fin 0) /\
  est_floatingCentroid e = Vec3.undef /\
  est_correspondingCentroid e = Vec3.undef /\
  est_translation e = Vec3.undef.
Proof.
  intros Hz. cbv zeta. unfold rigid_estimate.
  destruct (rigid_positions ioFeatures inCorrespondingFeatures)
    as [[tr FP] CP].
  pose proof (weighted_sums_zero_weights FP CP inWeights
                (length ioFeatures) Hz) as Hs.
  cbv zeta in Hs.
  destruct (weighted_sums FP CP inWeights (length ioFeatures)) as [[fs cs] sw].
  cbn [snd] in Hs.
  cbn [est_sumWeights est_floatingCentroid est_correspondingCentroid
       est_translation].
  rewrite !(vec3_div_by_zero_sum _ sw Hs).
  repeat split; try reflexivity. exact Hs.
Qed.

Lemma rigid_transformation_zero_weights_rows
  (ioFeatures inCorrespondingFeatures : FeatureMat)
  (inWeights : VecDynFloat) (paramScaling : bool) (i : nat) :
  Forall (fun w => w = Fin 0) inWeights ->
  (i < length ioFeatures)%nat ->
  position
    (Feature.row
       (snd (rigid_transformation decompose ioFeatures inCorrespondingFeatures
                                  inWeights paramScaling)) i)
  = Vec3.undef.
Proof.
  intros Hz Hi. unfold rigid_transformation. cbn [snd].
  destruct (rigid_estimate_zero_weights ioFeatures inCorrespondingFeatures
              inWeights paramScaling Hz) as (_ & _ & _ & Ht).
  cbv zeta in Ht. rewrite Ht.
  apply (apply_transformation_rows _ _ (fun v => v = Vec3.undef));
    [| exact Hi | exact Hi].
  intros p4.
  destruct (transformation_matrix_undef
              (est_scale (rigid_estimate decompose ioFeatures
                            inCorrespondingFeatures inWeights paramScaling))
              (est_rotation (rigid_estimate decompose ioFeatures
                               inCorrespondingFeatures inWeights paramScaling)))
    as (H0 & H1 & H2).
  apply mulv_undef; assumption.
Qed.

(** C3, as the code has it.  [rigid_transformation] rewrites columns 0..2
    of every row and nothing else: the number of rows and the normal part
    (columns 3..5) of every row are returned exactly as received, neither
    rotated nor renormalised. *)
Theorem rigid_transformation_leaves_normals
  (ioFeatures inCorrespondingFeatures : FeatureMat)
  (inWeights : VecDynFloat) (paramScaling : bool) :
  let out :=
    snd (rigid_transformation decompose ioFeatures inCorrespondingFeatures
                              inWeights paramScaling) in
  length out = length ioFeatures /\
  map normal out = map normal ioFeatures /\
  forall i, normal (Feature.row out i) = normal (Feature.row ioFeatures i).
Proof.
  cbv zeta.
  destruct (rigid_transformation_normals ioFeatures inCorrespondingFeatures
              inWeights paramScaling) as [Hl Hn].
  cbv zeta in Hl, Hn. repeat split; try assumption.
  intros i. unfold Feature.row. rewrite <- !(map_nth normal), Hn.
  reflexivity.
Qed.

(** The only messages of [rigid_transformation] are the warning on the
    shape of the input and the failure of the eigensolver. *)
Lemma rigid_transformation_messages
  (ioFeatures inCorrespondingFeatures : FeatureMat)
  (inWeights : VecDynFloat) (paramScaling : bool) (m : Diagnostic) :
  In m (fst (rigid_transformation decompose ioFeatures inCorrespondingFeatures
                                  inWeights paramScaling)) ->
  m = RigidInputShapeWarning \/ m = EigenDecomposerFailed.
Proof.
  unfold rigid_transformation, rigid_messages. cbn [fst].
  destruct (est_transposed _), (est_decomposed _); simpl; intuition.
Qed.

(** C8, as the code has it.  [rigid_transformation] has no check on the
    weight sum.  With a weight vector of zeros it divides both centroid sums
    by a sum that is zero (or not finite), goes on to the application loop,
    and overwrites the position of every row with values that are not
    finite; it neither keeps the positions it received nor stops, and the
    messages it may write are the shape warning and the eigensolver's
    failure, none about the weights. *)
Theorem rigid_transformation_zero_weights
  (ioFeatures inCorrespondingFeatures : FeatureMat)
  (inWeights : VecDynFloat) (paramScaling : bool) :
  Forall (fun w => w = Fin 0) inWeights ->
  let e := rigid_estimate decompose ioFeatures inCorrespondingFeatures
                          inWeights paramScaling in
  let result :=
    rigid_transformation decompose ioFeatures inCorrespondingFeatures
                         inWeights paramScaling in
  (est_sumWeights e = NaN \/ est_sumWeights e = Fin 0) /\
  est_translation e = Vec3.undef /\
  (forall m, In m (fst result) ->
     m = RigidInputShapeWarning \/ m = EigenDecomposerFailed) /\
  length (snd result) = length ioFeatures /\
  forall i, (i < length ioFeatures)%nat ->
    position (Feature.row (snd result) i) = Vec3.undef.
Proof.
  intros Hz. cbv zeta.
  destruct (rigid_estimate_zero_weights ioFeatures inCorrespondingFeatures
              inWeights paramScaling Hz) as (Hs & _ & _ & Ht).
  cbv zeta in Hs, Ht.
  destruct (rigid_transformation_normals ioFeatures inCorrespondingFeatures
              inWeights paramScaling) as [Hl _].
  cbv zeta in Hl.
  split; [exact Hs |]. split; [exact Ht |]. split.
  - intros m. apply rigid_transformation_messages.
  - split; [exact Hl |].
    intros i Hi. apply rigid_transformation_zero_weights_rows; assumption.
Qed.

End RigidProperties.

Lemma rigid_transformation_zero_weights_witness :
  let e := rigid_estimate Samples.decompose_failed Samples.floating7
             Samples.corresponding7 Samples.zeroWeights7 false in
  let result :=
    rigid_transformation Samples.decompose_failed Samples.floating7
      Samples.corresponding7 Samples.zeroWeights7 false in
  (est_sumWeights e = NaN \/ est_sumWeights e = Fin 0) /\
  est_translation e = Vec3.undef /\
  (forall m, In m (fst result) ->
     m = RigidInputShapeWarning \/ m = EigenDecomposerFailed) /\
  length (snd result) = length Samples.floating7 /\
  forall i, (i < length Samples.floating7)%nat ->
    position (Feature.row (snd result) i) = Vec3.undef.
Proof.
  apply (rigid_transformation_zero_weights Samples.decompose_failed
           Samples.floating7 Samples.corresponding7 Samples.zeroWeights7 false).
  unfold Samples.zeroWeights7. simpl. repeat constructor.
Defined.

(** C8, the claim as first stated fails: the seven-vertex input with all
    weights zero and an eigensolver that reports failure.  The failure is
    written to [cerr], the function does not stop, and all seven positions
    are overwritten with values that are not finite. *)
Lemma rigid_transformation_writes_after_zero_weights :
  fst (rigid_transformation Samples.decompose_failed Samples.floating7
         Samples.corresponding7 Samples.zeroWeights7 false)
  = [EigenDecomposerFailed] /\
  map position
    (snd (rigid_transformation Samples.decompose_failed Samples.floating7
            Samples.corresponding7 Samples.zeroWeights7 false))
  = repeat Vec3.undef 7.
Proof.
  split; [reflexivity |].
  assert (Hz : Forall (fun w => w = Fin 0) Samples.zeroWeights7)
    by (unfold Samples.zeroWeights7; simpl; repeat constructor).
  pose proof (rigid_transformation_zero_weights_rows Samples.decompose_failed
                Samples.floating7 Samples.corresponding7 Samples.zeroWeights7
                false) as Hrow.
  destruct (rigid_transformation_normals Samples.decompose_failed
              Samples.floating7 Samples.corresponding7 Samples.zeroWeights7
              false) as [Hl _].
  cbv zeta in Hl.
  set (out := snd (rigid_transformation Samples.decompose_failed
                     Samples.floating7 Samples.corresponding7
                     Samples.zeroWeights7 false)) in *.
  apply (nth_ext _ _ Vec3.undef Vec3.undef).
  - rewrite length_map, Hl. reflexivity.
  - intros i Hi. rewrite length_map, Hl in Hi.
    rewrite nth_repeat.
    rewrite (nth_indep _ Vec3.undef (position Feature.undef))
      by (rewrite length_map, Hl; exact Hi).
    rewrite map_nth. apply (Hrow i Hz Hi).
Qed.

(** ** Where the rigid transformation sends a position *)

(** The application loop, with an invariant of the carried [position4d]. *)
Lemma apply_transformation_rows_carried (T : Mat4Float) (FP : Vec3Mat)
  (I : Vec4Float -> Prop) (P : nat -> Vec3Float -> Prop) (n : nat)
  (feats : FeatureMat) :
  I Vec4.Ones ->
  (forall i p4, (i < n)%nat -> I p4 ->
     I (Mat4.mulv T (Vec4.set_head3 p4 (row3 FP i))) /\
     P i (Vec4.head3 (Mat4.mulv T (Vec4.set_head3 p4 (row3 FP i))))) ->
  forall i, (i < n)%nat -> (i < length feats)%nat ->
    P i (position (Feature.row (apply_transformation T FP n feats) i)).
Proof.
  intros H0 Hstep. unfold apply_transformation.
  set (body := fun (i : nat) '(position4d, ioFeatures) =>
         let position4d := Vec4.set_head3 position4d (row3 FP i) in
         let position4d := Mat4.mulv T position4d in
         (position4d,
          Feature.set_position ioFeatures i (Vec4.head3 position4d))).
  assert (Hall : forall k, (k <= n)%nat ->
            let st := for_loop k body (Vec4.Ones, feats) in
            I (fst st) /\
            forall i, (i < k)%nat -> (i < length feats)%nat ->
              P i (position (Feature.row (snd st) i))).
  { induction k as [| k IH]; intros Hk; cbv zeta.
    - split; [exact H0 | intros; lia].
    - rewrite for_loop_S.
      destruct (IH (Nat.lt_le_incl _ _ Hk)) as [HI HP].
      pose proof (apply_transformation_state_length T FP k feats
                    (for_loop k body (Vec4.Ones, feats)) eq_refl) as [Hlen _].
      destruct (for_loop k body (Vec4.Ones, feats)) as [p4 fs].
      cbn [fst snd] in *.
      change (body k (p4, fs))
        with (Mat4.mulv T (Vec4.set_head3 p4 (row3 FP k)),
              Feature.set_position fs k
                (Vec4.head3 (Mat4.mulv T (Vec4.set_head3 p4 (row3 FP k))))).
      cbn [fst snd].
      destruct (Hstep k p4 Hk HI) as [HI' HP'].
      split; [exact HI' |].
      intros i Hi Hl. destruct (Nat.eq_dec i k) as [-> | Hne].
      + rewrite set_position_row_eq by lia. exact HP'.
      + rewrite set_position_row_neq by congruence. apply HP; [lia | exact Hl]. }
  intros i Hi Hl. apply (Hall n (Nat.le_refl n)); assumption.
Qed.

(** The matrix of step 10 and its action, on finite data. *)
Lemma transformation_matrix_action (s : R) (r00 r01 r02 r10 r11 r12 r20 r21 r22 : R)
  (tx ty tz x y z : R) :
  let Rm := mkMat3 (mkVec3 (Fin r00) (Fin r01) (Fin r02))
                   (mkVec3 (Fin r10) (Fin r11) (Fin r12))
                   (mkVec3 (Fin r20) (Fin r21) (Fin r22)) in
  let t := mkVec3 (Fin tx) (Fin ty) (Fin tz) in
  let f := mkVec3 (Fin x) (Fin y) (Fin z) in
  let p4 := Mat4.mulv (transformation_matrix (Fin s) Rm t)
                      (mkVec4 (Fin x) (Fin y) (Fin z) (Fin 1)) in
  q3 p4 = Fin 1 /\
  Vec4.head3 p4 = Mat3.mulv (Mat3.scale (Fin s) Rm) (Vec3.add f t).
Proof.
  cbv [transformation_matrix Mat4.mul Mat4.mulv Mat4.set_block_0_0
       Mat4.set_block_0_3 Mat4.Identity Mat4.col Mat3.scale Mat3.mulv
       Vec3.scale Vec3.add Vec3.dot Vec4.dot Vec4.get Vec4.head3
       m4r0 m4r1 m4r2 m4r3 q0 q1 q2 q3 m3r0 m3r1 m3r2 vx vy vz
       fmul fadd fzero fone].
  split; fin_goals idtac; ring.
Qed.

Section RigidPosition.

Variable decompose : Mat4Float -> EigenVectorDecomposer.

(** X4.  With more than six vertices and finite data,
    [rigid_transformation] sends the position f of a row to s R (f + t): the
    translation of step 9 is added before the scaled rotation is applied. *)
Lemma rigid_transformation_position
  (ioFeatures inCorrespondingFeatures : FeatureMat)
  (inWeights : VecDynFloat) (paramScaling : bool) (i : nat) :
  let e := rigid_estimate decompose ioFeatures inCorrespondingFeatures
                          inWeights paramScaling in
  let out :=
    snd (rigid_transformation decompose ioFeatures inCorrespondingFeatures
                              inWeights paramScaling) in
  (NUM_FEATURES < length ioFeatures)%nat ->
  (forall j, (j < length ioFeatures)%nat ->
             Vec3.finite (position (Feature.row ioFeatures j))) ->
  is_finite (est_scale e) -> Mat3.finite (est_rotation e) ->
  Vec3.finite (est_translation e) ->
  (i < length ioFeatures)%nat ->
  position (Feature.row out i)
  = Mat3.mulv (Mat3.scale (est_scale e) (est_rotation e))
              (Vec3.add (position (Feature.row ioFeatures i))
                        (est_translation e)).
Proof.
  intros e out Hn Hfin Hs HR Ht Hi. subst out.
  unfold rigid_transformation. cbn [snd]. fold e.
  assert (Hpos : snd (fst (rigid_positions ioFeatures inCorrespondingFeatures))
                 = Feature.leftCols3 ioFeatures).
  { unfold rigid_positions.
    replace (NUM_FEATURES <? length ioFeatures)%nat with true
      by (symmetry; apply Nat.ltb_lt; exact Hn).
    reflexivity. }
  rewrite Hpos.
  destruct Hs as [s Hs]. rewrite Hs.
  destruct (est_rotation e) as [[a00 a01 a02] [a10 a11 a12] [a20 a21 a22]].
  destruct HR as ((H00 & H01 & H02) & (H10 & H11 & H12) & (H20 & H21 & H22)).
  cbn [m3r0 m3r1 m3r2 vx vy vz] in *.
  destruct H00 as [r00 ->], H01 as [r01 ->], H02 as [r02 ->],
    H10 as [r10 ->], H11 as [r11 ->], H12 as [r12 ->],
    H20 as [r20 ->], H21 as [r21 ->], H22 as [r22 ->].
  destruct (est_translation e) as [t0 t1 t2].
  destruct Ht as (Hx & Hy & Hz). cbn [vx vy vz] in *.
  destruct Hx as [tx ->], Hy as [ty ->], Hz as [tz ->].
  apply (apply_transformation_rows_carried _ _
           (fun p4 => q3 p4 = Fin 1)
           (fun i v =>
              v = Mat3.mulv
                    (Mat3.scale (Fin s)
                       (mkMat3 (mkVec3 (Fin r00) (Fin r01) (Fin r02))
                               (mkVec3 (Fin r10) (Fin r11) (Fin r12))
                               (mkVec3 (Fin r20) (Fin r21) (Fin r22))))
                    (Vec3.add (position (Feature.row ioFeatures i))
                              (mkVec3 (Fin tx) (Fin ty) (Fin tz)))));
    [reflexivity | | exact Hi | exact Hi].
  intros j [p0 p1 p2 p3] Hj Hq. cbn [q3] in Hq. subst p3.
  assert (Hrow : row3 (Feature.leftCols3 ioFeatures) j
                 = position (Feature.row ioFeatures j)).
  { unfold row3, Feature.leftCols3, Feature.row.
    rewrite (nth_indep _ Vec3.undef (position Feature.undef))
      by (rewrite length_map; exact Hj).
    apply map_nth. }
  rewrite Hrow.
  specialize (Hfin j Hj).
  destruct (position (Feature.row ioFeatures j)) as [x y z].
  destruct Hfin as ([x0 Hx] & [y0 Hy] & [z0 Hz]). cbn [vx vy vz] in *.
  subst x y z. unfold Vec4.set_head3. cbn [vx vy vz q3].
  apply (transformation_matrix_action s r00 r01 r02 r10 r11 r12 r20 r21 r22
           tx ty tz x0 y0 z0).
Qed.

End RigidPosition.

(** ** Rigid transformation on the seven-vertex input *)

Lemma sample_positions :
  rigid_positions Samples.floating7 Samples.corresponding7
  = (true, Feature.leftCols3 Samples.floating7,
     Feature.leftCols3 Samples.corresponding7).
Proof. reflexivity. Qed.

Lemma sample_sums :
  weighted_sums (Feature.leftCols3 Samples.floating7)
                (Feature.leftCols3 Samples.corresponding7) Samples.weights7 7
  = (Samples.vec 0 0 0, Samples.vec 7 0 0, Fin 7).
Proof.
  unfold weighted_sums, Samples.floating7, Samples.corresponding7,
    Samples.weights7, Samples.vec, for_loop, Feature.leftCols3.
  cbn [map position seq fold_left repeat row3 at_ nth].
  unfold Vec3.add, Vec3.scale, Vec3.Zero. cbn [vx vy vz]. float_eval.
  fin_goals lra.
Qed.

Lemma sample_quaternion :
  select_quaternion Samples.decomposition7
  = mkVec4 (Fin 0) (Fin 0) (Fin 0) (Fin 1).
Proof.
  unfold select_quaternion, Samples.decomposition7, for_loop, fzero.
  cbn [seq fold_left eigenvalues eigenvectors Vec4.get q0 q1 q2 q3].
  float_eval. reflexivity.
Qed.

Lemma sample_rotation :
  rotation_matrix (mkVec4 (Fin 0) (Fin 0) (Fin 0) (Fin 1))
  = mkMat3 (Samples.vec (-1) 0 0) (Samples.vec 0 (-1) 0) (Samples.vec 0 0 1).
Proof.
  unfold rotation_matrix, Samples.vec. cbn [q0 q1 q2 q3]. float_eval.
  fin_goals lra.
Qed.

Lemma sample_estimate :
  rigid_estimate Samples.decompose7 Samples.floating7 Samples.corresponding7
                 Samples.weights7 false
  = mkEstimate true true (Samples.vec 0 0 0) (Samples.vec 1 0 0) (Fin 7)
      (mkMat3 (Samples.vec (-1) 0 0) (Samples.vec 0 (-1) 0) (Samples.vec 0 0 1))
      (Fin 1) (Samples.vec 1 0 0).
Proof.
  unfold rigid_estimate. rewrite sample_positions.
  change (length Samples.floating7) with 7%nat. rewrite sample_sums.
  unfold Samples.decompose7. rewrite sample_quaternion, sample_rotation.
  unfold estimate_scale, rigid_translation, Mat3.mulv, Mat3.scale, Vec3.dot,
    Vec3.scale, Vec3.sub, Vec3.div, Samples.vec.
  cbn [m3r0 m3r1 m3r2 vx vy vz]. float_eval.
  fin_goals lra.
Qed.

Lemma sample_matrix :
  transformation_matrix (Fin 1)
    (mkMat3 (Samples.vec (-1) 0 0) (Samples.vec 0 (-1) 0) (Samples.vec 0 0 1))
    (Samples.vec 1 0 0)
  = mkMat4 (mkVec4 (Fin (-1)) (Fin 0) (Fin 0) (Fin (-1)))
           (mkVec4 (Fin 0) (Fin (-1)) (Fin 0) (Fin 0))
           (mkVec4 (Fin 0) (Fin 0) (Fin 1) (Fin 0))
           (mkVec4 (Fin 0) (Fin 0) (Fin 0) (Fin 1)).
Proof.
  cbv [transformation_matrix Mat4.mul Mat4.set_block_0_0
    Mat4.set_block_0_3 Mat4.Identity Mat4.col Mat3.scale Vec3.scale
    Vec4.dot Samples.vec Vec4.get m4r0 m4r1 m4r2 m4r3 q0 q1 q2 q3 m3r0 m3r1 m3r2 vx vy vz
    fmul fadd fsub fzero fone].
  fin_goals lra.
Qed.

Lemma sample_cross_sum :
  for_loop 7
    (fun i crossVarianceMatrix =>
       Mat3.add crossVarianceMatrix
         (Mat3.outer
            (Vec3.scale (at_ Samples.weights7 i)
                        (row3 (Feature.leftCols3 Samples.floating7) i))
            (row3 (Feature.leftCols3 Samples.corresponding7) i)))
    Mat3.Zero
  = mkMat3 (Samples.vec (-2) 0 0) (Samples.vec 0 (-8) 0) (Samples.vec 0 0 18).
Proof.
  cbv [for_loop seq fold_left Mat3.add Mat3.outer Mat3.Zero Vec3.add
       Vec3.scale Vec3.Zero at_ row3 nth Samples.weights7 repeat
       Feature.leftCols3 map position Samples.floating7
       Samples.corresponding7 Samples.vec Samples.up m3r0 m3r1 m3r2 vx vy vz
       fmul fadd fzero].
  fin_goals lra.
Qed.

Lemma sample_Q :
  build_Q
    (cross_variance (Feature.leftCols3 Samples.floating7)
       (Feature.leftCols3 Samples.corresponding7) Samples.weights7 7
       (Samples.vec 0 0 0) (Samples.vec 1 0 0) (Fin 7))
  = Samples.Q7.
Proof.
  unfold cross_variance. rewrite sample_cross_sum.
  unfold Mat3.div, Vec3.div, Samples.vec. cbn [m3r0 m3r1 m3r2 vx vy vz].
  rewrite !fdiv_fin by lra.
  cbv [build_Q Mat3.sub Mat3.add Mat3.outer Mat3.transpose Mat3.trace
       Mat3.scale Mat3.Identity Vec3.add Vec3.sub Vec3.scale
       m3r0 m3r1 m3r2 vx vy vz fmul fadd fsub fzero fone Samples.Q7].
  fin_goals lra.
Qed.

(** The decomposition handed to the code on that input is the
    eigendecomposition of its matrix Q: column [k] is an eigenvector for
    eigenvalue [k]. *)
Lemma sample_decomposition_is_eigen :
  forall k, (k < 4)%nat ->
    Mat4.mulv Samples.Q7 (Mat4.col (eigenvectors Samples.decomposition7) k)
    = Vec4.scale (Vec4.get (eigenvalues Samples.decomposition7) k)
                 (Mat4.col (eigenvectors Samples.decomposition7) k).
Proof.
  intros k Hk.
  destruct k as [| [| [| [| k]]]]; try lia;
    cbv [Mat4.mulv Mat4.col Vec4.scale Vec4.get Vec4.dot Samples.Q7
         Samples.decomposition7 eigenvalues eigenvectors
         m4r0 m4r1 m4r2 m4r3 q0 q1 q2 q3 fmul fadd];
    fin_goals lra.
Qed.

(** C2, where the code departs from it.  The code multiplies the rotation
    matrix by the translation matrix, so a position f becomes
    s R (f + t) and not s R f + t.  On the seven-vertex input (unit
    weights, no scaling) the rotation found is the half turn about z and
    the translation is t = (1, 0, 0): the first position (1, 0, 0) is sent
    to (-2, 0, 0), where s R f + t is (0, 0, 0), its correspondence; every
    other position misses its correspondence by (-2, 0, 0) as well. *)
Theorem rigid_transformation_translates_before_rotating :
  map position
    (snd (rigid_transformation Samples.decompose7 Samples.floating7
            Samples.corresponding7 Samples.weights7 false))
  = [ Samples.vec (-2) 0 0; Samples.vec 0 0 0; Samples.vec (-1) (-2) 0;
      Samples.vec (-1) 2 0; Samples.vec (-1) 0 3; Samples.vec (-1) 0 (-3);
      Samples.vec (-1) 0 0 ].
Proof.
  unfold rigid_transformation. cbn [snd]. rewrite sample_estimate.
  cbn [est_scale est_rotation est_translation]. rewrite sample_matrix.
  rewrite sample_positions. cbn [fst snd].
  cbv [apply_transformation for_loop Samples.floating7 Samples.vec Samples.up
       Feature.leftCols3 Feature.set_position length map position seq
       fold_left row3 nth nth_error list_set normal snd
       Mat4.mulv Vec4.dot Vec4.set_head3 Vec4.head3 Vec4.Ones
       m4r0 m4r1 m4r2 m4r3 q0 q1 q2 q3 vx vy vz fmul fadd fzero fone].
  fin_goals lra.
Qed.

(** C3, the claim as first stated fails: on the seven-vertex input the
    rotation found is the half turn about z, yet the first normal leaves as
    it entered, (2, 0, 0): not turned to (-2, 0, 0), and of squared length 4,
    not 1. *)
Lemma rigid_transformation_normal_not_rotated :
  est_rotation (rigid_estimate Samples.decompose7 Samples.floating7
                  Samples.corresponding7 Samples.weights7 false)
  = mkMat3 (Samples.vec (-1) 0 0) (Samples.vec 0 (-1) 0) (Samples.vec 0 0 1) /\
  normal (Feature.row
            (snd (rigid_transformation Samples.decompose7 Samples.floating7
                    Samples.corresponding7 Samples.weights7 false)) 0)
  = Samples.vec 2 0 0 /\
  Vec3.squaredNorm (Samples.vec 2 0 0) = Fin 4.
Proof.
  split; [| split].
  - rewrite sample_estimate. reflexivity.
  - destruct (rigid_transformation_normals Samples.decompose7
                Samples.floating7 Samples.corresponding7 Samples.weights7
                false) as [_ Hn].
    cbv zeta in Hn. unfold Feature.row.
    rewrite <- (map_nth normal), Hn. reflexivity.
  - cbv [Vec3.squaredNorm Vec3.dot Samples.vec vx vy vz fmul fadd].
    fin_goals lra.
Qed.

(** ** The general statements at work on the worked inputs *)

Lemma affinity_to_correspondences_flags_rounded_witness :
  let flag :=
    at_ (snd (affinity_to_correspondences Samples.targetFeatures
                Samples.targetFlags Samples.affinity
                default_flag_rounding_limit)) 0 in
  let weighted :=
    affinity_row_times_flags (nth 0 Samples.affinity []) Samples.targetFlags in
  (flag = Fin 0 \/ flag = Fin 1) /\
  (flag = Fin 1 <-> fgt weighted default_flag_rounding_limit = true).
Proof.
  apply (affinity_to_correspondences_flags_rounded Samples.targetFeatures
           Samples.targetFlags Samples.affinity default_flag_rounding_limit 0);
    simpl; lia.
Defined.

Lemma gaussian_interpolate_weighted_average_witness :
  let vs := [Samples.unit_x] in
  let ps := [Samples.origin] in
  let c := fun i => fval (combinedWeight Samples.origin ps [Fin 1] (Fin 1) i) in
  0 < rsum c 1 /\
  gaussian_interpolate_vector_field Samples.origin vs ps [Fin 1] (Fin 1)
  = mkVec3 (Fin (rsum (fun i => c i * fval (vx (row3 vs i))) 1 / rsum c 1))
           (Fin (rsum (fun i => c i * fval (vy (row3 vs i))) 1 / rsum c 1))
           (Fin (rsum (fun i => c i * fval (vz (row3 vs i))) 1 / rsum c 1)).
Proof.
  apply (gaussian_interpolate_weighted_average Samples.origin
           [Samples.unit_x] [Samples.origin] [Fin 1] 1 0).
  - lra.
  - repeat split; eexists; reflexivity.
  - intros [| i] Hi; simpl in Hi; [| lia].
    repeat split; try (eexists; reflexivity).
    exists 1. split; [reflexivity | lra].
  - simpl. lia.
  - exists 1. split; [reflexivity | lra].
Defined.

Lemma viscoelastic_positions_follow_field_witness :
  let out :=
    viscoelastic_transformation Samples.one_point_neighbours
      Samples.oneFloating Samples.oneCorresponding [Fin 1] [Vec3.Zero]
      1 (Fin 1) 1 1 in
  position (Feature.row (fst out) 0)
  = Vec3.add (position (Feature.row Samples.oneFloating 0))
             (row3 (snd out) 0).
Proof.
  apply (viscoelastic_positions_follow_field Samples.one_point_neighbours
           Samples.oneFloating Samples.oneCorresponding [Fin 1] [Vec3.Zero]
           1 (Fin 1) 1 1 0); simpl; lia.
Defined.

Lemma rigid_transformation_position_witness :
  let e := rigid_estimate Samples.decompose7 Samples.floating7
             Samples.corresponding7 Samples.weights7 false in
  let out :=
    snd (rigid_transformation Samples.decompose7 Samples.floating7
           Samples.corresponding7 Samples.weights7 false) in
  position (Feature.row out 0)
  = Mat3.mulv (Mat3.scale (est_scale e) (est_rotation e))
              (Vec3.add (position (Feature.row Samples.floating7 0))
                        (est_translation e)).
Proof.
  apply (rigid_transformation_position Samples.decompose7 Samples.floating7
           Samples.corresponding7 Samples.weights7 false 0).
  - unfold NUM_FEATURES. simpl. lia.
  - intros j Hj. simpl in Hj.
    do 7 (destruct j as [| j]; [repeat split; eexists; reflexivity |]). lia.
  - rewrite sample_estimate. eexists. reflexivity.
  - rewrite sample_estimate. repeat split; eexists; reflexivity.
  - rewrite sample_estimate. repeat split; eexists; reflexivity.
  - simpl. lia.
Defined.

(** * Further properties of the code *)

(** ** The rotation built from the quaternion *)

(** X5.  The matrix of step 7, built from a quaternion of unit length, is an
    isometry: it keeps the scalar product of any two vectors, hence lengths
    and angles. *)
Theorem rotation_matrix_keeps_dot (a b c d ux uy uz wx wy wz : R) :
  a * a + b * b + c * c + d * d = 1 ->
  let Rm := rotation_matrix (vec4 a b c d) in
  Vec3.dot (Mat3.mulv Rm (vec3 ux uy uz)) (Mat3.mulv Rm (vec3 wx wy wz))
  = Vec3.dot (vec3 ux uy uz) (vec3 wx wy wz).
Proof.
  intros Hunit.
  cbv [rotation_matrix vec4 vec3 Mat3.mulv Vec3.dot q0 q1 q2 q3
       m3r0 m3r1 m3r2 vx vy vz fmul fadd fsub].
  apply (f_equal Fin).
  transitivity ((a * a + b * b + c * c + d * d) *
                (a * a + b * b + c * c + d * d) *
                (ux * wx + uy * wy + uz * wz)).
  - ring.
  - rewrite Hunit. ring.
Qed.

Lemma rotation_matrix_keeps_dot_witness :
  let Rm := rotation_matrix (vec4 0 0 0 1) in
  Vec3.dot (Mat3.mulv Rm (vec3 1 2 3)) (Mat3.mulv Rm (vec3 4 5 6))
  = Vec3.dot (vec3 1 2 3) (vec3 4 5 6).
Proof.
  apply (rotation_matrix_keeps_dot 0 0 0 1 1 2 3 4 5 6). lra.
Defined.

(** X6.  The rotation does not depend on the sign of the eigenvector the
    solver returns: a quaternion and its opposite give the same matrix,
    finite or not. *)
Theorem rotation_matrix_sign_independent (rotQuat : Vec4Float) :
  rotation_matrix (Vec4.scale (Fin (-1)) rotQuat) = rotation_matrix rotQuat.
Proof.
  destruct rotQuat as [[a |] [b |] [c |] [d |]];
    cbv [rotation_matrix Vec4.scale q0 q1 q2 q3 fmul fadd fsub];
    try reflexivity; fin_goals idtac; try ring; reflexivity.
Qed.

(** ** The matrix handed to the eigensolver *)

Lemma fadd_comm (a b : float) : fadd a b = fadd b a.
Proof.
  destruct a, b; simpl; try reflexivity. apply (f_equal Fin). ring.
Qed.

(** X7.  The matrix Q of step 5 is symmetric for every cross-variance
    matrix, as the self-adjoint eigensolver requires; and on a finite
    cross-variance matrix its trace is zero, so that its largest eigenvalue
    is never negative. *)
Theorem build_Q_symmetric_traceless (crossVarianceMatrix : Mat3Float) :
  transpose4 (build_Q crossVarianceMatrix) = build_Q crossVarianceMatrix /\
  (Mat3.finite crossVarianceMatrix ->
   trace4 (build_Q crossVarianceMatrix) = Fin 0).
Proof.
  destruct crossVarianceMatrix as [[a00 a01 a02] [a10 a11 a12] [a20 a21 a22]].
  split.
  - cbv [transpose4 build_Q Mat4.col Vec4.get Mat3.sub Mat3.add
         Mat3.transpose Mat3.trace Mat3.scale Mat3.Identity Vec3.sub Vec3.add
         Vec3.scale m4r0 m4r1 m4r2 m4r3 q0 q1 q2 q3 m3r0 m3r1 m3r2 vx vy vz].
    f_equal; f_equal; try reflexivity; f_equal; apply fadd_comm.
  - intros ((H00 & H01 & H02) & (H10 & H11 & H12) & (H20 & H21 & H22)).
    cbn [m3r0 m3r1 m3r2 vx vy vz] in *.
    destruct H00 as [r00 ->], H01 as [r01 ->], H02 as [r02 ->],
      H10 as [r10 ->], H11 as [r11 ->], H12 as [r12 ->],
      H20 as [r20 ->], H21 as [r21 ->], H22 as [r22 ->].
    cbv [trace4 build_Q Mat3.sub Mat3.add Mat3.transpose Mat3.trace
         Mat3.scale Mat3.Identity Vec3.sub Vec3.add Vec3.scale
         m4r0 m4r1 m4r2 m4r3 q0 q1 q2 q3 m3r0 m3r1 m3r2 vx vy vz
         fmul fadd fsub fzero fone].
    apply (f_equal Fin). ring.
Qed.

(** ** The eigenvector the code selects *)


(** ** Gaussian averages stay within the values averaged *)

Lemma rsum_le (f g : nat -> R) (n : nat) :
  (forall j, (j < n)%nat -> f j <= g j) -> rsum f n <= rsum g n.
Proof.
  intros H. induction n as [| n IH].
  - unfold rsum, for_loop. simpl. lra.
  - rewrite !rsum_S.
    assert (rsum f n <= rsum g n) by (apply IH; intros; apply H; lia).
    specialize (H n (Nat.lt_succ_diag_r n)). lra.
Qed.

Lemma rsum_scale_r (f : nat -> R) (c : R) (n : nat) :
  rsum (fun j => f j * c) n = rsum f n * c.
Proof.
  rewrite (rsum_ext _ (fun j => c * f j)) by (intros; ring).
  rewrite rsum_scale. ring.
Qed.

(** A weighted mean with non-negative weights of positive sum lies between
    any two bounds of the values. *)
Lemma weighted_mean_bounds (c s : nat -> R) (n : nat) (m M : R) :
  (forall i, (i < n)%nat -> 0 <= c i) -> 0 < rsum c n ->
  (forall i, (i < n)%nat -> m <= s i <= M) ->
  m <= rsum (fun i => c i * s i) n / rsum c n <= M.
Proof.
  intros Hc Hpos Hs.
  assert (Hlo : rsum c n * m <= rsum (fun i => c i * s i) n).
  { rewrite <- rsum_scale_r. apply rsum_le. intros i Hi.
    specialize (Hc i Hi). specialize (Hs i Hi). nra. }
  assert (Hhi : rsum (fun i => c i * s i) n <= rsum c n * M).
  { rewrite <- rsum_scale_r. apply rsum_le. intros i Hi.
    specialize (Hc i Hi). specialize (Hs i Hi). nra. }
  assert (Hq : rsum (fun i => c i * s i) n / rsum c n * rsum c n
               = rsum (fun i => c i * s i) n) by (field; lra).
  set (T := rsum (fun i => c i * s i) n) in *.
  set (S := rsum c n) in *.
  split; apply (Rmult_le_reg_r S); try exact Hpos; lra.
Qed.

(** The combined weights of finite sources with non-negative user weights,
    one of them positive: each is finite and non-negative, their sum is
    positive. *)
Lemma combined_weights_positive (q : Vec3Float) (ps : Vec3Mat)
  (ws : VecDynFloat) (sigma : R) (n k : nat) :
  sigma <> 0 -> Vec3.finite q ->
  (forall i, (i < n)%nat ->
     Vec3.finite (row3 ps i) /\ exists w, at_ ws i = Fin w /\ 0 <= w) ->
  (k < n)%nat -> (exists w, at_ ws k = Fin w /\ 0 < w) ->
  let c := fun i => fval (combinedWeight q ps ws (Fin sigma) i) in
  (forall i, (i < n)%nat -> combinedWeight q ps ws (Fin sigma) i = Fin (c i)) /\
  (forall i, (i < n)%nat -> 0 <= c i) /\
  0 < rsum c n.
Proof.
  intros Hs Hq Hall Hk (wk & Hwk & Hpos) c.
  assert (Hc : forall i, (i < n)%nat ->
            exists g, 0 < g /\
              combinedWeight q ps ws (Fin sigma) i = Fin (g * fval (at_ ws i))).
  { intros i Hi. destruct (Hall i Hi) as (Hp & w & Hw & _).
    apply combinedWeight_finite; try assumption. exists w. exact Hw. }
  assert (Hnn : forall i, (i < n)%nat -> 0 <= c i).
  { intros i Hi. subst c. cbv beta. destruct (Hc i Hi) as (g & Hg & ->).
    destruct (Hall i Hi) as (_ & w & -> & Hw). cbn [fval]. nra. }
  split; [| split].
  - intros i Hi. subst c. cbv beta. destruct (Hc i Hi) as (g & _ & ->).
    reflexivity.
  - exact Hnn.
  - apply (rsum_pos c n k); [exact Hnn | exact Hk |].
    subst c. cbv beta. destruct (Hc k Hk) as (g & Hg & ->).
    rewrite Hwk. cbn [fval]. nra.
Qed.



(** One coordinate of the Gaussian average of a vector field lies between
    the bounds of that coordinate over the sources. *)
Lemma gaussian_interpolate_coordinate (c : Vec3Float -> float)
  (q : Vec3Float) (vs ps : Vec3Mat) (ws : VecDynFloat) (sigma m M : R)
  (k : nat) :
  coordinate c -> sigma <> 0 -> Vec3.finite q ->
  (forall i, (i < length vs)%nat ->
     Vec3.finite (row3 ps i) /\ exists w, at_ ws i = Fin w /\ 0 <= w) ->
  (forall i, (i < length vs)%nat ->
     Vec3.finite (row3 vs i) /\ m <= fval (c (row3 vs i)) <= M) ->
  (k < length vs)%nat -> (exists w, at_ ws k = Fin w /\ 0 < w) ->
  exists r,
    c (gaussian_interpolate_vector_field q vs ps ws (Fin sigma)) = Fin r /\
    m <= r <= M.
Proof.
  intros Hc Hs Hq Hall Hv Hk Hpos.
  destruct (combined_weights_positive q ps ws sigma (length vs) k
              Hs Hq Hall Hk Hpos) as (Hfin & Hnn & Hsum).
  set (w := fun i => fval (combinedWeight q ps ws (Fin sigma) i)) in *.
  assert (Hval :
    gaussian_interpolate_vector_field q vs ps ws (Fin sigma)
    = mkVec3
        (Fin (rsum (fun i => w i * fval (vx (row3 vs i))) (length vs)
              / rsum w (length vs)))
        (Fin (rsum (fun i => w i * fval (vy (row3 vs i))) (length vs)
              / rsum w (length vs)))
        (Fin (rsum (fun i => w i * fval (vz (row3 vs i))) (length vs)
              / rsum w (length vs)))).
  { unfold gaussian_interpolate_vector_field, gaussian_accumulate. cbv zeta.
    rewrite (gaussian_accumulate_prefix q vs ps ws (Fin sigma) (length vs)).
    - unfold Vec3.div. cbn [vx vy vz]. fold w.
      rewrite !fdiv_fin by lra. reflexivity.
    - intros i Hi. apply (Hv i Hi).
    - intros i Hi. rewrite (Hfin i Hi). eexists. reflexivity. }
  rewrite Hval.
  destruct Hc as [-> | [-> | ->]]; cbn [vx vy vz]; eexists;
    (split; [reflexivity |]);
    apply weighted_mean_bounds; try assumption;
    intros i Hi; apply (Hv i Hi).
Qed.

Lemma nth_map_seq {A : Type} (f : nat -> A) (k j : nat) (d : A) :
  (j < k)%nat -> nth j (map f (seq 0 k)) d = f j.
Proof.
  intros Hj. rewrite (nth_indep _ d (f 0%nat))
    by (rewrite length_map, length_seq; exact Hj).
  rewrite map_nth, seq_nth by exact Hj. reflexivity.
Qed.

(** What a loop that assigns row [i] in iteration [i] leaves in the rows it
    has reached. *)
Lemma for_loop_rows_bounded {A : Type} (f : nat -> list A -> A) (d : A)
  (P : nat -> A -> Prop) (n : nat) (l : list A) :
  (forall i l', (i < n)%nat -> P i (f i l')) ->
  forall i, (i < n)%nat -> (i < length l)%nat ->
  P i (nth i (for_loop n (fun i l => list_set l i (f i l)) l) d).
Proof.
  induction n as [| n IH]; intros Hf i Hi Hl; [lia |].
  rewrite for_loop_S.
  set (cur := for_loop n (fun i l => list_set l i (f i l)) l) in *.
  assert (Hlen : length cur = length l)
    by (apply for_loop_length; intros; apply list_set_length).
  destruct (Nat.eq_dec i n) as [-> | Hne].
  - rewrite nth_list_set_eq by lia. apply Hf. lia.
  - rewrite nth_list_set_neq by congruence.
    apply IH; [intros; apply Hf; lia | lia | exact Hl].
Qed.

Section SmoothingBounds.

Variable k_nearest_neighbours :
  Vec3Mat -> Vec3Mat -> nat -> nat -> list (list nat).

(** Row [i] of the smoothed field is the Gaussian average computed for
    vertex [i] from the vectors given, not from rows already smoothed. *)
Lemma gaussian_smoothing_row (inVectors inVectorPositions : Vec3Mat)
  (inVectorWeights : VecDynFloat) (outSmoothedVectors : Vec3Mat)
  (k : nat) (sigma : float) (i : nat) :
  (i < length inVectorPositions)%nat -> (i < length outSmoothedVectors)%nat ->
  row3 (gaussian_smoothing_vector_field k_nearest_neighbours inVectors
          inVectorPositions inVectorWeights outSmoothedVectors k sigma) i
  = smoothed_row k_nearest_neighbours inVectors inVectorPositions
                 inVectorWeights k sigma i.
Proof.
  intros Hi Ho. unfold gaussian_smoothing_vector_field, row3.
  apply (for_loop_rows_bounded
           (fun i _ => smoothed_row k_nearest_neighbours inVectors
                         inVectorPositions inVectorWeights k sigma i)
           Vec3.undef
           (fun i v => v = smoothed_row k_nearest_neighbours inVectors
                             inVectorPositions inVectorWeights k sigma i));
    [| exact Hi | exact Ho].
  intros j l' _. reflexivity.
Qed.

(** The smoothing pass keeps the number of rows and the rows it does not
    reach. *)
Lemma gaussian_smoothing_frame (inVectors inVectorPositions : Vec3Mat)
  (inVectorWeights : VecDynFloat) (outSmoothedVectors : Vec3Mat)
  (k : nat) (sigma : float) :
  let out := gaussian_smoothing_vector_field k_nearest_neighbours inVectors
               inVectorPositions inVectorWeights outSmoothedVectors k sigma in
  length out = length outSmoothedVectors /\
  forall i, (length inVectorPositions <= i)%nat ->
    row3 out i = row3 outSmoothedVectors i.
Proof.
  cbv zeta. unfold gaussian_smoothing_vector_field. split.
  - apply for_loop_length. intros. apply list_set_length.
  - intros i Hi. unfold row3.
    apply (for_loop_invariant
             (fun l => nth i l Vec3.undef = nth i outSmoothedVectors Vec3.undef));
      [reflexivity |].
    intros j x Hj Hx. rewrite nth_list_set_neq by lia. exact Hx.
Qed.

(** One coordinate of the vector computed for a vertex lies between the
    bounds of that coordinate over the field. *)
Lemma smoothed_row_coordinate (c : Vec3Float -> float)
  (inVectors inVectorPositions : Vec3Mat) (inVectorWeights : VecDynFloat)
  (k : nat) (sigma m M : R) (i : nat) :
  let n := length inVectorPositions in
  coordinate c -> sigma <> 0 -> (1 <= k)%nat ->
  neighbours_in_range k_nearest_neighbours inVectorPositions k n ->
  (forall j, (j < n)%nat ->
     Vec3.finite (row3 inVectorPositions j) /\
     (exists w, at_ inVectorWeights j = Fin w /\ 0 < w) /\
     Vec3.finite (row3 inVectors j) /\
     m <= fval (c (row3 inVectors j)) <= M) ->
  (i < n)%nat ->
  exists r,
    c (smoothed_row k_nearest_neighbours inVectors inVectorPositions
                    inVectorWeights k (Fin sigma) i) = Fin r /\
    m <= r <= M.
Proof.
  intros n Hc Hs Hk Hrange Hall Hi. unfold smoothed_row. cbv zeta.
  set (idx := neighbourIndex
                (k_nearest_neighbours inVectorPositions inVectorPositions k
                                      15%nat) i).
  assert (Hidx : forall j, (j < k)%nat -> (idx j < n)%nat)
    by (intros j Hj; apply Hrange; assumption).
  apply (gaussian_interpolate_coordinate c _ _ _ _ sigma m M 0);
    try assumption.
  - apply (Hall i Hi).
  - rewrite length_map, length_seq. intros j Hj.
    destruct (Hall (idx j) (Hidx j Hj)) as (Hp & (w & Hw & Hw0) & _).
    unfold row3, at_ in *. rewrite !nth_map_seq by exact Hj.
    split; [exact Hp |]. exists w. split; [exact Hw | lra].
  - rewrite length_map, length_seq. intros j Hj.
    destruct (Hall (idx j) (Hidx j Hj)) as (_ & _ & Hv & Hb).
    unfold row3 in *. rewrite !nth_map_seq by exact Hj.
    split; assumption.
  - rewrite length_map, length_seq. lia.
  - destruct (Hall (idx 0%nat) (Hidx 0%nat Hk)) as (_ & Hw & _).
    unfold at_ in *. rewrite nth_map_seq by lia. exact Hw.
Qed.


(** X11.  A smoothing pass writes exactly the rows of the vertices: the
    number of rows of the output is kept, rows past the number of positions
    keep their content, and row [i] receives the Gaussian average computed
    for vertex [i] from the vectors given, whatever the output held and
    whatever the pass has already written. *)
Theorem gaussian_smoothing_rows_written (inVectors inVectorPositions : Vec3Mat)
  (inVectorWeights : VecDynFloat) (outSmoothedVectors : Vec3Mat)
  (k : nat) (sigma : float) :
  let out := gaussian_smoothing_vector_field k_nearest_neighbours inVectors
               inVectorPositions inVectorWeights outSmoothedVectors k sigma in
  length out = length outSmoothedVectors /\
  (forall i, (length inVectorPositions <= i)%nat ->
     row3 out i = row3 outSmoothedVectors i) /\
  (forall i, (i < length inVectorPositions)%nat ->
             (i < length outSmoothedVectors)%nat ->
     row3 out i = smoothed_row k_nearest_neighbours inVectors
                    inVectorPositions inVectorWeights k sigma i).
Proof.
  cbv zeta.
  destruct (gaussian_smoothing_frame inVectors inVectorPositions
              inVectorWeights outSmoothedVectors k sigma) as [Hl Hf].
  cbv zeta in Hl, Hf. split; [exact Hl |]. split; [exact Hf |].
  intros i Hi Ho. apply gaussian_smoothing_row; assumption.
Qed.

End SmoothingBounds.

(** ** What the viscoelastic transformation keeps *)

Lemma repeat_loop_invariant {S : Type} (P : S -> Prop) (n : nat)
  (body : S -> S) (s : S) :
  P s -> (forall x, P x -> P (body x)) -> P (repeat_loop n body s).
Proof.
  intros H0 Hstep. revert s H0. induction n as [| n IH]; intros s H0.
  - exact H0.
  - simpl. apply IH, Hstep, H0.
Qed.

Lemma displace_keeps (m : FeatureMat) (i : nat) (d : Vec3Float) :
  length (displace m i d) = length m /\
  map normal (displace m i d) = map normal m.
Proof.
  unfold displace. split;
    [apply set_position_length | apply set_position_normals].
Qed.

Lemma field_zero_row (n i : nat) :
  (i < n)%nat -> row3 (Field.Zero n) i = Vec3.Zero.
Proof.
  intros Hi. unfold row3, Field.Zero.
  rewrite (nth_indep _ Vec3.undef Vec3.Zero)
    by (rewrite repeat_length; exact Hi).
  apply nth_repeat.
Qed.

Lemma vec3_sub_self (v : Vec3Float) :
  Vec3.finite v -> Vec3.sub v v = Vec3.Zero.
Proof.
  intros H. rewrite (vec3_finite_eta v H).
  cbv [Vec3.sub Vec3.Zero vx vy vz fsub fzero]. fin_goals idtac; ring.
Qed.

Lemma vec3_add_zero_r (v : Vec3Float) :
  Vec3.finite v -> Vec3.add v Vec3.Zero = v.
Proof.
  intros H. rewrite (vec3_finite_eta v H).
  cbv [Vec3.add Vec3.Zero vx vy vz fadd fzero fval]. fin_goals idtac; ring.
Qed.

Lemma field_sub_self (X : Vec3Mat) :
  Forall Vec3.finite X -> Field.sub X X = Field.Zero (length X).
Proof.
  induction 1 as [| v t Hv _ IH]; [reflexivity |].
  unfold Field.sub, Field.Zero in *. simpl. rewrite IH.
  rewrite vec3_sub_self by exact Hv. reflexivity.
Qed.

Lemma field_add_zero (n : nat) :
  Field.add (Field.Zero n) (Field.Zero n) = Field.Zero n.
Proof.
  induction n as [| n IH]; [reflexivity |].
  unfold Field.add, Field.Zero in *. simpl. rewrite IH. f_equal.
  cbv [Vec3.add Vec3.Zero vx vy vz fadd fzero]. fin_goals idtac; ring.
Qed.

Lemma list_set_same {A : Type} (l : list A) (i : nat) (d : A) :
  list_set l i (nth i l d) = l.
Proof.
  revert i. induction l as [| h t IH]; intros [| i]; simpl; try reflexivity.
  f_equal. apply IH.
Qed.

(** Displacing a row of finite position by the zero vector changes
    nothing. *)
Lemma displace_zero (m : FeatureMat) (i : nat) :
  (i < length m -> Vec3.finite (position (Feature.row m i)))%nat ->
  displace m i Vec3.Zero = m.
Proof.
  intros Hfin. unfold displace, Feature.set_position.
  destruct (nth_error m i) as [r |] eqn:E; [| reflexivity].
  assert (Hi : (i < length m)%nat)
    by (apply nth_error_Some; rewrite E; discriminate).
  rewrite vec3_add_zero_r by (apply Hfin, Hi).
  unfold Feature.row. rewrite (nth_error_nth _ _ _ E).
  replace (mkFeature (position r) (normal r)) with (nth i m r)
    by (rewrite (nth_error_nth _ _ _ E); destruct r; reflexivity).
  apply list_set_same.
Qed.

Section ViscoelasticFrame.

Variable k_nearest_neighbours :
  Vec3Mat -> Vec3Mat -> nat -> nat -> list (list nat).

Lemma regulate_displacement_field_length
  (u floatingPositions : Vec3Mat) (w : VecDynFloat) (D : Vec3Mat)
  (k : nat) (sigma : float) (numElastic : nat) :
  length (snd (regulate_displacement_field k_nearest_neighbours u
                 floatingPositions w D k sigma numElastic)) = length D.
Proof.
  unfold regulate_displacement_field.
  apply (repeat_loop_invariant
           (fun st : Vec3Mat * Vec3Mat => length (snd st) = length D));
    [reflexivity |].
  intros [u' d'] Hd. cbn [snd] in *.
  destruct (gaussian_smoothing_frame k_nearest_neighbours u'
              floatingPositions w d' k sigma) as [Hl _].
  cbv zeta in Hl. rewrite Hl. exact Hd.
Qed.

(** X12.  [viscoelastic_transformation] moves positions and nothing else:
    the number of rows and the normal of every row are returned as received
    (normals are not recomputed), and the displacement field keeps its
    number of rows.  With zero viscous iterations the regulated force field
    stays the zero matrix it was initialised to, so the result does not
    depend on the corresponding positions at all. *)
Theorem viscoelastic_transformation_frame
  (ioFloatingPositions inCorrespondingPositions : FeatureMat)
  (inFloatingWeights : VecDynFloat) (ioDisplacementField : Vec3Mat)
  (k : nat) (sigma : float) (numViscous numElastic : nat) :
  let out :=
    viscoelastic_transformation k_nearest_neighbours ioFloatingPositions
      inCorrespondingPositions inFloatingWeights ioDisplacementField k sigma
      numViscous numElastic in
  length (fst out) = length ioFloatingPositions /\
  map normal (fst out) = map normal ioFloatingPositions /\
  length (snd out) = length ioDisplacementField /\
  (numViscous = 0%nat ->
   forall otherCorrespondingPositions,
     viscoelastic_transformation k_nearest_neighbours ioFloatingPositions
       otherCorrespondingPositions inFloatingWeights ioDisplacementField
       k sigma numViscous numElastic = out).
Proof.
  cbv zeta.
  assert (Hother : numViscous = 0%nat ->
            forall otherCorrespondingPositions,
              viscoelastic_transformation k_nearest_neighbours
                ioFloatingPositions otherCorrespondingPositions
                inFloatingWeights ioDisplacementField k sigma numViscous
                numElastic
              = viscoelastic_transformation k_nearest_neighbours
                  ioFloatingPositions inCorrespondingPositions
                  inFloatingWeights ioDisplacementField k sigma numViscous
                  numElastic)
    by (intros -> other; reflexivity).
  revert Hother. unfold viscoelastic_transformation at 3 4 5 6. intros Hother.
  match goal with
  | |- context [regulate_displacement_field ?knn ?u ?p ?w ?d ?kk ?s ?e] =>
      pose proof (regulate_displacement_field_length u p w d kk s e) as Hd;
      destruct (regulate_displacement_field knn u p w d kk s e) as [U D]
  end.
  cbn [fst snd] in *.
  assert (Hinv :
    length (for_loop (length ioFloatingPositions)
              (fun i m => displace m i (row3 U i)) ioFloatingPositions)
    = length ioFloatingPositions /\
    map normal (for_loop (length ioFloatingPositions)
                  (fun i m => displace m i (row3 U i)) ioFloatingPositions)
    = map normal ioFloatingPositions).
  { apply (for_loop_invariant
             (fun m => length m = length ioFloatingPositions /\
                       map normal m = map normal ioFloatingPositions));
      [split; reflexivity |].
    intros i x _ [Hl Hn]. destruct (displace_keeps x i (row3 U i)) as [-> ->].
    split; assumption. }
  destruct Hinv as [Hl Hn].
  split; [exact Hl |]. split; [exact Hn |]. split; [exact Hd |].
  exact Hother.
Qed.

(** The smoothing pass maps the zero field to the zero field. *)
Lemma gaussian_smoothing_zero_field (positions : Vec3Mat) (w : VecDynFloat)
  (out : Vec3Mat) (k : nat) (sigma : R) :
  let n := length positions in
  sigma <> 0 -> (1 <= k)%nat ->
  neighbours_in_range k_nearest_neighbours positions k n ->
  (forall j, (j < n)%nat ->
     Vec3.finite (row3 positions j) /\
     exists x, at_ w j = Fin x /\ 0 < x) ->
  length out = n ->
  gaussian_smoothing_vector_field k_nearest_neighbours (Field.Zero n)
    positions w out k (Fin sigma)
  = Field.Zero n.
Proof.
  intros n Hs Hk Hrange Hall Hlen.
  destruct (gaussian_smoothing_frame k_nearest_neighbours (Field.Zero n)
              positions w out k (Fin sigma)) as [Hl _].
  cbv zeta in Hl.
  apply (nth_ext _ _ Vec3.undef Vec3.undef).
  - rewrite Hl, Hlen. unfold Field.Zero. rewrite repeat_length. reflexivity.
  - intros i Hi. rewrite Hl, Hlen in Hi.
    change (row3 (gaussian_smoothing_vector_field k_nearest_neighbours
                    (Field.Zero n) positions w out k (Fin sigma)) i
            = row3 (Field.Zero n) i).
    rewrite gaussian_smoothing_row by (fold n; lia).
    rewrite field_zero_row by exact Hi.
    assert (Hco : forall c, coordinate c ->
              c (smoothed_row k_nearest_neighbours (Field.Zero n) positions
                              w k (Fin sigma) i) = Fin 0).
    { intros c Hc.
      destruct (smoothed_row_coordinate k_nearest_neighbours c
                  (Field.Zero n) positions w k sigma 0 0 i Hc Hs Hk Hrange)
        as (r & Hr & Hb).
      - intros j Hj. destruct (Hall j Hj) as [Hp Hw].
        rewrite field_zero_row by exact Hj.
        split; [exact Hp |]. split; [exact Hw |].
        split; [repeat split; eexists; reflexivity |].
        destruct Hc as [-> | [-> | ->]]; cbn; lra.
      - exact Hi.
      - rewrite Hr. apply (f_equal Fin). lra. }
    pose proof (Hco vx (or_introl eq_refl)) as Hx.
    pose proof (Hco vy (or_intror (or_introl eq_refl))) as Hy.
    pose proof (Hco vz (or_intror (or_intror eq_refl))) as Hz.
    destruct (smoothed_row _ _ _ _ _ _ _) as [x y z].
    cbn [vx vy vz] in *. subst. reflexivity.
Qed.

(** X13.  A floating surface that already lies on its correspondences stays
    where it is: with corresponding positions equal to the floating
    positions, a zero displacement field, finite positions, positive
    weights, a non-zero sigma, at least one neighbour per vertex and
    neighbour indices within the mesh, [viscoelastic_transformation] returns
    the floating features and the zero displacement field unchanged, for
    every number of viscous and elastic iterations. *)
Theorem viscoelastic_transformation_fixed_point
  (ioFloatingPositions inCorrespondingPositions : FeatureMat)
  (inFloatingWeights : VecDynFloat) (k : nat) (sigma : R)
  (numViscous numElastic : nat) :
  let n := length ioFloatingPositions in
  Feature.leftCols3 inCorrespondingPositions
  = Feature.leftCols3 ioFloatingPositions ->
  sigma <> 0 -> (1 <= k)%nat ->
  neighbours_in_range k_nearest_neighbours
    (Feature.leftCols3 ioFloatingPositions) k n ->
  (forall j, (j < n)%nat ->
     Vec3.finite (position (Feature.row ioFloatingPositions j)) /\
     exists x, at_ inFloatingWeights j = Fin x /\ 0 < x) ->
  viscoelastic_transformation k_nearest_neighbours ioFloatingPositions
    inCorrespondingPositions inFloatingWeights (Field.Zero n) k (Fin sigma)
    numViscous numElastic
  = (ioFloatingPositions, Field.Zero n).
Proof.
  intros n Hsame Hs Hk Hrange Hall.
  set (pos := Feature.leftCols3 ioFloatingPositions) in *.
  assert (Hn : length pos = n) by (subst pos; apply length_map).
  assert (Hrow : forall j, (j < n)%nat ->
            row3 pos j = position (Feature.row ioFloatingPositions j)).
  { intros j Hj. subst pos. unfold row3, Feature.leftCols3, Feature.row.
    rewrite (nth_indep _ Vec3.undef (position Feature.undef))
      by (rewrite length_map; exact Hj).
    apply map_nth. }
  assert (Hpos : forall j, (j < length pos)%nat ->
            Vec3.finite (row3 pos j) /\
            exists x, at_ inFloatingWeights j = Fin x /\ 0 < x).
  { rewrite Hn. intros j Hj. rewrite Hrow by exact Hj. apply Hall, Hj. }
  assert (Hfin : Forall Vec3.finite pos).
  { apply Forall_forall. intros v Hv.
    destruct (In_nth _ _ Vec3.undef Hv) as (j & Hj & <-).
    apply (Hpos j Hj). }
  assert (Hsmooth : forall out, length out = n ->
            gaussian_smoothing_vector_field k_nearest_neighbours
              (Field.Zero n) pos inFloatingWeights out k (Fin sigma)
            = Field.Zero n).
  { intros out Hout.
    pose proof (gaussian_smoothing_zero_field pos inFloatingWeights out k
                  sigma Hs Hk) as H.
    cbv zeta in H. rewrite Hn in H. apply H; [exact Hrange | | exact Hout].
    rewrite <- Hn. exact Hpos. }
  assert (Hzlen : length (Field.Zero n) = n)
    by (unfold Field.Zero; apply repeat_length).
  unfold viscoelastic_transformation. fold n pos. rewrite Hsame.
  rewrite (field_sub_self pos Hfin), Hn.
  assert (Hreg : regulate_force_field k_nearest_neighbours (Field.Zero n) pos
                   inFloatingWeights n k (Fin sigma) numViscous
                 = Field.Zero n).
  { unfold regulate_force_field.
    assert (Hst : repeat_loop numViscous
              (fun '(forceField, regulatedForceField) =>
                 (gaussian_smoothing_vector_field k_nearest_neighbours
                    forceField pos inFloatingWeights regulatedForceField k
                    (Fin sigma),
                  gaussian_smoothing_vector_field k_nearest_neighbours
                    forceField pos inFloatingWeights regulatedForceField k
                    (Fin sigma)))
              (Field.Zero n, Field.Zero n)
            = (Field.Zero n, Field.Zero n)).
    { apply (repeat_loop_invariant
               (fun st => st = (Field.Zero n, Field.Zero n)));
        [reflexivity |].
      intros x ->. rewrite Hsmooth by exact Hzlen. reflexivity. }
    rewrite Hst. reflexivity. }
  rewrite Hreg, field_add_zero.
  assert (Hel : regulate_displacement_field k_nearest_neighbours
                  (Field.Zero n) pos inFloatingWeights (Field.Zero n) k
                  (Fin sigma) numElastic
                = (Field.Zero n, Field.Zero n)).
  { unfold regulate_displacement_field.
    apply (repeat_loop_invariant
             (fun st => st = (Field.Zero n, Field.Zero n)));
      [reflexivity |].
    intros x ->. rewrite Hsmooth by exact Hzlen. reflexivity. }
  rewrite Hel. f_equal.
  apply (for_loop_invariant (fun m => m = ioFloatingPositions));
    [reflexivity |].
  intros i x Hi ->. rewrite field_zero_row by exact Hi.
  apply displace_zero. intros _. apply Hall, Hi.
Qed.

End ViscoelasticFrame.

(** ** Degenerate block averages *)

(** X14.  [vector_block_average] has no guard either: on an empty vector
    set, and on any vector set whose weights are all zero, it divides by a
    zero weight sum and returns a vector without a finite component. *)
Theorem vector_block_average_degenerate (inVectors : Vec3Mat)
  (inWeights : VecDynFloat) :
  inVectors = [] \/ Forall (fun w => w = Fin 0) inWeights ->
  vector_block_average inVectors inWeights = Vec3.undef.
Proof.
  intros H. unfold vector_block_average.
  assert (Hs : snd (block_sums inVectors inWeights) = NaN \/
               snd (block_sums inVectors inWeights) = Fin 0).
  { destruct H as [-> | Hz]; [right; reflexivity |].
    unfold block_sums.
    apply (for_loop_invariant
             (fun st : Vec3Float * float => snd st = NaN \/ snd st = Fin 0));
      [right; reflexivity |].
    intros i [v s] _ Hs. cbn [snd] in *. apply fadd_zero_sums; [exact Hs |].
    destruct (at_all_zero inWeights i Hz) as [-> | ->]; auto. }
  destruct (block_sums inVectors inWeights) as [v s]. cbn [snd] in Hs.
  apply vec3_div_by_zero_sum, Hs.
Qed.

Lemma vector_block_average_degenerate_witness :
  vector_block_average Samples.twoVectors [Fin 0; Fin 0] = Vec3.undef.
Proof.
  apply (vector_block_average_degenerate Samples.twoVectors [Fin 0; Fin 0]).
  right. repeat constructor.
Defined.

(** ** The rounding rule of the corresponding flags *)

Lemma affinity_row_times_flags_fin (a phi : list R) :
  affinity_row_times_flags (map Fin a) (map Fin phi)
  = Fin (fold_left (fun acc p => acc + fst p * snd p) (combine a phi) 0).
Proof.
  unfold affinity_row_times_flags, fzero. generalize 0 as x.
  revert phi. induction a as [| u a IH]; intros [| v phi] x; try reflexivity.
  simpl. apply IH.
Qed.

Lemma flag_masses_add (a phi : list R) (x y z : R) :
  length a = length phi ->
  fold_left (fun acc p => acc + fst p * snd p) (combine a phi) x
  + fold_left (fun acc p => acc + fst p * (1 - snd p)) (combine a phi) y
  = fold_left Rplus a z + (x + y - z).
Proof.
  revert phi x y z. induction a as [| u a IH]; intros [| v phi] x y z Hl;
    simpl in *; try discriminate; [ring |].
  rewrite (IH phi _ _ (z + u)) by congruence. ring.
Qed.

(** X15.  In exact arithmetic, and in a call whose rounding loop stays
    within the flag vector (no more target rows than affinity rows), the
    rule stated in the documentation of the rounding limit holds below the
    number of target rows: for a finite affinity row of mass one over finite
    target flags, the corresponding flag is set to 0 when the mass of the
    row on zero-flagged targets is 10 percent or more, and to 1 when it is
    less.  (The sum and the limit 0.9 are exact here; the rounded sum of the
    code can fall on the other side of the rounded limit when the mass is
    within rounding distance of 10 percent.) *)
Theorem affinity_to_correspondences_ten_percent_rule
  (inTargetFeatures : FeatureMat) (inAffinity : MatDynFloat)
  (a phi : list R) (i : nat) :
  let flag :=
    at_ (snd (affinity_to_correspondences inTargetFeatures (map Fin phi)
                inAffinity default_flag_rounding_limit)) i in
  (length inTargetFeatures <= length inAffinity)%nat ->
  (i < length inTargetFeatures)%nat ->
  nth i inAffinity [] = map Fin a -> length a = length phi ->
  affinity_mass a = 1 ->
  (0.1 <= zero_flag_mass a phi -> flag = Fin 0) /\
  (zero_flag_mass a phi < 0.1 -> flag = Fin 1).
Proof.
  intros flag Hrows Ht Hrow Hlen Hmass. subst flag.
  assert (Hi : (i < length inAffinity)%nat) by lia.
  unfold affinity_to_correspondences. cbn [snd].
  rewrite round_loop_at by (rewrite length_map; exact Hi).
  replace (i <? length inTargetFeatures)%nat with true
    by (symmetry; apply Nat.ltb_lt; exact Ht).
  unfold at_.
  rewrite (nth_indep _ NaN (affinity_row_times_flags [] (map Fin phi)))
    by (rewrite length_map; exact Hi).
  rewrite (map_nth (fun arow => affinity_row_times_flags arow (map Fin phi))).
  rewrite Hrow, affinity_row_times_flags_fin.
  pose proof (flag_masses_add a phi 0 0 0 Hlen) as Hadd.
  unfold affinity_mass in Hmass. unfold zero_flag_mass.
  unfold default_flag_rounding_limit.
  split; intros Hz.
  - rewrite fgt_fin_false by lra. reflexivity.
  - rewrite fgt_fin_true by lra. reflexivity.
Qed.

Lemma affinity_to_correspondences_ten_percent_rule_witness :
  let flag :=
    at_ (snd (affinity_to_correspondences Samples.targetFeatures
                (map Fin [1; 0]) [[Fin 1; Fin 0]; [Fin 0.5; Fin 0.5]]
                default_flag_rounding_limit)) 1 in
  (0.1 <= zero_flag_mass [0.5; 0.5] [1; 0] -> flag = Fin 0) /\
  (zero_flag_mass [0.5; 0.5] [1; 0] < 0.1 -> flag = Fin 1).
Proof.
  apply (affinity_to_correspondences_ten_percent_rule Samples.targetFeatures
           [[Fin 1; Fin 0]; [Fin 0.5; Fin 0.5]] [0.5; 0.5] [1; 0] 1).
  - simpl. lia.
  - simpl. lia.
  - reflexivity.
  - reflexivity.
  - unfold affinity_mass. simpl. lra.
Defined.

(** X16.  In a call whose rounding loop stays within the flag vector (no
    more target rows than affinity rows), [affinity_to_correspondences]
    returns one corresponding feature and one corresponding flag per row of
    the affinity; a flag whose index is not below the number of target rows
    is not rounded and keeps its affinity-weighted value; and with as many
    target rows as affinity rows every flag returned is 0 or 1. *)
Theorem affinity_to_correspondences_shape
  (inTargetFeatures : FeatureMat) (inTargetFlags : VecDynFloat)
  (inAffinity : MatDynFloat) (limit : float) :
  let out := affinity_to_correspondences inTargetFeatures inTargetFlags
               inAffinity limit in
  (length inTargetFeatures <= length inAffinity)%nat ->
  length (fst out) = length inAffinity /\
  length (snd out) = length inAffinity /\
  (forall i, (i < length inAffinity)%nat ->
             (length inTargetFeatures <= i)%nat ->
     at_ (snd out) i
     = affinity_row_times_flags (nth i inAffinity []) inTargetFlags) /\
  (length inTargetFeatures = length inAffinity ->
   Forall (fun flag => flag = Fin 0 \/ flag = Fin 1) (snd out)).
Proof.
  intros out Hrows. subst out.
  assert (Hlen : length (snd (affinity_to_correspondences inTargetFeatures
                                inTargetFlags inAffinity limit))
                 = length inAffinity).
  { unfold affinity_to_correspondences. cbn [snd].
    rewrite round_loop_length. apply length_map. }
  split; [| split; [| split]].
  - unfold affinity_to_correspondences. cbn [fst]. apply length_map.
  - exact Hlen.
  - intros i Hi Ht.
    apply affinity_to_correspondences_flags_unrounded; assumption.
  - intros Heq. apply Forall_forall. intros flag Hin.
    destruct (In_nth _ _ NaN Hin) as (i & Hi & <-).
    fold (at_ (snd (affinity_to_correspondences inTargetFeatures
                      inTargetFlags inAffinity limit)) i).
    unfold affinity_to_correspondences. cbn [snd].
    rewrite round_loop_at
      by (rewrite length_map; rewrite Hlen in Hi; exact Hi).
    replace (i <? length inTargetFeatures)%nat with true
      by (symmetry; apply Nat.ltb_lt; lia).
    destruct (fgt _ limit); [right | left]; reflexivity.
Qed.

Lemma affinity_to_correspondences_shape_witness :
  let out := affinity_to_correspondences Samples.targetFeatures
               Samples.targetFlags Samples.affinity
               default_flag_rounding_limit in
  length (fst out) = length Samples.affinity /\
  length (snd out) = length Samples.affinity /\
  (forall i, (i < length Samples.affinity)%nat ->
             (length Samples.targetFeatures <= i)%nat ->
     at_ (snd out) i
     = affinity_row_times_flags (nth i Samples.affinity [])
                                Samples.targetFlags) /\
  (length Samples.targetFeatures = length Samples.affinity ->
   Forall (fun flag => flag = Fin 0 \/ flag = Fin 1) (snd out)).
Proof.
  apply (affinity_to_correspondences_shape Samples.targetFeatures
           Samples.targetFlags Samples.affinity default_flag_rounding_limit).
  simpl. lia.
Defined.

(** ** The rigid transformation on six rows or fewer *)

Lemma weighted_sums_zero_fields (w : VecDynFloat) (n m : nat) :
  (forall i, (i < n)%nat -> is_finite (at_ w i)) -> (n <= m)%nat ->
  weighted_sums (Field.Zero m) (Field.Zero m) w n
  = (Vec3.Zero, Vec3.Zero, Fin (weight_sum w n)).
Proof.
  intros Hw Hn. unfold weighted_sums. induction n as [| n IH]; [reflexivity |].
  rewrite for_loop_S, IH by (intros; try apply Hw; lia).
  rewrite field_zero_row by lia.
  destruct (Hw n (Nat.lt_succ_diag_r n)) as [x Hx].
  unfold weight_sum. rewrite rsum_S, Hx.
  cbv [Vec3.add Vec3.scale Vec3.Zero vx vy vz fmul fadd fzero fval].
  fin_goals idtac; ring.
Qed.

Section RigidFewRows.

Variable decompose : Mat4Float -> EigenVectorDecomposer.

(** X17.  With six rows or fewer [rigid_transformation] does not read the
    positions: it warns and works on zero matrices instead.  For finite
    weights of non-zero sum, scaling off and a finite rotation from the
    eigensolver, the translation it finds is zero and the position of every
    row is overwritten with the origin. *)
Theorem rigid_transformation_few_rows
  (ioFeatures inCorrespondingFeatures : FeatureMat)
  (inWeights : VecDynFloat) :
  let e := rigid_estimate decompose ioFeatures inCorrespondingFeatures
                          inWeights false in
  let result := rigid_transformation decompose ioFeatures
                  inCorrespondingFeatures inWeights false in
  (length ioFeatures <= NUM_FEATURES)%nat ->
  (forall i, (i < length ioFeatures)%nat -> is_finite (at_ inWeights i)) ->
  weight_sum inWeights (length ioFeatures) <> 0 ->
  Mat3.finite (est_rotation e) ->
  In RigidInputShapeWarning (fst result) /\
  est_translation e = Vec3.Zero /\
  forall i, (i < length ioFeatures)%nat ->
    position (Feature.row (snd result) i) = Vec3.Zero.
Proof.
  intros e result Hn Hw HW HR. subst result.
  assert (Hpos : rigid_positions ioFeatures inCorrespondingFeatures
                 = (false, Field.Zero (length ioFeatures),
                    Field.Zero (length ioFeatures))).
  { unfold rigid_positions.
    replace (NUM_FEATURES <? length ioFeatures)%nat with false
      by (symmetry; apply Nat.ltb_ge; exact Hn).
    reflexivity. }
  assert (He : est_transposed e = false /\ est_scale e = Fin 1 /\
               est_translation e
               = Vec3.sub
                   (Vec3.div Vec3.Zero
                      (Fin (weight_sum inWeights (length ioFeatures))))
                   (Mat3.mulv (Mat3.scale (Fin 1) (est_rotation e))
                      (Vec3.div Vec3.Zero
                         (Fin (weight_sum inWeights (length ioFeatures)))))).
  { subst e. unfold rigid_estimate. rewrite Hpos.
    rewrite (weighted_sums_zero_fields inWeights (length ioFeatures)
               (length ioFeatures) Hw (Nat.le_refl _)).
    repeat split. }
  destruct He as (Htr & Hsc & Htl).
  assert (Hzero : Vec3.div Vec3.Zero
                    (Fin (weight_sum inWeights (length ioFeatures)))
                  = Vec3.Zero).
  { unfold Vec3.div, Vec3.Zero. cbn [vx vy vz]. unfold fzero.
    rewrite fdiv_fin by exact HW. fin_goals idtac; field; exact HW. }
  rewrite Hzero in Htl.
  destruct (est_rotation e) as [[a00 a01 a02] [a10 a11 a12] [a20 a21 a22]]
    eqn:ER.
  destruct HR as ((H00 & H01 & H02) & (H10 & H11 & H12) & (H20 & H21 & H22)).
  cbn [m3r0 m3r1 m3r2 vx vy vz] in *.
  destruct H00 as [r00 ->], H01 as [r01 ->], H02 as [r02 ->],
    H10 as [r10 ->], H11 as [r11 ->], H12 as [r12 ->],
    H20 as [r20 ->], H21 as [r21 ->], H22 as [r22 ->].
  assert (Ht : est_translation e = Vec3.Zero).
  { rewrite Htl.
    cbv [Vec3.sub Mat3.mulv Mat3.scale Vec3.scale Vec3.dot Vec3.Zero
         m3r0 m3r1 m3r2 vx vy vz fmul fadd fsub fzero].
    fin_goals idtac; ring. }
  split; [| split; [exact Ht |]].
  - unfold rigid_transformation, rigid_messages. cbn [fst]. fold e.
    rewrite Htr. left. reflexivity.
  - intros i Hi. unfold rigid_transformation. cbn [snd]. fold e.
    rewrite Hpos, Hsc, ER, Ht. cbn [fst snd].
    apply (apply_transformation_rows_carried _ _
             (fun p4 => q3 p4 = Fin 1) (fun _ v => v = Vec3.Zero));
      [reflexivity | | exact Hi | exact Hi].
    intros j [p0 p1 p2 p3] Hj Hq. cbn [q3] in Hq. subst p3.
    rewrite field_zero_row by exact Hj.
    unfold Vec4.set_head3, Vec3.Zero, fzero. cbn [vx vy vz q3].
    destruct (transformation_matrix_action 1 r00 r01 r02 r10 r11 r12
                r20 r21 r22 0 0 0 0 0 0) as [Hq3 Hhead].
    cbv zeta in Hq3, Hhead. split; [exact Hq3 |].
    rewrite Hhead.
    cbv [Mat3.mulv Mat3.scale Vec3.scale Vec3.dot Vec3.add
         m3r0 m3r1 m3r2 vx vy vz fmul fadd].
    fin_goals idtac; ring.
Qed.

End RigidFewRows.

Lemma rigid_transformation_few_rows_witness :
  let e := rigid_estimate Samples.decompose7 Samples.oneFloating
             Samples.oneCorresponding [Fin 1] false in
  let result := rigid_transformation Samples.decompose7 Samples.oneFloating
                  Samples.oneCorresponding [Fin 1] false in
  In RigidInputShapeWarning (fst result) /\
  est_translation e = Vec3.Zero /\
  forall i, (i < length Samples.oneFloating)%nat ->
    position (Feature.row (snd result) i) = Vec3.Zero.
Proof.
  apply (rigid_transformation_few_rows Samples.decompose7
           Samples.oneFloating Samples.oneCorresponding [Fin 1]).
  - unfold NUM_FEATURES. simpl. lia.
  - intros [| i] Hi; simpl in Hi; [eexists; reflexivity | lia].
  - unfold weight_sum, rsum, for_loop. simpl. lra.
  - unfold rigid_estimate. cbn [est_rotation]. unfold Samples.decompose7.
    destruct (rigid_positions _ _) as [[tr fp] cp].
    destruct (weighted_sums _ _ _ _) as [[fs cs] sw].
    cbn [est_rotation]. rewrite sample_quaternion, sample_rotation.
    repeat split; eexists; reflexivity.
Defined.

(** ** Weights count only up to a common factor *)

Lemma fmul_fin_distr (c : R) (a b : float) :
  fmul (Fin c) (fadd a b) = fadd (fmul (Fin c) a) (fmul (Fin c) b).
Proof. destruct a, b; simpl; try reflexivity. apply (f_equal Fin). ring. Qed.

Lemma fmul_fin_assoc (c : R) (a b : float) :
  fmul (fmul (Fin c) a) b = fmul (Fin c) (fmul a b).
Proof. destruct a, b; simpl; try reflexivity. apply (f_equal Fin). ring. Qed.

Lemma fmul_fin_swap (c : R) (a b : float) :
  fmul a (fmul (Fin c) b) = fmul (Fin c) (fmul a b).
Proof. destruct a, b; simpl; try reflexivity. apply (f_equal Fin). ring. Qed.

Lemma fdiv_fin_cancel (c : R) (a s : float) :
  c <> 0 -> fdiv (fmul (Fin c) a) (fmul (Fin c) s) = fdiv a s.
Proof.
  intros Hc. destruct a as [x |], s as [y |]; simpl; try reflexivity.
  destruct (Req_dec_T y 0) as [-> | Hy].
  - destruct (Req_dec_T (c * 0) 0) as [_ | N]; [reflexivity |].
    contradiction N. ring.
  - destruct (Req_dec_T (c * y) 0) as [E | _].
    + apply Rmult_integral in E. destruct E; contradiction.
    + apply (f_equal Fin). field. split; assumption.
Qed.

Lemma vec3_scale_zero (c : R) : Vec3.scale (Fin c) Vec3.Zero = Vec3.Zero.
Proof.
  cbv [Vec3.scale Vec3.Zero vx vy vz fmul fzero]. fin_goals idtac; ring.
Qed.

Lemma vec3_div_cancel (c : R) (v : Vec3Float) (s : float) :
  c <> 0 ->
  Vec3.div (Vec3.scale (Fin c) v) (fmul (Fin c) s) = Vec3.div v s.
Proof.
  intros Hc. unfold Vec3.div, Vec3.scale. cbn [vx vy vz].
  rewrite !fdiv_fin_cancel by exact Hc. reflexivity.
Qed.

(** Adding a term whose weight carries the factor. *)
Lemma vec3_add_scaled (c : R) (a v : Vec3Float) (w : float) :
  Vec3.add (Vec3.scale (Fin c) a) (Vec3.scale (fmul (Fin c) w) v)
  = Vec3.scale (Fin c) (Vec3.add a (Vec3.scale w v)).
Proof.
  unfold Vec3.add, Vec3.scale. cbn [vx vy vz].
  rewrite !fmul_fin_assoc, <- !fmul_fin_distr. reflexivity.
Qed.

Lemma scaled_weights_map (c : R) (ws : VecDynFloat) :
  scaled_weights c ws (map (fmul (Fin c)) ws).
Proof.
  intros i. unfold at_.
  change NaN with (fmul (Fin c) NaN) at 1. apply map_nth.
Qed.

Lemma gaussian_accumulate_scaled (c : R) (q : Vec3Float) (vs ps : Vec3Mat)
  (ws ws' : VecDynFloat) (sigma : float) :
  scaled_weights c ws ws' ->
  gaussian_accumulate q vs ps ws' sigma
  = (Vec3.scale (Fin c) (fst (gaussian_accumulate q vs ps ws sigma)),
     fmul (Fin c) (snd (gaussian_accumulate q vs ps ws sigma))).
Proof.
  intros Hw. unfold gaussian_accumulate. cbv zeta.
  set (body' := fun (i : nat) '(outQueriedVector, sumWeights) =>
         (Vec3.add outQueriedVector
            (Vec3.scale (combinedWeight q ps ws' sigma i) (row3 vs i)),
          (sumWeights + combinedWeight q ps ws' sigma i)%fl)).
  set (body := fun (i : nat) '(outQueriedVector, sumWeights) =>
         (Vec3.add outQueriedVector
            (Vec3.scale (combinedWeight q ps ws sigma i) (row3 vs i)),
          (sumWeights + combinedWeight q ps ws sigma i)%fl)).
  generalize (length vs) as n. induction n as [| n IH].
  - unfold for_loop. simpl. rewrite vec3_scale_zero. unfold fzero.
    cbn [fmul]. f_equal. apply (f_equal Fin). ring.
  - rewrite !for_loop_S, IH.
    destruct (for_loop n body (Vec3.Zero, fzero)) as [v s]. cbn [fst snd].
    assert (Hcw : combinedWeight q ps ws' sigma n
                  = fmul (Fin c) (combinedWeight q ps ws sigma n)).
    { unfold combinedWeight. rewrite Hw. apply fmul_fin_swap. }
    unfold body', body. cbn [fst snd].
    rewrite Hcw, vec3_add_scaled, <- fmul_fin_distr. reflexivity.
Qed.

Lemma gaussian_interpolate_scaled (c : R) (q : Vec3Float) (vs ps : Vec3Mat)
  (ws ws' : VecDynFloat) (sigma : float) :
  c <> 0 -> scaled_weights c ws ws' ->
  gaussian_interpolate_vector_field q vs ps ws' sigma
  = gaussian_interpolate_vector_field q vs ps ws sigma.
Proof.
  intros Hc Hw. unfold gaussian_interpolate_vector_field.
  rewrite (gaussian_accumulate_scaled c q vs ps ws ws' sigma Hw).
  destruct (gaussian_accumulate q vs ps ws sigma) as [v s]. cbn [fst snd].
  apply vec3_div_cancel, Hc.
Qed.

Section ScaleInvariance.

Variable k_nearest_neighbours :
  Vec3Mat -> Vec3Mat -> nat -> nat -> list (list nat).

Lemma gaussian_smoothing_scaled (c : R) (vs ps : Vec3Mat)
  (ws ws' : VecDynFloat) (out : Vec3Mat) (k : nat) (sigma : float) :
  c <> 0 -> scaled_weights c ws ws' ->
  gaussian_smoothing_vector_field k_nearest_neighbours vs ps ws' out k sigma
  = gaussian_smoothing_vector_field k_nearest_neighbours vs ps ws out k sigma.
Proof.
  intros Hc Hw. unfold gaussian_smoothing_vector_field.
  generalize (length ps) as n. intros n. revert out.
  induction n as [| n IH]; intros out; [reflexivity |].
  rewrite !for_loop_S, IH. cbv zeta. f_equal.
  apply (gaussian_interpolate_scaled c); [exact Hc |].
  intros j. unfold at_ at 1 3.
  destruct (Nat.lt_ge_cases j k) as [Hj | Hj].
  - rewrite !nth_map_seq by exact Hj. apply Hw.
  - rewrite !nth_overflow by (rewrite length_map, length_seq; exact Hj).
    reflexivity.
Qed.

(** X18.  The floating weights count only up to a common factor in the
    viscoelastic transformation: multiplying every weight by the same
    non-zero number changes neither the positions nor the displacement
    field returned, whatever the inputs are. *)
Theorem viscoelastic_transformation_weight_scale (c : R)
  (ioFloatingPositions inCorrespondingPositions : FeatureMat)
  (inFloatingWeights : VecDynFloat) (ioDisplacementField : Vec3Mat)
  (k : nat) (sigma : float) (numViscous numElastic : nat) :
  c <> 0 ->
  viscoelastic_transformation k_nearest_neighbours ioFloatingPositions
    inCorrespondingPositions (map (fmul (Fin c)) inFloatingWeights)
    ioDisplacementField k sigma numViscous numElastic
  = viscoelastic_transformation k_nearest_neighbours ioFloatingPositions
      inCorrespondingPositions inFloatingWeights ioDisplacementField k sigma
      numViscous numElastic.
Proof.
  intros Hc.
  assert (Hsm : forall vs ps out,
            gaussian_smoothing_vector_field k_nearest_neighbours vs ps
              (map (fmul (Fin c)) inFloatingWeights) out k sigma
            = gaussian_smoothing_vector_field k_nearest_neighbours vs ps
                inFloatingWeights out k sigma)
    by (intros; apply (gaussian_smoothing_scaled c);
        [exact Hc | apply scaled_weights_map]).
  unfold viscoelastic_transformation, regulate_force_field,
    regulate_displacement_field.
  assert (Hloop : forall n p (s : Vec3Mat * Vec3Mat),
            repeat_loop n
              (fun '(a, b) =>
                 (gaussian_smoothing_vector_field k_nearest_neighbours a p
                    (map (fmul (Fin c)) inFloatingWeights) b k sigma,
                  gaussian_smoothing_vector_field k_nearest_neighbours a p
                    (map (fmul (Fin c)) inFloatingWeights) b k sigma)) s
            = repeat_loop n
                (fun '(a, b) =>
                   (gaussian_smoothing_vector_field k_nearest_neighbours a p
                      inFloatingWeights b k sigma,
                    gaussian_smoothing_vector_field k_nearest_neighbours a p
                      inFloatingWeights b k sigma)) s).
  { induction n as [| n IH]; intros p [a b]; [reflexivity |].
    simpl. rewrite Hsm. apply IH. }
  rewrite !Hloop. reflexivity.
Qed.

End ScaleInvariance.

Lemma viscoelastic_transformation_weight_scale_witness :
  viscoelastic_transformation Samples.one_point_neighbours
    Samples.oneFloating Samples.oneCorresponding (map (fmul (Fin 2)) [Fin 1])
    [Vec3.Zero] 1 (Fin 1) 1 1
  = viscoelastic_transformation Samples.one_point_neighbours
      Samples.oneFloating Samples.oneCorresponding [Fin 1]
      [Vec3.Zero] 1 (Fin 1) 1 1.
Proof.
  apply (viscoelastic_transformation_weight_scale
           Samples.one_point_neighbours 2). lra.
Defined.

Lemma fmul_fin_zero (c : R) : fmul (Fin c) fzero = fzero.
Proof. unfold fzero. cbn [fmul]. apply (f_equal Fin). ring. Qed.

Lemma mat3_scale_zero (c : R) : Mat3.scale (Fin c) Mat3.Zero = Mat3.Zero.
Proof.
  unfold Mat3.scale, Mat3.Zero. cbn [m3r0 m3r1 m3r2].
  rewrite vec3_scale_zero. reflexivity.
Qed.

Lemma vec3_dot_scaled (c : R) (w : float) (u v : Vec3Float) :
  Vec3.dot (Vec3.scale (fmul (Fin c) w) u) v
  = fmul (Fin c) (Vec3.dot (Vec3.scale w u) v).
Proof.
  unfold Vec3.dot, Vec3.scale. cbn [vx vy vz].
  rewrite !fmul_fin_assoc, <- !fmul_fin_distr. reflexivity.
Qed.

Lemma mat3_add_outer_scaled (c : R) (M : Mat3Float) (w : float)
  (f v : Vec3Float) :
  Mat3.add (Mat3.scale (Fin c) M)
           (Mat3.outer (Vec3.scale (fmul (Fin c) w) f) v)
  = Mat3.scale (Fin c) (Mat3.add M (Mat3.outer (Vec3.scale w f) v)).
Proof.
  assert (Hx : vx (Vec3.scale (fmul (Fin c) w) f)
               = fmul (Fin c) (vx (Vec3.scale w f)))
    by (cbn [Vec3.scale vx]; apply fmul_fin_assoc).
  assert (Hy : vy (Vec3.scale (fmul (Fin c) w) f)
               = fmul (Fin c) (vy (Vec3.scale w f)))
    by (cbn [Vec3.scale vy]; apply fmul_fin_assoc).
  assert (Hz : vz (Vec3.scale (fmul (Fin c) w) f)
               = fmul (Fin c) (vz (Vec3.scale w f)))
    by (cbn [Vec3.scale vz]; apply fmul_fin_assoc).
  unfold Mat3.add, Mat3.scale, Mat3.outer. cbn [m3r0 m3r1 m3r2].
  rewrite Hx, Hy, Hz, !vec3_add_scaled. reflexivity.
Qed.

Lemma mat3_div_cancel (c : R) (M : Mat3Float) (s : float) :
  c <> 0 ->
  Mat3.div (Mat3.scale (Fin c) M) (fmul (Fin c) s) = Mat3.div M s.
Proof.
  intros Hc. unfold Mat3.div, Mat3.scale. cbn [m3r0 m3r1 m3r2].
  rewrite !vec3_div_cancel by exact Hc. reflexivity.
Qed.

Lemma weighted_sums_scaled (c : R) (FP CP : Vec3Mat) (ws ws' : VecDynFloat)
  (n : nat) :
  scaled_weights c ws ws' ->
  weighted_sums FP CP ws' n
  = (Vec3.scale (Fin c) (fst (fst (weighted_sums FP CP ws n))),
     Vec3.scale (Fin c) (snd (fst (weighted_sums FP CP ws n))),
     fmul (Fin c) (snd (weighted_sums FP CP ws n))).
Proof.
  intros Hw. unfold weighted_sums.
  set (body' := fun (i : nat)
                    '(floatingCentroid, correspondingCentroid, sumWeights) =>
         (Vec3.add floatingCentroid (Vec3.scale (at_ ws' i) (row3 FP i)),
          Vec3.add correspondingCentroid
                   (Vec3.scale (at_ ws' i) (row3 CP i)),
          (sumWeights + at_ ws' i)%fl)).
  set (body := fun (i : nat)
                   '(floatingCentroid, correspondingCentroid, sumWeights) =>
         (Vec3.add floatingCentroid (Vec3.scale (at_ ws i) (row3 FP i)),
          Vec3.add correspondingCentroid
                   (Vec3.scale (at_ ws i) (row3 CP i)),
          (sumWeights + at_ ws i)%fl)).
  induction n as [| n IH].
  - unfold for_loop. cbn [seq fold_left fst snd].
    rewrite vec3_scale_zero, fmul_fin_zero. reflexivity.
  - rewrite !for_loop_S, IH.
    destruct (for_loop n body (Vec3.Zero, Vec3.Zero, fzero)) as [[a b] s].
    unfold body', body. cbn [fst snd].
    rewrite Hw, !vec3_add_scaled, <- fmul_fin_distr. reflexivity.
Qed.

Lemma cross_variance_scaled (c : R) (FP CP : Vec3Mat) (ws ws' : VecDynFloat)
  (n : nat) (fc cc : Vec3Float) (sw : float) :
  c <> 0 -> scaled_weights c ws ws' ->
  cross_variance FP CP ws' n fc cc (fmul (Fin c) sw)
  = cross_variance FP CP ws n fc cc sw.
Proof.
  intros Hc Hw. unfold cross_variance.
  set (body' := fun (i : nat) (crossVarianceMatrix : Mat3Float) =>
         Mat3.add crossVarianceMatrix
           (Mat3.outer (Vec3.scale (at_ ws' i) (row3 FP i)) (row3 CP i))).
  set (body := fun (i : nat) (crossVarianceMatrix : Mat3Float) =>
         Mat3.add crossVarianceMatrix
           (Mat3.outer (Vec3.scale (at_ ws i) (row3 FP i)) (row3 CP i))).
  assert (Hloop : for_loop n body' Mat3.Zero
                  = Mat3.scale (Fin c) (for_loop n body Mat3.Zero)).
  { induction n as [| n IH].
    - unfold for_loop. cbn [seq fold_left]. rewrite mat3_scale_zero.
      reflexivity.
    - rewrite !for_loop_S, IH. unfold body', body.
      rewrite Hw, mat3_add_outer_scaled. reflexivity. }
  rewrite Hloop, mat3_div_cancel by exact Hc. reflexivity.
Qed.

Lemma estimate_scale_scaled (c : R) (paramScaling : bool) (Rm : Mat3Float)
  (FP CP : Vec3Mat) (ws ws' : VecDynFloat) (n : nat) (fc cc : Vec3Float) :
  c <> 0 -> scaled_weights c ws ws' ->
  estimate_scale paramScaling Rm FP CP ws' n fc cc
  = estimate_scale paramScaling Rm FP CP ws n fc cc.
Proof.
  intros Hc Hw. unfold estimate_scale.
  destruct paramScaling; [| reflexivity]. cbv zeta.
  set (body' := fun (i : nat) '(numerator, denominator) =>
         ((numerator +
           Vec3.dot (Vec3.scale (at_ ws' i) (Vec3.sub (row3 CP i) cc))
                    (Mat3.mulv Rm (Vec3.sub (row3 FP i) fc)))%fl,
          (denominator +
           Vec3.dot (Vec3.scale (at_ ws' i)
                       (Mat3.mulv Rm (Vec3.sub (row3 FP i) fc)))
                    (Mat3.mulv Rm (Vec3.sub (row3 FP i) fc)))%fl)).
  set (body := fun (i : nat) '(numerator, denominator) =>
         ((numerator +
           Vec3.dot (Vec3.scale (at_ ws i) (Vec3.sub (row3 CP i) cc))
                    (Mat3.mulv Rm (Vec3.sub (row3 FP i) fc)))%fl,
          (denominator +
           Vec3.dot (Vec3.scale (at_ ws i)
                       (Mat3.mulv Rm (Vec3.sub (row3 FP i) fc)))
                    (Mat3.mulv Rm (Vec3.sub (row3 FP i) fc)))%fl)).
  assert (Hloop : for_loop n body' (fzero, fzero)
                  = (fmul (Fin c) (fst (for_loop n body (fzero, fzero))),
                     fmul (Fin c) (snd (for_loop n body (fzero, fzero))))).
  { induction n as [| n IH].
    - unfold for_loop. cbn [seq fold_left fst snd]. rewrite fmul_fin_zero.
      reflexivity.
    - rewrite !for_loop_S, IH.
      destruct (for_loop n body (fzero, fzero)) as [a b].
      unfold body', body. cbn [fst snd].
      rewrite Hw, !vec3_dot_scaled, <- !fmul_fin_distr. reflexivity. }
  rewrite Hloop. destruct (for_loop n body (fzero, fzero)) as [a b].
  cbn [fst snd]. apply fdiv_fin_cancel, Hc.
Qed.

Section RigidScaleInvariance.

Variable decompose : Mat4Float -> EigenVectorDecomposer.

Lemma rigid_estimate_scaled (c : R)
  (ioFeatures inCorrespondingFeatures : FeatureMat)
  (ws ws' : VecDynFloat) (paramScaling : bool) :
  c <> 0 -> scaled_weights c ws ws' ->
  let e := rigid_estimate decompose ioFeatures inCorrespondingFeatures ws
                          paramScaling in
  let e' := rigid_estimate decompose ioFeatures inCorrespondingFeatures ws'
                           paramScaling in
  est_sumWeights e' = fmul (Fin c) (est_sumWeights e) /\
  est_transposed e' = est_transposed e /\
  est_decomposed e' = est_decomposed e /\
  est_floatingCentroid e' = est_floatingCentroid e /\
  est_correspondingCentroid e' = est_correspondingCentroid e /\
  est_rotation e' = est_rotation e /\
  est_scale e' = est_scale e /\
  est_translation e' = est_translation e.
Proof.
  intros Hc Hw. cbv zeta. unfold rigid_estimate.
  destruct (rigid_positions ioFeatures inCorrespondingFeatures)
    as [[tr FP] CP].
  rewrite (weighted_sums_scaled c FP CP ws ws' _ Hw).
  destruct (weighted_sums FP CP ws (length ioFeatures)) as [[fs cs] sw].
  cbn [fst snd].
  rewrite !vec3_div_cancel by exact Hc.
  rewrite (cross_variance_scaled c FP CP ws ws') by assumption.
  rewrite (estimate_scale_scaled c paramScaling _ FP CP ws ws')
    by assumption.
  cbn. repeat split.
Qed.

(** X19.  The weights count only up to a common factor in the rigid
    transformation as well: multiplying every weight by the same non-zero
    number leaves the centroids, the rotation, the scale factor, the
    translation, the messages and the features returned unchanged, for
    every input and every result of the eigensolver. *)
Theorem rigid_transformation_weight_scale (c : R)
  (ioFeatures inCorrespondingFeatures : FeatureMat)
  (inWeights : VecDynFloat) (paramScaling : bool) :
  c <> 0 ->
  rigid_transformation decompose ioFeatures inCorrespondingFeatures
                       (map (fmul (Fin c)) inWeights) paramScaling
  = rigid_transformation decompose ioFeatures inCorrespondingFeatures
                         inWeights paramScaling.
Proof.
  intros Hc.
  destruct (rigid_estimate_scaled c ioFeatures inCorrespondingFeatures
              inWeights (map (fmul (Fin c)) inWeights) paramScaling Hc
              (scaled_weights_map c inWeights))
    as (_ & Htr & Hde & _ & _ & HR & Hs & Ht).
  cbv zeta in *. unfold rigid_transformation, rigid_messages.
  rewrite Htr, Hde, HR, Hs, Ht. reflexivity.
Qed.

End RigidScaleInvariance.

Lemma rigid_transformation_weight_scale_witness :
  rigid_transformation Samples.decompose7 Samples.floating7
    Samples.corresponding7 (map (fmul (Fin 3)) Samples.weights7) false
  = rigid_transformation Samples.decompose7 Samples.floating7
      Samples.corresponding7 Samples.weights7 false.
Proof.
  apply (rigid_transformation_weight_scale Samples.decompose7 3). lra.
Defined.

(** ** Corresponding features of a one-hot affinity row *)

Lemma feature_add_zero_term (acc f : FeatureVec) :
  feature_finite acc -> feature_finite f ->
  Feature.add acc (Feature.scale (Fin 0) f) = acc.
Proof.
  intros [Hp Hn] [Hfp Hfn]. destruct acc as [p n], f as [fp fn].
  cbn [position normal] in *.
  rewrite (vec3_finite_eta p Hp), (vec3_finite_eta n Hn),
    (vec3_finite_eta fp Hfp), (vec3_finite_eta fn Hfn).
  cbv [Feature.add Feature.scale Vec3.add Vec3.scale position normal
       vx vy vz fmul fadd fval].
  fin_goals idtac; ring.
Qed.

Lemma features_zero_row (acc : FeatureVec) (n : nat) (T : FeatureMat) :
  feature_finite acc -> Forall feature_finite T ->
  fold_left (fun a p => Feature.add a (Feature.scale (fst p) (snd p)))
            (combine (repeat (Fin 0) n) T) acc = acc.
Proof.
  intros Hacc HT. revert n. induction HT as [| f T Hf _ IH]; intros [| n];
    try reflexivity.
  simpl. rewrite feature_add_zero_term by assumption. apply IH.
Qed.

Lemma features_one_hot (acc : FeatureVec) (n j : nat) (T : FeatureMat) :
  feature_finite acc -> Forall feature_finite T ->
  (j < n)%nat -> (j < length T)%nat ->
  fold_left (fun a p => Feature.add a (Feature.scale (fst p) (snd p)))
            (combine (one_hot n j) T) acc
  = Feature.add acc (Feature.scale (Fin 1) (Feature.row T j)).
Proof.
  intros Hacc HT. revert acc Hacc n j.
  induction HT as [| f T Hf HT IH]; intros acc Hacc n j Hn Hj;
    [simpl in Hj; lia |].
  destruct n as [| n]; [lia |]. destruct j as [| j].
  - unfold one_hot. simpl.
    apply features_zero_row; [| exact HT].
    destruct Hacc as [Hp Hq], Hf as [Hfp Hfn].
    destruct acc as [p q], f as [fp fn]. cbn [position normal] in *.
    rewrite (vec3_finite_eta p Hp), (vec3_finite_eta q Hq),
      (vec3_finite_eta fp Hfp), (vec3_finite_eta fn Hfn).
    repeat split; eexists; reflexivity.
  - unfold one_hot in *. simpl.
    rewrite feature_add_zero_term by assumption.
    apply IH; [exact Hacc | lia | simpl in Hj; lia].
Qed.

(** X20.  An affinity row that puts all its mass on one target reproduces
    that target: in a call whose rounding loop stays within the flag vector
    (no more target rows than affinity rows) and over finite target
    features, the corresponding feature of a one-hot row is the feature of
    the target it selects, position and normal. *)
Theorem affinity_to_correspondences_one_hot
  (inTargetFeatures : FeatureMat) (inTargetFlags : VecDynFloat)
  (inAffinity : MatDynFloat) (limit : float) (i j : nat) :
  (length inTargetFeatures <= length inAffinity)%nat ->
  Forall feature_finite inTargetFeatures ->
  (i < length inAffinity)%nat -> (j < length inTargetFeatures)%nat ->
  nth i inAffinity [] = one_hot (length inTargetFeatures) j ->
  Feature.row
    (fst (affinity_to_correspondences inTargetFeatures inTargetFlags
            inAffinity limit)) i
  = Feature.row inTargetFeatures j.
Proof.
  intros _ HT Hi Hj Hrow. unfold affinity_to_correspondences. cbn [fst].
  unfold Feature.row at 1.
  rewrite (nth_indep _ Feature.undef
             (affinity_row_times_features [] inTargetFeatures))
    by (rewrite length_map; exact Hi).
  rewrite (map_nth (fun arow =>
                      affinity_row_times_features arow inTargetFeatures)).
  rewrite Hrow. unfold affinity_row_times_features.
  rewrite features_one_hot; try assumption.
  - assert (Hf : feature_finite (Feature.row inTargetFeatures j)).
    { rewrite Forall_forall in HT. apply HT. unfold Feature.row.
      apply nth_In, Hj. }
    destruct Hf as [Hp Hn].
    destruct (Feature.row inTargetFeatures j) as [p n].
    cbn [position normal] in *.
    rewrite (vec3_finite_eta p Hp), (vec3_finite_eta n Hn).
    cbv [Feature.add Feature.scale Feature.Zero Vec3.add Vec3.scale
         Vec3.Zero position normal vx vy vz fmul fadd fzero fval].
    fin_goals idtac; ring.
  - repeat split; eexists; reflexivity.
Qed.

Lemma affinity_to_correspondences_one_hot_witness :
  Feature.row
    (fst (affinity_to_correspondences Samples.targetFeatures
            Samples.targetFlags [one_hot 2 1; one_hot 2 0; one_hot 2 1]
            default_flag_rounding_limit)) 2
  = Feature.row Samples.targetFeatures 1.
Proof.
  apply (affinity_to_correspondences_one_hot Samples.targetFeatures
           Samples.targetFlags [one_hot 2 1; one_hot 2 0; one_hot 2 1]
           default_flag_rounding_limit 2 1).
  - simpl. lia.
  - repeat constructor; eexists; reflexivity.
  - simpl. lia.
  - simpl. lia.
  - reflexivity.
Defined.

(** ** The scale factor of step 8 *)

Lemma vec3_dot_scaled_inner (s : R) (w : float) (u v : Vec3Float) :
  Vec3.dot (Vec3.scale w (Vec3.scale (Fin s) u)) v
  = fmul (Fin s) (Vec3.dot (Vec3.scale w u) v).
Proof.
  unfold Vec3.dot, Vec3.scale. cbn [vx vy vz].
  rewrite !fmul_fin_swap, !fmul_fin_assoc, <- !fmul_fin_distr. reflexivity.
Qed.

(** X21.  Step 8 recovers a scale that is there: when every centred
    corresponding position is s0 times the rotated centred floating position
    and the weighted sum of squared lengths in the denominator is finite and
    not zero, the scale factor estimated is s0. *)
Theorem estimate_scale_recovers (s0 d : R) (rotMatTemp : Mat3Float)
  (floatingPositions correspondingPositions : Vec3Mat)
  (inWeights : VecDynFloat) (numVertices : nat)
  (floatingCentroid correspondingCentroid : Vec3Float) :
  let newFloatingPos := fun i =>
    Mat3.mulv rotMatTemp
      (Vec3.sub (row3 floatingPositions i) floatingCentroid) in
  (forall i, (i < numVertices)%nat ->
     Vec3.sub (row3 correspondingPositions i) correspondingCentroid
     = Vec3.scale (Fin s0) (newFloatingPos i)) ->
  for_loop numVertices
    (fun i denominator =>
       (denominator +
        Vec3.dot (Vec3.scale (at_ inWeights i) (newFloatingPos i))
                 (newFloatingPos i))%fl) fzero
  = Fin d ->
  d <> 0 ->
  estimate_scale true rotMatTemp floatingPositions correspondingPositions
                 inWeights numVertices floatingCentroid correspondingCentroid
  = Fin s0.
Proof.
  intros u Hcorr Hden Hd. unfold estimate_scale. cbv zeta.
  set (body := fun (i : nat) '(numerator, denominator) =>
         ((numerator +
           Vec3.dot (Vec3.scale (at_ inWeights i)
                       (Vec3.sub (row3 correspondingPositions i)
                                 correspondingCentroid))
                    (Mat3.mulv rotMatTemp
                       (Vec3.sub (row3 floatingPositions i)
                                 floatingCentroid)))%fl,
          (denominator +
           Vec3.dot (Vec3.scale (at_ inWeights i)
                       (Mat3.mulv rotMatTemp
                          (Vec3.sub (row3 floatingPositions i)
                                    floatingCentroid)))
                    (Mat3.mulv rotMatTemp
                       (Vec3.sub (row3 floatingPositions i)
                                 floatingCentroid)))%fl)).
  set (dbody := fun (i : nat) (denominator : float) =>
         (denominator +
          Vec3.dot (Vec3.scale (at_ inWeights i) (u i)) (u i))%fl) in Hden.
  assert (Hloop : forall n, (n <= numVertices)%nat ->
            for_loop n body (fzero, fzero)
            = (fmul (Fin s0) (for_loop n dbody fzero),
               for_loop n dbody fzero)).
  { induction n as [| n IH]; intros Hn.
    - unfold for_loop. cbn [seq fold_left]. rewrite fmul_fin_zero.
      reflexivity.
    - rewrite !for_loop_S, IH by lia. unfold body, dbody. cbn [fst snd].
      rewrite (Hcorr n) by lia. fold (u n).
      rewrite vec3_dot_scaled_inner, <- fmul_fin_distr. reflexivity. }
  rewrite (Hloop numVertices (Nat.le_refl _)), Hden. cbn [fmul].
  rewrite fdiv_fin by exact Hd. apply (f_equal Fin). field. exact Hd.
Qed.

Lemma estimate_scale_recovers_witness :
  estimate_scale true Mat3.Identity [Samples.unit_x] [vec3 2 0 0]
                 [Fin 1] 1 Samples.origin Samples.origin
  = Fin 2.
Proof.
  apply (estimate_scale_recovers 2 1).
  - intros [| i] Hi; [| lia].
    cbv [row3 nth Vec3.sub Vec3.scale Mat3.mulv Mat3.Identity Vec3.dot vec3
         Samples.unit_x Samples.origin m3r0 m3r1 m3r2 vx vy vz
         fmul fadd fsub fzero fone].
    fin_goals idtac; ring.
  - cbv [for_loop seq fold_left at_ row3 nth Vec3.sub Vec3.scale Mat3.mulv
         Mat3.Identity Vec3.dot vec3 Samples.unit_x Samples.origin
         m3r0 m3r1 m3r2 vx vy vz fmul fadd fsub fzero fone].
    apply (f_equal Fin). ring.
  - lra.
Defined.

(** ** Sample inputs for the bounds and the fixed point *)



Lemma viscoelastic_transformation_fixed_point_witness :
  viscoelastic_transformation Samples.one_point_neighbours
    Samples.oneFloating Samples.oneFloating [Fin 1] (Field.Zero 1) 1 (Fin 1)
    2 3
  = (Samples.oneFloating, Field.Zero 1).
Proof.
  apply (viscoelastic_transformation_fixed_point Samples.one_point_neighbours
           Samples.oneFloating Samples.oneFloating [Fin 1] 1 1 2 3).
  - reflexivity.
  - lra.
  - lia.
  - intros i j Hi Hj. simpl in Hi.
    assert (i = 0%nat) by lia. assert (j = 0%nat) by lia. subst.
    cbv. constructor.
  - intros [| j] Hj; [| simpl in Hj; lia]. split.
    + repeat split; eexists; reflexivity.
    + exists 1. split; [reflexivity | lra].
Defined.
